(** * StagehandPage: frame ordinals, session registry, selector engine and
      DOM-settle detector

    A shallow embedding of the stateful core of [src/lib/StagehandPage.ts]:

    - [FrameOrdinals]  : [ordinalForFrameId], [encodeWithFrameId],
                         [resetFrameOrdinals];
    - [SessionRegistry]: [getCDPClient];
    - [SelectorEngine] : [ensureStagehandSelectorEngine] and the engine it
                         registers ([parseSelector], [pushChildren],
                         [traverseAllTrees], [query], [queryAll]);
    - [SettledDom]     : [_waitForSettledDom];
    - [CdpCommands]    : [sendCDP], [enableCDP], [disableCDP];
    - [Captcha]        : [waitForCaptchaSolve] and the [on] of the two page
                         proxies;
    - [HelperScript]   : [ensureStagehandScript].

    JavaScript [Map]s and [Set]s are finite maps and sets (stdpp's [gmap] and
    [gset]); mutable fields are threaded as explicit state; promises that can
    reject return a sum; integer-valued numbers are [Z] or [nat]; times are
    in milliseconds, and a handler receives the value of [Date.now()] as its
    first argument.  The definitions come first, module by module; the
    properties follow, one section per module. *)

From Stdlib Require Import ZArith String Ascii Decimal DecimalFacts DecimalString DecimalNat DecimalZ.
From stdpp Require Import gmap strings list fin_maps.

(** Results of fallible (async) calls: a resolved value or the thrown error. *)
Inductive Result (A E : Type) : Type :=
| Ok (a : A)
| Err (e : E).
Arguments Ok {A E} a.
Arguments Err {A E} e.

(** JavaScript truthiness of a string: only the empty string is falsy. *)
Definition truthy (s : string) : bool :=
  match s with
  | EmptyString => false
  | String _ _ => true
  end.

(** [s.indexOf(c)] for a one-character needle; [None] stands for [-1]. *)
Fixpoint indexOf (c : ascii) (s : string) : option nat :=
  match s with
  | EmptyString => None
  | String a rest =>
      if Ascii.eqb a c then Some 0
      else match indexOf c rest with
           | Some i => Some (S i)
           | None => None
           end
  end.

(** [s.slice(0, n)] and [s.slice(n)] for [0 <= n]. *)
Fixpoint slice_to (n : nat) (s : string) : string :=
  match n, s with
  | S k, String a rest => String a (slice_to k rest)
  | _, _ => EmptyString
  end.

Fixpoint slice_from (n : nat) (s : string) : string :=
  match n, s with
  | S k, String _ rest => slice_from k rest
  | _, _ => s
  end.

(** [Number.isSafeInteger(z)]: an integer of absolute value at most
    [2^53 - 1].  These are the integers a JavaScript number holds exactly
    and prints digit by digit. *)
Definition isSafeInteger (z : Z) : bool := (Z.abs z <=? 9007199254740991)%Z.

(** [`${n}`] for a safe integer: decimal digits, with a leading minus sign
    for a negative one.  Beyond the safe integers a JavaScript number is a
    floating-point value, printed with rounded digits and, from [10^21] on,
    in exponent form (["1e+21"]); that printing is not modelled, and a
    statement about the printed digits is made for safe integers only. *)
Definition numberToString (z : Z) : string :=
  NilZero.string_of_int (Z.to_int z).

Definition natToString (n : nat) : string :=
  NilZero.string_of_uint (Nat.to_uint n).

(* ================================================================== *)
(** * Frame ordinal allocator *)
(* ================================================================== *)

Module FrameOrdinals.

(** [fidOrdinals : Map<string | undefined, number>]; the key [undefined] is
    [None]. *)
Abbreviation OrdinalMap := (gmap (option string) nat).

(** [new Map([[undefined, 0]])] *)
Definition initial : OrdinalMap := {[ None := 0 ]}.

(** [ordinalForFrameId(fid)]: the ordinal and the map after the call. *)
Definition ordinalForFrameId (fid : option string) (fidOrdinals : OrdinalMap)
  : nat * OrdinalMap :=
  match fid with
  | None => (0, fidOrdinals)
  | Some _ =>
      match fidOrdinals !! fid with
      | Some cached => (cached, fidOrdinals)
      | None =>
          let next := size fidOrdinals in
          (next, <[fid := next]> fidOrdinals)
      end
  end.

(** [encodeWithFrameId(fid, backendId)] *)
Definition encodeWithFrameId (fid : option string) (backendId : Z)
    (fidOrdinals : OrdinalMap) : string * OrdinalMap :=
  let '(ord, m) := ordinalForFrameId fid fidOrdinals in
  ((natToString ord ++ "-" ++ numberToString backendId)%string, m).

(** [resetFrameOrdinals()] *)
Definition resetFrameOrdinals (fidOrdinals : OrdinalMap) : OrdinalMap :=
  initial.

(** Calls made on one page object, in order. *)
Inductive Call :=
| CallOrdinal (fid : option string)
| CallEncode (fid : option string) (backendId : Z)
| CallReset.

Definition call (c : Call) (m : OrdinalMap) : OrdinalMap :=
  match c with
  | CallOrdinal fid => snd (ordinalForFrameId fid m)
  | CallEncode fid b => snd (encodeWithFrameId fid b m)
  | CallReset => resetFrameOrdinals m
  end.

Definition run (cs : list Call) (m : OrdinalMap) : OrdinalMap :=
  fold_left (fun acc c => call c acc) cs m.

Definition is_reset (c : Call) : bool :=
  match c with CallReset => true | _ => false end.

Definition no_reset (cs : list Call) : bool := forallb (fun c => negb (is_reset c)) cs.

(** Calls that only ask for the default ([undefined]) frame. *)
Definition only_default (cs : list Call) : bool :=
  forallb (fun c => match c with
                    | CallOrdinal None | CallEncode None _ => true
                    | _ => false
                    end) cs.

(** Modelled from the spec: the parser of an encoded id is not part of this
    file.  Following "parsing that token at its first separator": the token
    is cut at the first ['-']; the part before it is read as an unsigned
    base-10 integer and the part after it as a signed one. *)
Definition parseEncodedId (token : string) : option (nat * Z) :=
  match indexOf "-"%char token with
  | None => None
  | Some i =>
      match NilZero.uint_of_string (slice_to i token),
            NilZero.int_of_string (slice_from (S i) token) with
      | Some o, Some b => Some (Nat.of_uint o, Z.of_int b)
      | _, _ => None
      end
  end.

(** The map invariant: [undefined] has ordinal 0 and every recorded ordinal
    is below the size of the map. *)
Definition wf (m : OrdinalMap) : Prop :=
  m !! None = Some 0 /\ forall k v, m !! k = Some v -> v < size m.

End FrameOrdinals.

(** A thrown JavaScript value; [message] is [None] when the value carries no
    message ([(err as Error).message ?? ""]). *)
Record JsError := { message : option string }.

(** [s.startsWith(p)] *)
Definition startsWith (p s : string) : bool := String.prefix p s.

(** [s.includes(p)] *)
Fixpoint includes (p s : string) : bool :=
  match s with
  | EmptyString => String.prefix p EmptyString
  | String _ rest => String.prefix p s || includes p rest
  end.

(* ================================================================== *)
(** * Session registry *)
(* ================================================================== *)

Module SessionRegistry.

(** Pages, frames and CDP sessions are objects compared by identity. *)
Abbreviation Target := nat.
Abbreviation Session := nat.

(** The part of a [StagehandPage] the registry touches: the [cdpClients]
    cache and the creation requests sent to the browser context so far, most
    recent last. *)
Record Registry := {
  cdpClients : gmap nat nat;
  attempts : list Target
}.

(** The registry right after a creation request for [target] was sent. *)
Definition asked (target : Target) (r : Registry) : Registry :=
  {| cdpClients := cdpClients r; attempts := attempts r ++ [target] |}.

(** [this.cdpClients.set(target, session)] *)
Definition cache (target : Target) (session : Session) (r : Registry) : Registry :=
  {| cdpClients := <[target := session]> (cdpClients r); attempts := attempts r |}.

(** The test of the [catch] block, on [(err as Error).message ?? ""]. *)
Definition noSeparateSession (err : JsError) : bool :=
  includes "does not have a separate CDP session" (default EmptyString (message err)).

Section WithEngine.

(** [context.newCDPSession(target)]: what the engine answers to a creation
    request, given the requests it received before. *)
Variable newCDPSession : list Target -> Target -> Result Session JsError.

(** [this.page] *)
Variable page : Target.

(** [getCDPClient(target)].  The fallback calls [getCDPClient(this.page)]
    again, so the recursion is bounded by [fuel]; [None] is a call still
    pending when the fuel runs out. *)
Fixpoint getCDPClient (fuel : nat) (target : Target) (r : Registry)
  : option (Result Session JsError) * Registry :=
  match fuel with
  | O => (None, r)
  | S fuel' =>
      match cdpClients r !! target with
      | Some cached => (Some (Ok cached), r)
      | None =>
          match newCDPSession (attempts r) target with
          | Ok session => (Some (Ok session), cache target session (asked target r))
          | Err err =>
              if noSeparateSession err then
                match getCDPClient fuel' page (asked target r) with
                | (Some (Ok rootSession), r') =>
                    (Some (Ok rootSession), cache target rootSession r')
                | failed => failed
                end
              else (Some (Err err), asked target r)
          end
      end
  end.

End WithEngine.

(** An engine that gives the main page (target 0) session 100 and tells every
    other target that it has no session of its own. *)
Definition sameProcessEngine (log : list Target) (target : Target)
  : Result Session JsError :=
  if Nat.eqb target 0 then Ok 100
  else Err {| message := Some "Frame does not have a separate CDP session."%string |}.

(** An engine whose browser is gone: every creation request fails. *)
Definition closedEngine (log : list Target) (target : Target)
  : Result Session JsError :=
  Err {| message := Some "Target page, context or browser has been closed"%string |}.

(** An engine whose main page (target 0) has been closed while its frames
    are still asked about: a creation request for the page fails as for a
    closed page, and every other target is told that it has no session of
    its own. *)
Definition detachedEngine (log : list Target) (target : Target)
  : Result Session JsError :=
  if Nat.eqb target 0
  then Err {| message := Some "Target page, context or browser has been closed"%string |}
  else Err {| message := Some "Frame does not have a separate CDP session."%string |}.

End SessionRegistry.

(* ================================================================== *)
(** * Shadow-piercing selector engine *)
(* ================================================================== *)

Module SelectorEngine.

(** ** Registration *)

(** The module-level flag [stagehandSelectorRegistered], the state of the
    host's selector registry, and the names passed to [selectors.register]
    so far (most recent first). *)
Record Process (Host : Type) := {
  stagehandSelectorRegistered : bool;
  host : Host;
  registerCalls : list string
}.
Arguments stagehandSelectorRegistered {Host} _.
Arguments host {Host} _.
Arguments registerCalls {Host} _.

Section WithHost.

Variable Host : Type.

(** [selectors.register(name, script)]: it may throw. *)
Variable register : string -> Host -> Result unit JsError * Host.

(** [ensureStagehandSelectorEngine()] *)
Definition ensureStagehandSelectorEngine (p : Process Host)
  : Result unit JsError * Process Host :=
  if stagehandSelectorRegistered p then (Ok tt, p)
  else
    let '(res, h) := register "stagehand" (host p) in
    (res, {| stagehandSelectorRegistered := true;
             host := h;
             registerCalls := "stagehand"%string :: registerCalls p |}).

(** [n] invocations in a row: the results, oldest first, and the final
    state. *)
Fixpoint invoke (n : nat) (p : Process Host)
  : list (Result unit JsError) * Process Host :=
  match n with
  | O => ([], p)
  | S k =>
      let '(res, p1) := ensureStagehandSelectorEngine p in
      let '(rest, p2) := invoke k p1 in
      (res :: rest, p2)
  end.

End WithHost.

(** ** The DOM seen by the engine *)

Inductive ShadowRootMode := ModeOpen | ModeClosed.

(** A child node is an element or character data (text, comment).  An
    element has an identity [uid], attributes, child nodes and at most one
    shadow root, given by its mode and its child nodes. *)
#[warnings="-register-all"]
Inductive Node :=
| Element (uid : nat) (attributes : list (string * string))
          (childNodes : list Node)
          (shadow : option (ShadowRootMode * list Node))
| CharacterData (data : string).

(** What a [Node]-typed variable of the engine can hold: a document with its
    [documentElement], a document fragment (a shadow root) with its child
    nodes, or a child node. *)
Inductive DomNode :=
| NDocument (documentElement : option Node)
| NFragment (fragChildNodes : list Node)
| NChild (n : Node).

Definition isElement (n : Node) : bool :=
  match n with Element _ _ _ _ => true | CharacterData _ => false end.

(** [parent.children]: the element children. *)
Definition children (childNodes : list Node) : list Node :=
  List.filter isElement childNodes.

(** [el.shadowRoot]: the shadow root when it is open. *)
Definition shadowRoot (n : Node) : option (list Node) :=
  match n with
  | Element _ _ _ (Some (ModeOpen, frag)) => Some frag
  | _ => None
  end.

(** Modelled from the spec: the backdoor [window.__stagehand__] is
    installed by a script that is not part of this file.  It is absent, or
    present with the hosts whose closed shadow root its [getClosedRoot]
    resolves ("the content of a closed shadow root that the backdoor can
    resolve"). *)
Definition Backdoor := option (nat -> bool).

(** [backdoor?.getClosedRoot?.(el)] *)
Definition getClosedRoot (backdoor : Backdoor) (n : Node) : option (list Node) :=
  match backdoor, n with
  | Some resolves, Element uid _ _ (Some (ModeClosed, frag)) =>
      if resolves uid then Some frag else None
  | _, _ => None
  end.

(** [el.getAttribute(name)]: the first attribute whose name is [name].
    Names are compared as they are; the lower-casing of [name] that the DOM
    does for an element of an HTML document is the DOM's and is not
    modelled, so the attribute lists are read as holding the names the DOM
    compares with. *)
Fixpoint lookupAttr (name : string) (attrs : list (string * string)) : option string :=
  match attrs with
  | [] => None
  | (k, v) :: rest => if String.eqb k name then Some v else lookupAttr name rest
  end.

Definition getAttribute (n : Node) (name : string) : option string :=
  match n with
  | Element _ attrs _ _ => lookupAttr name attrs
  | CharacterData _ => None
  end.

(** ** Selector parsing *)

(** White space removed by [String.prototype.trim], among the characters
    below U+0100. *)
Definition isWhiteSpace (c : ascii) : bool :=
  let n := nat_of_ascii c in
  (Nat.leb 9 n && Nat.leb n 13) || Nat.eqb n 32 || Nat.eqb n 160.

(** The double quote (U+0022) and the single quote (U+0027). *)
Definition isQuote (c : ascii) : bool :=
  Ascii.eqb c (ascii_of_nat 34) || Ascii.eqb c (ascii_of_nat 39).

Fixpoint trimStart (s : string) : string :=
  match s with
  | String a rest => if isWhiteSpace a then trimStart rest else s
  | EmptyString => EmptyString
  end.

Fixpoint trimEnd (s : string) : string :=
  match s with
  | EmptyString => EmptyString
  | String a rest =>
      match trimEnd rest with
      | EmptyString => if isWhiteSpace a then EmptyString else String a EmptyString
      | kept => String a kept
      end
  end.

Definition trim (s : string) : string := trimEnd (trimStart s).

(** [s.replace(/^["']|["']$/g, "")]: one leading quote and one trailing
    quote are removed. *)
Definition stripLeadingQuote (s : string) : string :=
  match s with
  | String a rest => if isQuote a then rest else s
  | EmptyString => EmptyString
  end.

Fixpoint stripTrailingQuote (s : string) : string :=
  match s with
  | EmptyString => EmptyString
  | String a EmptyString => if isQuote a then EmptyString else s
  | String a rest => String a (stripTrailingQuote rest)
  end.

Definition stripQuotes (s : string) : string :=
  stripTrailingQuote (stripLeadingQuote s).

Record Selector := { name : string; value : string }.

(** [parseSelector(input)] *)
Definition parseSelector (input : string) : Selector :=
  let raw := trim input in
  match indexOf "="%char raw with
  | None => {| name := "data-__stagehand-id"; value := stripQuotes raw |}
  | Some eq =>
      {| name := trim (slice_to eq raw);
         value := stripQuotes (trim (slice_from (S eq) raw)) |}
  end.

(** ** Traversal *)

(** The explicit stack of [traverseAllTrees]; the head of the list is the
    top of the stack ([stack.push] conses, [stack.pop] takes the head). *)
Definition Stack := list DomNode.

(** [pushChildren(node, stack)].  The loops push from the last child to the
    first, which leaves the first child on top. *)
Definition pushChildren (node : DomNode) (stack : Stack) : Stack :=
  match node with
  | NDocument de =>
      match de with
      | Some e => NChild e :: stack
      | None => stack
      end
  | NFragment cn =>
      match children cn with
      | [] => map NChild cn ++ stack
      | hc => map NChild hc ++ stack
      end
  | NChild (Element _ _ cn _) => map NChild (children cn) ++ stack
  | NChild (CharacterData _) => stack
  end.

Definition pushOpt (frag : option (list Node)) (stack : Stack) : Stack :=
  match frag with
  | Some f => NFragment f :: stack
  | None => stack
  end.

(** The [while (stack.length)] loop of [traverseAllTrees], collecting the
    yielded elements in order. *)
Fixpoint traverseLoop (backdoor : Backdoor) (fuel : nat) (stack : Stack) : list Node :=
  match fuel with
  | O => []
  | S fuel' =>
      match stack with
      | [] => []
      | node :: stack0 =>
          match node with
          | NChild (Element _ _ _ _ as el) =>
              let stack1 := pushOpt (shadowRoot el) stack0 in
              let stack2 := pushOpt (getClosedRoot backdoor el) stack1 in
              el :: traverseLoop backdoor fuel' (pushChildren node stack2)
          | _ => traverseLoop backdoor fuel' (pushChildren node stack0)
          end
      end
  end.

(** Number of nodes (documents, fragments, elements, character data) below
    and including a node: each is popped at most once. *)
Fixpoint nodeSize (n : Node) : nat :=
  match n with
  | Element _ _ cn sh =>
      1 + list_sum (map nodeSize cn)
        + match sh with
          | Some (_, frag) => 1 + list_sum (map nodeSize frag)
          | None => 0
          end
  | CharacterData _ => 1
  end.

Definition domSize (d : DomNode) : nat :=
  match d with
  | NDocument de => 1 + match de with Some e => nodeSize e | None => 0 end
  | NFragment cn => 1 + list_sum (map nodeSize cn)
  | NChild n => nodeSize n
  end.

(** [traverseAllTrees(start)] *)
Definition traverseAllTrees (backdoor : Backdoor) (start : DomNode) : list Node :=
  let stack :=
    match start with
    | NDocument de =>
        match de with
        | Some e => [NChild e]
        | None => []
        end
    | _ => [start]
    end in
  traverseLoop backdoor (S (domSize start)) stack.

Definition attrMatches (sel : Selector) (el : Node) : bool :=
  match getAttribute el (name sel) with
  | Some v => String.eqb v (value sel)
  | None => false
  end.

(** [query(root, selector)] *)
Definition query (backdoor : Backdoor) (root : DomNode) (selector : string) : option Node :=
  let sel := parseSelector selector in
  List.find (attrMatches sel) (traverseAllTrees backdoor root).


(** ** Reference description of the reachable elements

    The elements reachable from a node: the node itself when it is an
    element, then what is reachable from its child nodes, then what is
    reachable inside its shadow root when that root is open, or closed and
    resolved by the backdoor. *)
Definition pierces (backdoor : Backdoor) (uid : nat) (mode : ShadowRootMode) : bool :=
  match mode with
  | ModeOpen => true
  | ModeClosed =>
      match backdoor with
      | Some resolves => resolves uid
      | None => false
      end
  end.

Fixpoint reachable (backdoor : Backdoor) (n : Node) : list Node :=
  match n with
  | Element uid _ cn sh =>
      n :: flat_map (reachable backdoor) cn
        ++ match sh with
           | Some (mode, frag) =>
               if pierces backdoor uid mode
               then flat_map (reachable backdoor) frag
               else []
           | None => []
           end
  | CharacterData _ => []
  end.

Definition reachableFrom (backdoor : Backdoor) (d : DomNode) : list Node :=
  match d with
  | NDocument de =>
      match de with
      | Some e => reachable backdoor e
      | None => []
      end
  | NFragment cn => flat_map (reachable backdoor) cn
  | NChild n => reachable backdoor n
  end.




Definition stackSize (stack : Stack) : nat := list_sum (map domSize stack).

(** A page with an open shadow root nested in a closed one, each tree
    holding an element tagged ["x"]. *)
Definition taggedElement (uid : nat) (cn : list Node)
    (sh : option (ShadowRootMode * list Node)) : Node :=
  Element uid [("data-__stagehand-id"%string, "x"%string)] cn sh.


End SelectorEngine.

(* ================================================================== *)
(** * DOM-settle detector *)
(* ================================================================== *)

Module SettledDom.

Local Open Scope Z_scope.

(** [Protocol.Network.ResourceType] *)
Inductive ResourceType :=
| Document | Stylesheet | Image | Media | Font | Script | TextTrack | XHR
| Fetch | Prefetch | EventSource | WebSocket | Manifest | SignedExchange
| Ping | CSPViolationReport | Preflight | FedCM | Other.

Definition isDocument (t : option ResourceType) : bool :=
  match t with Some Document => true | _ => false end.

Definition isLongLived (t : option ResourceType) : bool :=
  match t with Some WebSocket | Some EventSource => true | _ => false end.

(** The value type of [meta]. *)
Record RequestMeta := { url : string; start : Z }.

(** What [stagehand.log] receives from the detector. *)
Inductive LogEntry :=
| LogStalled (truncatedUrl : string)
| LogTimeout (count : nat).

(** The variables captured by the promise executor.  A timer field holds the
    deadline (in ms) of the pending timer, [None] when there is none (the
    variable is [null], or the timer was cleared).  [listening] tells whether
    the six [client.on] handlers are attached, [resolvedAt] when [resolve()]
    was first called. *)
Record Detector := {
  inflight : gset string;
  meta : gmap string RequestMeta;
  docByFrame : gmap string string;
  quietTimer : option Z;
  stalledRequestSweepTimer : option Z;
  guard : option Z;
  listening : bool;
  resolvedAt : option Z;
  logs : list LogEntry
}.

(** The CDP events the detector subscribes to, with the fields it reads. *)
Inductive Event :=
| RequestWillBeSent (requestId : string) (type : option ResourceType)
                    (frameId : option string) (requestUrl : string)
| LoadingFinished (requestId : string)
| LoadingFailed (requestId : string)
| RequestServedFromCache (requestId : string)
| ResponseReceived (requestId : string) (responseUrl : string)
| FrameStoppedLoading (frameId : string).

Definition setQuiet (q : option Z) (s : Detector) : Detector :=
  {| inflight := inflight s; meta := meta s; docByFrame := docByFrame s;
     quietTimer := q;
     stalledRequestSweepTimer := stalledRequestSweepTimer s;
     guard := guard s; listening := listening s;
     resolvedAt := resolvedAt s; logs := logs s |}.

Definition setRequests (i : gset string) (m : gmap string RequestMeta)
    (d : gmap string string) (s : Detector) : Detector :=
  {| inflight := i; meta := m; docByFrame := d;
     quietTimer := quietTimer s;
     stalledRequestSweepTimer := stalledRequestSweepTimer s;
     guard := guard s; listening := listening s;
     resolvedAt := resolvedAt s; logs := logs s |}.

Definition addLogs (l : list LogEntry) (s : Detector) : Detector :=
  {| inflight := inflight s; meta := meta s; docByFrame := docByFrame s;
     quietTimer := quietTimer s;
     stalledRequestSweepTimer := stalledRequestSweepTimer s;
     guard := guard s; listening := listening s;
     resolvedAt := resolvedAt s; logs := logs s ++ l |}.

Definition setSweep (t : option Z) (s : Detector) : Detector :=
  {| inflight := inflight s; meta := meta s; docByFrame := docByFrame s;
     quietTimer := quietTimer s;
     stalledRequestSweepTimer := t;
     guard := guard s; listening := listening s;
     resolvedAt := resolvedAt s; logs := logs s |}.

Definition setGuard (t : option Z) (s : Detector) : Detector :=
  {| inflight := inflight s; meta := meta s; docByFrame := docByFrame s;
     quietTimer := quietTimer s;
     stalledRequestSweepTimer := stalledRequestSweepTimer s;
     guard := t; listening := listening s;
     resolvedAt := resolvedAt s; logs := logs s |}.

(** [clearQuiet()] *)
Definition clearQuiet (s : Detector) : Detector := setQuiet None s.

(** [maybeQuiet()], run at time [now]. *)
Definition maybeQuiet (now : Z) (s : Detector) : Detector :=
  if Nat.eqb (size (inflight s)) 0 && negb (bool_decide (is_Some (quietTimer s)))
  then setQuiet (Some (now + 500)) s
  else s.

(** [finishReq(id)] *)
Definition finishReq (now : Z) (id : string) (s : Detector) : Detector :=
  if bool_decide (id ∈ inflight s) then
    maybeQuiet now
      (clearQuiet
         (setRequests (inflight s ∖ {[ id ]})
                      (delete id (meta s))
                      (filter (fun kv => kv.2 ≠ id) (docByFrame s))
                      s))
  else s.

(** [onRequest(p)] *)
Definition onRequest (now : Z) (requestId : string) (type : option ResourceType)
    (frameId : option string) (requestUrl : string) (s : Detector) : Detector :=
  if isLongLived type then s
  else
    let docs :=
      match frameId with
      | Some fid =>
          if isDocument type && truthy fid
          then <[fid := requestId]> (docByFrame s)
          else docByFrame s
      | None => docByFrame s
      end in
    clearQuiet
      (setRequests ({[ requestId ]} ∪ inflight s)
                   (<[requestId := {| url := requestUrl; start := now |}]> (meta s))
                   docs s).

(** [onFinish(p)] and [onCached(p)] *)
Definition onFinish (now : Z) (requestId : string) (s : Detector) : Detector :=
  finishReq now requestId s.

Definition onCached (now : Z) (requestId : string) (s : Detector) : Detector :=
  finishReq now requestId s.

(** [onDataUrl(p)] *)
Definition onDataUrl (now : Z) (requestId responseUrl : string) (s : Detector)
  : Detector :=
  if startsWith "data:" responseUrl then finishReq now requestId s else s.

(** [onFrameStop(f)] *)
Definition onFrameStop (now : Z) (frameId : string) (s : Detector) : Detector :=
  match docByFrame s !! frameId with
  | Some id => if truthy id then finishReq now id s else s
  | None => s
  end.

(** The handler attached to each event. *)
Definition handle (now : Z) (ev : Event) (s : Detector) : Detector :=
  match ev with
  | RequestWillBeSent id ty fid u => onRequest now id ty fid u s
  | LoadingFinished id => onFinish now id s
  | LoadingFailed id => onFinish now id s
  | RequestServedFromCache id => onCached now id s
  | ResponseReceived id u => onDataUrl now id u s
  | FrameStoppedLoading fid => onFrameStop now fid s
  end.

(** [resolveDone()]: handlers detached, the three timers cleared, the promise
    resolved (a second [resolve()] has no effect). *)
Definition resolveDone (now : Z) (s : Detector) : Detector :=
  {| inflight := inflight s; meta := meta s; docByFrame := docByFrame s;
     quietTimer := None;
     stalledRequestSweepTimer := None;
     guard := None;
     listening := false;
     resolvedAt := match resolvedAt s with Some t => Some t | None => Some now end;
     logs := logs s |}.

(** The test of the sweep: [now - m.start > 2_000]. *)
Definition stalled (now : Z) (m : RequestMeta) : bool := 2000 <? now - start m.

(** The callback of the [setInterval]: every entry of [meta] that passes the
    test is deleted from [inflight] and [meta] and logged with its URL cut to
    120 characters; then [maybeQuiet()].  The code walks its [Map] in
    insertion order; a finite map here has no insertion order, so the
    entries logged by one sweep are listed in the key order of [meta], and
    no statement below speaks of the order of the entries of one sweep. *)
Definition evictStalled (now : Z) (s : Detector) : Detector :=
  let evicted := filter (fun kv => stalled now kv.2 = true) (meta s) in
  let kept := filter (fun kv => stalled now kv.2 = false) (meta s) in
  addLogs (map (fun kv => LogStalled (slice_to 120 (url kv.2))) (map_to_list evicted))
    (setRequests (inflight s ∖ dom evicted) kept (docByFrame s) s).

Definition sweep (now : Z) (s : Detector) : Detector :=
  maybeQuiet now (evictStalled now s).

(** The callback of the guard [setTimeout]. *)
Definition guardFired (now : Z) (s : Detector) : Detector :=
  let s' :=
    if negb (Nat.eqb (size (inflight s)) 0)
    then addLogs [LogTimeout (size (inflight s))] s
    else s in
  resolveDone now s'.

(** The delay a Node.js timer really uses: a delay below 1 or above
    2^31 - 1 is replaced by 1. *)
Definition timerDelay (ms : Z) : Z :=
  if (1 <=? ms) && (ms <=? 2147483647) then ms else 1.

(** The state built by the promise executor at time [now]: empty
    collections, the sweep interval, [maybeQuiet()], then the guard. *)
Definition start_detector (now timeout : Z) : Detector :=
  setGuard (Some (now + timerDelay timeout))
    (maybeQuiet now
       {| inflight := ∅; meta := ∅; docByFrame := ∅;
          quietTimer := None;
          stalledRequestSweepTimer := Some (now + 500);
          guard := None;
          listening := true;
          resolvedAt := None;
          logs := [] |}).

(** ** The event loop

    Timers fire at their deadline, earliest first; of two timers due at the
    same instant the sweep runs before the quiet timer and the quiet timer
    before the guard. *)
Inductive Timer := SweepTimer | QuietTimer | GuardTimer.

#[global] Instance Timer_eq_dec : EqDecision Timer.
Proof. solve_decision. Defined.

Definition tagged (k : Timer) (d : option Z) : option (Timer * Z) :=
  match d with Some t => Some (k, t) | None => None end.

Definition earlier (a b : option (Timer * Z)) : option (Timer * Z) :=
  match a, b with
  | Some (_, da), Some (_, db) => if da <=? db then a else b
  | Some _, None => a
  | None, _ => b
  end.

Definition next_timer (s : Detector) : option (Timer * Z) :=
  earlier (tagged SweepTimer (stalledRequestSweepTimer s))
    (earlier (tagged QuietTimer (quietTimer s)) (tagged GuardTimer (guard s))).

(** Running the callback of a timer at its deadline [d]; the interval is
    re-armed 500 ms later. *)
Definition fire (k : Timer) (d : Z) (s : Detector) : Detector :=
  match k with
  | SweepTimer => sweep d (setSweep (Some (d + 500)) s)
  | QuietTimer => resolveDone d s
  | GuardTimer => guardFired d s
  end.

(** Fire, in order, the timers due at or before [t]. *)
Fixpoint fire_due (fuel : nat) (t : Z) (s : Detector) : Detector :=
  match fuel with
  | O => s
  | S fuel' =>
      match next_timer s with
      | Some (k, d) => if d <=? t then fire_due fuel' t (fire k d s) else s
      | None => s
      end
  end.

(** An upper bound on the number of timer callbacks run up to time [t]: the
    sweeps, and one quiet or guard callback (which clears every timer). *)
Definition sweeps_due (t : Z) (s : Detector) : nat :=
  match stalledRequestSweepTimer s with
  | Some d => if d <=? t then S (Z.to_nat ((t - d) / 500)) else O
  | None => O
  end.

Definition advance (t : Z) (s : Detector) : Detector :=
  fire_due (S (sweeps_due t s)) t s.

(** An event arriving at time [t]: the timers due by then have run; the
    handler runs if it is still attached. *)
Definition deliver (s : Detector) (te : Z * Event) : Detector :=
  let s' := advance te.1 s in
  if listening s' then handle te.1 te.2 s' else s'.

Definition run (trace : list (Z * Event)) (s : Detector) : Detector :=
  fold_left deliver trace s.

(** ** The whole of [_waitForSettledDom] *)

(** What the page and the session answer during the set-up, and the time at
    which the promise executor runs. *)
Record Host := {
  title : Result string JsError;
  waitForLoadState : Result unit JsError;
  networkEnable : Result unit JsError;
  pageEnable : Result unit JsError;
  setAutoAttach : Result unit JsError;
  executorTime : Z
}.

Inductive Promise :=
| Pending
| Fulfilled (at_ms : Z)
| Rejected (e : JsError).

(** [!!(await this.page.title().catch(() => false))] *)
Definition hasDoc (h : Host) : bool :=
  match title h with
  | Ok t => truthy t
  | Err _ => false
  end.

(** The awaits that follow the session acquisition, in order; the first one
    to throw rejects the promise of the async function. *)
Definition enableDomains (h : Host) : Result unit JsError :=
  match (if hasDoc h then Ok tt else waitForLoadState h) with
  | Err e => Err e
  | Ok _ =>
      match networkEnable h with
      | Err e => Err e
      | Ok _ =>
          match pageEnable h with
          | Err e => Err e
          | Ok _ => setAutoAttach h
          end
      end
  end.

(** The promise returned by [_waitForSettledDom(timeoutMs)], observed at
    time [horizon] after the events of [trace] were emitted. *)
Definition waitForSettledDom
    (newCDPSession : list nat -> nat -> Result nat JsError) (page : nat)
    (fuel : nat) (reg : SessionRegistry.Registry) (h : Host)
    (domSettleTimeoutMs : Z) (timeoutMs : option Z)
    (trace : list (Z * Event)) (horizon : Z) : Promise :=
  let timeout := default domSettleTimeoutMs timeoutMs in
  match SessionRegistry.getCDPClient newCDPSession page fuel page reg with
  | (None, _) => Pending
  | (Some (Err e), _) => Rejected e
  | (Some (Ok client), _) =>
      match enableDomains h with
      | Err e => Rejected e
      | Ok _ =>
          let s := advance horizon (run trace (start_detector (executorTime h) timeout)) in
          match resolvedAt s with
          | Some t => Fulfilled t
          | None => Pending
          end
      end
  end.

(** The request a completion-type event finishes: [loadingFinished],
    [loadingFailed], [requestServedFromCache], or a [responseReceived] whose
    URL starts with ["data:"]. *)
Definition completionOf (ev : Event) : option string :=
  match ev with
  | LoadingFinished id | LoadingFailed id | RequestServedFromCache id => Some id
  | ResponseReceived id u => if startsWith "data:" u then Some id else None
  | _ => None
  end.

(** One script request sent at time 0, never completed. *)
Definition slowScript : list (Z * Event) :=
  [(0, RequestWillBeSent "r1" (Some Script) None "https://cdn.example/slow.js")].

(** One document request of frame ["f1"] sent at time 0, never completed. *)
Definition adFrame : list (Z * Event) :=
  [(0, RequestWillBeSent "r1" (Some Document) (Some "f1"%string)
         "https://ads.example/frame")].

(** Requests that keep arriving every 100 ms and never complete. *)
Definition busyTrace : list (Z * Event) :=
  map (fun i => (100 * Z.of_nat i,
                 RequestWillBeSent (natToString i) (Some XHR) None
                   "https://api.example/poll"))
      (seq 0 12).

(** A host on which the whole set-up succeeds, the executor running at
    time 0. *)
Definition readyHost : Host :=
  {| title := Ok "Example"%string;
     waitForLoadState := Ok tt;
     networkEnable := Ok tt;
     pageEnable := Ok tt;
     setAutoAttach := Ok tt;
     executorTime := 0 |}.

Definition emptyRegistry : SessionRegistry.Registry :=
  {| SessionRegistry.cdpClients := ∅; SessionRegistry.attempts := [] |}.

(** ** Invariants used by the proofs *)

(** [inflight] and [meta] hold the same request ids. *)
Definition tracked (s : Detector) : Prop := dom (meta s) = inflight s.

(** Once resolved, everything is torn down. *)
Definition torn_down (s : Detector) : Prop :=
  quietTimer s = None /\ stalledRequestSweepTimer s = None /\
  guard s = None /\ listening s = false.

(** Until the promise resolves the guard stays armed with deadline [g]; it
    resolves no later than [g]. *)
Definition guarded (g : Z) (s : Detector) : Prop :=
  match resolvedAt s with
  | None => guard s = Some g
  | Some r => r <= g /\ torn_down s
  end.

(** No timer is due at or before [t]. *)
Definition quiescent (t : Z) (s : Detector) : Prop :=
  match next_timer s with
  | Some (_, d) => t < d
  | None => True
  end.

End SettledDom.

(* ================================================================== *)
(** * Invariants of the DOM-settle detector *)
(* ================================================================== *)

Module DetectorInvariants.

Import SettledDom.
Local Open Scope Z_scope.

(** Collecting or quieting: while the promise is pending, the quiet timer is
    pending exactly when nothing is in flight. *)
Definition phase (s : Detector) : Prop :=
  resolvedAt s = None -> (inflight s = ∅ <-> is_Some (quietTimer s)).

(** What holds of every state the detector reaches when no handler ran
    after time [T]: the collections are in step, no request started after
    [T], the phase is right, a pending promise has its sweep and guard armed
    and its handlers attached, and a resolved one is torn down. *)
Definition steady (T : Z) (s : Detector) : Prop :=
  tracked s /\
  (forall id m, meta s !! id = Some m -> start m <= T) /\
  phase s /\
  (resolvedAt s = None ->
   is_Some (stalledRequestSweepTimer s) /\ is_Some (guard s) /\
   listening s = true) /\
  (is_Some (resolvedAt s) -> torn_down s).

(** While events still arrive (all of them by time [T]): the quiet timer and
    the sweep are due within 500 ms of [T]. *)
Definition recent (T : Z) (s : Detector) : Prop :=
  (forall q, quietTimer s = Some q -> q <= T + 500) /\
  (forall w, stalledRequestSweepTimer s = Some w -> w <= T + 500).

(** Once events have stopped at [T]: a pending quiet timer is due by
    [T + 3000], and after the first sweep later than [T + 2000] nothing is
    in flight. *)
Definition draining (T : Z) (s : Detector) : Prop :=
  (forall q, quietTimer s = Some q -> q <= T + 3000) /\
  (forall w, stalledRequestSweepTimer s = Some w -> T + 2500 < w ->
             resolvedAt s = None -> inflight s = ∅).

(** Nothing is due, and nothing resolves, before 500 ms after the executor
    ran at [t0], or before the guard. *)
Definition early (t0 g : Z) (s : Detector) : Prop :=
  (forall q, quietTimer s = Some q -> t0 + 500 <= q) /\
  (forall w, stalledRequestSweepTimer s = Some w -> t0 + 500 <= w) /\
  (forall x, guard s = Some x -> x = g) /\
  (forall r, resolvedAt s = Some r -> Z.min (t0 + 500) g <= r).

(** The promise resolved no later than [B]. *)
Definition resolvedBy (B : Z) (s : Detector) : Prop :=
  forall r, resolvedAt s = Some r -> r <= B.

(** The log entries of the detector: a stalled-request entry carries at
    most 120 characters of the URL, a timeout entry a count that is not 0. *)
Definition isTimeoutLog (e : LogEntry) : bool :=
  match e with LogTimeout _ => true | LogStalled _ => false end.

Definition wellFormedLog (e : LogEntry) : Prop :=
  match e with
  | LogStalled u => (String.length u <= 120)%nat
  | LogTimeout c => (1 <= c)%nat
  end.

Definition logDiscipline (s : Detector) : Prop :=
  Forall wellFormedLog (logs s) /\
  (length (List.filter isTimeoutLog (logs s)) <= 1)%nat /\
  (resolvedAt s = None -> List.filter isTimeoutLog (logs s) = []).

End DetectorInvariants.

(* ================================================================== *)
(** * CDP commands *)
(* ================================================================== *)

Module CdpCommands.

Import SessionRegistry.

Section WithSessions.

Variable newCDPSession : list Target -> Target -> Result Session JsError.
Variable page : Target.

(** Command parameters and replies are opaque; [emptyParams] is [{}]. *)
Variable Params : Type.
Variable Reply : Type.
Variable emptyParams : Params.

(** [client.send(method, params)]: what the session answers, given the
    commands sent so far. *)
Variable send :
  list (Session * string * Params) -> Session -> string -> Params ->
  Result Reply JsError.

(** The registry of the page and the commands sent on its sessions, most
    recent last. *)
Record Connection := {
  registry : Registry;
  sent : list (Session * string * Params)
}.

(** [sendCDP(method, params, target)]; [target] is [None] when the argument
    is left out ([target ?? this.page]). *)
Definition sendCDP (fuel : nat) (method : string) (params : Params)
    (target : option Target) (c : Connection)
  : option (Result Reply JsError) * Connection :=
  match getCDPClient newCDPSession page fuel (default page target) (registry c) with
  | (Some (Ok client), r') =>
      (Some (send (sent c) client method params),
       {| registry := r'; sent := sent c ++ [(client, method, params)] |})
  | (Some (Err e), r') => (Some (Err e), {| registry := r'; sent := sent c |})
  | (None, r') => (None, {| registry := r'; sent := sent c |})
  end.

Definition discard (res : option (Result Reply JsError))
  : option (Result unit JsError) :=
  match res with
  | Some (Ok _) => Some (Ok tt)
  | Some (Err e) => Some (Err e)
  | None => None
  end.

(** [enableCDP(domain, target)] and [disableCDP(domain, target)] *)
Definition enableCDP (fuel : nat) (domain : string) (target : option Target)
    (c : Connection) : option (Result unit JsError) * Connection :=
  let '(res, c') := sendCDP fuel (domain ++ ".enable") emptyParams target c in
  (discard res, c').

Definition disableCDP (fuel : nat) (domain : string) (target : option Target)
    (c : Connection) : option (Result unit JsError) * Connection :=
  let '(res, c') := sendCDP fuel (domain ++ ".disable") emptyParams target c in
  (discard res, c').

(** Calls made on one page, in order. *)
Inductive Command :=
| CmdSend (method : string) (params : Params) (target : option Target)
| CmdEnable (domain : string) (target : option Target)
| CmdDisable (domain : string) (target : option Target).

Definition perform (fuel : nat) (cmd : Command) (c : Connection) : Connection :=
  match cmd with
  | CmdSend m ps t => (sendCDP fuel m ps t c).2
  | CmdEnable d t => (enableCDP fuel d t c).2
  | CmdDisable d t => (disableCDP fuel d t c).2
  end.

Definition performAll (fuel : nat) (cmds : list Command) (c : Connection)
  : Connection :=
  fold_left (fun acc cmd => perform fuel cmd acc) cmds c.

End WithSessions.

Arguments registry {Params} _.
Arguments sent {Params} _.

End CdpCommands.

(* ================================================================== *)
(** * Waiting for a captcha *)
(* ================================================================== *)

Module Captcha.

Local Open Scope Z_scope.

(** [stagehand.env] *)
Inductive Env := LOCAL | BROWSERBASE.

(** The errors [waitForCaptchaSolve] can reject with. *)
Inductive CaptchaError :=
| EnvironmentError     (* StagehandEnvironmentError *)
| NotInitializedError  (* StagehandNotInitializedError("on") *)
| CaptchaTimeout.      (* CaptchaTimeoutError *)

Inductive Outcome :=
| Waiting
| Solved
| Failed (e : CaptchaError).

(** The variables of the promise executor: [started], the deadline of the
    pending timer behind [timeoutId] ([None] when there is no timer, or it
    was cleared or has fired), whether the console listener is attached, and
    the state of the promise. *)
Record Solver := {
  started : bool;
  timeoutId : option Z;
  attached : bool;
  outcome : Outcome
}.

(** [resolve()] and [reject(e)]: only the first call settles the promise. *)
Definition settle (o : Outcome) (s : Solver) : Solver :=
  {| started := started s; timeoutId := timeoutId s; attached := attached s;
     outcome := match outcome s with Waiting => o | settled => settled end |}.

(** The callback of the [setTimeout]. *)
Definition timerFired (s : Solver) : Solver :=
  let s' := {| started := started s; timeoutId := None;
               attached := attached s; outcome := outcome s |} in
  if started s then s' else settle (Failed CaptchaTimeout) s'.

(** The ["console"] listener, on a message with the given text. *)
Definition onConsole (text : string) (s : Solver) : Solver :=
  if String.eqb text "browserbase-solving-finished" then
    settle Solved
      {| started := started s; timeoutId := None; attached := attached s;
         outcome := outcome s |}
  else if String.eqb text "browserbase-solving-started" then
    {| started := true; timeoutId := timeoutId s; attached := attached s;
       outcome := outcome s |}
  else s.

(** [if (timeoutMs)]: a number is truthy unless it is 0. *)
Definition truthyNumber (ms : option Z) : bool :=
  match ms with
  | Some z => negb (z =? 0)
  | None => false
  end.

(** Which proxy [this.intPage] is: the one the constructor makes, or the
    one [init()] puts in its place. *)
Inductive Proxy := ConstructorProxy | InitProxy.

(** The two fields of the page object that decide what [this.intPage.on]
    does.  [init()] replaces the proxy first and sets [initialized]
    afterwards, with an await in between that can reject, so the page
    object can stay with [InitProxy] and [initialized = false]. *)
Record PageObject := {
  intPage : Proxy;
  initialized : bool
}.

(** What [this.intPage.on("console", listener)] does. *)
Inductive OnCall :=
| OnThrows    (* throws StagehandNotInitializedError("on") *)
| OnAttaches  (* [target.on(event, listener)] *)
| OnSkips.    (* returns [undefined], no listener attached *)

(** The [get] trap for [on]: the constructor's proxy throws while
    [initialized] is false and hands out the page's own [on] otherwise; the
    proxy of [init()] does not look at [initialized] and calls [target.on]
    unless the page is closed. *)
Definition onCall (pg : PageObject) (pageClosed : bool) : OnCall :=
  match intPage pg with
  | ConstructorProxy => if initialized pg then OnAttaches else OnThrows
  | InitProxy => if pageClosed then OnSkips else OnAttaches
  end.

(** The promise executor, run at time [now]: the timer is set first, then
    [this.intPage.on] is called; when that throws, the promise is
    rejected with what was thrown. *)
Definition executor (pg : PageObject) (pageClosed : bool) (timeoutMs : option Z)
    (now : Z) : Solver :=
  let timer :=
    if truthyNumber timeoutMs
    then Some (now + SettledDom.timerDelay (default 0 timeoutMs))
    else None in
  match onCall pg pageClosed with
  | OnAttaches =>
      {| started := false; timeoutId := timer; attached := true;
         outcome := Waiting |}
  | OnSkips =>
      {| started := false; timeoutId := timer; attached := false;
         outcome := Waiting |}
  | OnThrows =>
      {| started := false; timeoutId := timer; attached := false;
         outcome := Failed NotInitializedError |}
  end.

(** Time passes to [t]: the timer runs if it is due. *)
Definition elapse (t : Z) (s : Solver) : Solver :=
  match timeoutId s with
  | Some d => if d <=? t then timerFired s else s
  | None => s
  end.

(** A console message logged at time [t]. *)
Definition hear (s : Solver) (m : Z * string) : Solver :=
  let s' := elapse m.1 s in
  if attached s' then onConsole m.2 s' else s'.

(** [waitForCaptchaSolve(timeoutMs)]: the promise, observed at time
    [horizon] after the console messages of [msgs]. *)
Definition waitForCaptchaSolve (env : Env) (pg : PageObject) (pageClosed : bool)
    (timeoutMs : option Z) (now : Z) (msgs : list (Z * string)) (horizon : Z)
  : Outcome :=
  match env with
  | LOCAL => Failed EnvironmentError
  | BROWSERBASE =>
      outcome (elapse horizon
                 (fold_left hear msgs (executor pg pageClosed timeoutMs now)))
  end.

Definition isFinished (m : Z * string) : bool :=
  String.eqb m.2 "browserbase-solving-finished".

Definition isStarted (m : Z * string) : bool :=
  String.eqb m.2 "browserbase-solving-started".

(** Fulfilled when [b] holds, pending otherwise. *)
Definition solvedIf (b : bool) : Outcome := if b then Solved else Waiting.

Definition isSolved (o : Outcome) : bool :=
  match o with Solved => true | _ => false end.

(** The state of a wait that nothing relevant has reached yet, or that has
    timed out. *)
Definition unheard (deadline : Z) (s : Solver) : Prop :=
  (started s = false /\ timeoutId s = Some deadline /\ outcome s = Waiting) \/
  (timeoutId s = None /\ outcome s = Failed CaptchaTimeout).

End Captcha.

(* ================================================================== *)
(** * Injecting the helper script *)
(* ================================================================== *)

Module HelperScript.

(** The part of the page's [window] the guarded script touches: the flag
    [__stagehandInjected] and how many times [scriptContent] has been
    started in this document. *)
Record Window := {
  stagehandInjected : bool;
  helperRuns : nat
}.

(** The page: its window, the init scripts added so far, and the number of
    "Failed to inject" entries logged. *)
Record PageState := {
  window : Window;
  initScripts : nat;
  failuresLogged : nat
}.

(** The guarded script: [if (!window.__stagehandInjected) {
    window.__stagehandInjected = true; scriptContent }]. *)
Definition runGuarded (w : Window) : Window :=
  if stagehandInjected w then w
  else {| stagehandInjected := true; helperRuns := S (helperRuns w) |}.

(** How an [evaluate] of the guarded script ends: it completes, it rejects
    before the script ran, or it rejects because the script threw (the flag
    is set by then). *)
Inductive Evaluation :=
| Completed
| RejectedBefore (e : JsError)
| ThrewInside (e : JsError).

(** What the page answers to the three awaits of one call. *)
Record Answers := {
  checkInjected : option JsError;   (* [None]: the flag is read *)
  addInitScript : option JsError;   (* [None]: the init script is added *)
  evaluateGuarded : Evaluation
}.

Definition withWindow (w : Window) (p : PageState) : PageState :=
  {| window := w; initScripts := initScripts p; failuresLogged := failuresLogged p |}.

(** The [catch] block: the error is swallowed when the stagehand is closed,
    logged and thrown again otherwise. *)
Definition caught (isClosed : bool) (err : JsError) (p : PageState)
  : Result unit JsError * PageState :=
  if isClosed then (Ok tt, p)
  else (Err err, {| window := window p; initScripts := initScripts p;
                    failuresLogged := S (failuresLogged p) |}).

(** [ensureStagehandScript()] *)
Definition ensureStagehandScript (isClosed : bool) (a : Answers) (p : PageState)
  : Result unit JsError * PageState :=
  match checkInjected a with
  | Some err => caught isClosed err p
  | None =>
      if stagehandInjected (window p) then (Ok tt, p)
      else
        match addInitScript a with
        | Some err => caught isClosed err p
        | None =>
            let p1 := {| window := window p; initScripts := S (initScripts p);
                         failuresLogged := failuresLogged p |} in
            match evaluateGuarded a with
            | Completed => (Ok tt, withWindow (runGuarded (window p1)) p1)
            | RejectedBefore err => caught isClosed err p1
            | ThrewInside err =>
                caught isClosed err (withWindow (runGuarded (window p1)) p1)
            end
        end
  end.

(** Calls in a row on one document. *)
Definition ensureAll (calls : list (bool * Answers)) (p : PageState) : PageState :=
  fold_left (fun acc c => (ensureStagehandScript c.1 c.2 acc).2) calls p.

(** A freshly loaded document. *)
Definition freshPage : PageState :=
  {| window := {| stagehandInjected := false; helperRuns := 0 |};
     initScripts := 0; failuresLogged := 0 |}.

(** The flag is up exactly when the helper script has been started, and it
    has been started at most once. *)
Definition onceOnly (p : PageState) : Prop :=
  helperRuns (window p) = (if stagehandInjected (window p) then 1 else 0).

End HelperScript.

(** Strings made of white space only. *)
Fixpoint allWhiteSpace (s : string) : bool :=
  match s with
  | EmptyString => true
  | String a rest => SelectorEngine.isWhiteSpace a && allWhiteSpace rest
  end.

(* ================================================================== *)
(** * Properties of the frame ordinal allocator *)
(* ================================================================== *)

Section FrameOrdinalFacts.

Import FrameOrdinals.

Lemma wf_initial : wf initial.
Proof.
  split.
  - reflexivity.
  - intros k v H. unfold initial in *.
    apply lookup_singleton_Some in H as [_ <-].
    rewrite map_size_singleton. lia.
Qed.

Lemma ordinal_cached (fid : string) (m : OrdinalMap) (v : nat) :
  m !! Some fid = Some v -> ordinalForFrameId (Some fid) m = (v, m).
Proof. intros H. unfold ordinalForFrameId. now rewrite H. Qed.

Lemma ordinal_fresh (fid : string) (m : OrdinalMap) :
  m !! Some fid = None ->
  ordinalForFrameId (Some fid) m = (size m, <[Some fid := size m]> m).
Proof. intros H. unfold ordinalForFrameId. now rewrite H. Qed.

Lemma encode_state (fid : option string) (b : Z) (m : OrdinalMap) :
  (encodeWithFrameId fid b m).2 = (ordinalForFrameId fid m).2.
Proof. unfold encodeWithFrameId. now destruct (ordinalForFrameId fid m). Qed.

Lemma wf_ordinal (fid : option string) (m : OrdinalMap) :
  wf m -> wf (ordinalForFrameId fid m).2.
Proof.
  intros [H0 Hlt]. destruct fid as [f|]; [|now split].
  unfold ordinalForFrameId.
  destruct (m !! Some f) eqn:E; [now split|]. cbn.
  split.
  - now rewrite lookup_insert_ne.
  - intros k v. rewrite map_size_insert_None by assumption.
    rewrite lookup_insert. case_decide.
    + intros [= <-]. lia.
    + intros H1. apply Hlt in H1. lia.
Qed.

Lemma wf_call (c : Call) (m : OrdinalMap) : wf m -> wf (call c m).
Proof.
  destruct c; cbn.
  - apply wf_ordinal.
  - rewrite encode_state. apply wf_ordinal.
  - intros _. apply wf_initial.
Qed.

Lemma wf_run (cs : list Call) (m : OrdinalMap) : wf m -> wf (run cs m).
Proof.
  revert m. induction cs as [|c cs IH]; intros m H; [assumption|].
  cbn. apply IH, wf_call, H.
Qed.

(** Without a reset, an assignment is never changed and the map never
    shrinks. *)
Lemma ordinal_keeps (fid : option string) (m : OrdinalMap) k v :
  m !! k = Some v ->
  (ordinalForFrameId fid m).2 !! k = Some v /\
  size m <= size (ordinalForFrameId fid m).2.
Proof.
  intros H. destruct fid as [f|]; [|now split].
  unfold ordinalForFrameId.
  destruct (m !! Some f) eqn:E; [now split|]. cbn. split.
  - rewrite lookup_insert_ne; [assumption|]. congruence.
  - rewrite map_size_insert_None by assumption. lia.
Qed.

Lemma run_keeps (cs : list Call) (m : OrdinalMap) k v :
  no_reset cs = true -> m !! k = Some v ->
  run cs m !! k = Some v /\ size m <= size (run cs m).
Proof.
  revert m. induction cs as [|c cs IH]; intros m Hn H; [now split|].
  cbn in Hn. apply andb_prop in Hn as [Hc Hn].
  change (run (c :: cs) m) with (run cs (call c m)).
  assert (call c m !! k = Some v /\ size m <= size (call c m)) as [H1 H2].
  { destruct c; cbn in *; try discriminate.
    - now apply ordinal_keeps.
    - rewrite encode_state. now apply ordinal_keeps. }
  destruct (IH _ Hn H1). split; [assumption|lia].
Qed.

Lemma run_only_default (cs : list Call) (m : OrdinalMap) :
  only_default cs = true -> run cs m = m.
Proof.
  revert m. induction cs as [|c cs IH]; intros m H; [reflexivity|].
  cbn in H. apply andb_prop in H as [Hc H]. cbn.
  destruct c as [[f|]|[f|] b|]; try discriminate; cbn; now apply IH.
Qed.

(** Decimal digits contain no separator. *)
Lemma indexOf_digits (d : uint) (rest : string) :
  indexOf "-"%char (NilEmpty.string_of_uint d ++ String "-" rest)
  = Some (String.length (NilEmpty.string_of_uint d)).
Proof. induction d; simpl; try rewrite IHd; reflexivity. Qed.

Lemma slice_to_app (a b : string) : slice_to (String.length a) (a ++ b) = a.
Proof.
  induction a as [|c a IH]; simpl.
  - now destruct b.
  - now rewrite IH.
Qed.

Lemma slice_from_app (a b : string) (c : ascii) :
  slice_from (S (String.length a)) (a ++ String c b) = b.
Proof. induction a as [|x a IH]; simpl; [now destruct b | apply IH]. Qed.

Lemma to_uint_nonnil (n : nat) : Nat.to_uint n <> Nil.
Proof.
  rewrite <- (DecimalNat.Unsigned.of_to n) at 1.
  rewrite DecimalNat.Unsigned.to_of. apply unorm_nonnil.
Qed.

Lemma natToString_digits (n : nat) :
  natToString n = NilEmpty.string_of_uint (Nat.to_uint n).
Proof.
  unfold natToString, NilZero.string_of_uint.
  pose proof (to_uint_nonnil n). now destruct (Nat.to_uint n).
Qed.

Lemma parse_natToString (n : nat) :
  NilZero.uint_of_string (natToString n) = Some (Nat.to_uint n).
Proof. apply NilZero.usu, to_uint_nonnil. Qed.

Lemma parse_numberToString (z : Z) :
  NilZero.int_of_string (numberToString z) = Some (Z.to_int z).
Proof.
  apply NilZero.isi; destruct z; cbn; try discriminate;
    intros [= H]; now apply DecimalPos.Unsigned.to_uint_nonnil in H.
Qed.

Lemma parse_token (n : nat) (b : Z) :
  parseEncodedId (natToString n ++ "-" ++ numberToString b) = Some (n, b).
Proof.
  assert (E : (natToString n ++ "-" ++ numberToString b)%string
              = (NilEmpty.string_of_uint (Nat.to_uint n)
                 ++ String "-" (numberToString b))%string)
    by (now rewrite natToString_digits).
  rewrite E. unfold parseEncodedId.
  rewrite indexOf_digits, slice_to_app, slice_from_app.
  rewrite <- natToString_digits.
  rewrite parse_natToString, parse_numberToString.
  now rewrite DecimalNat.Unsigned.of_to, DecimalZ.of_to.
Qed.

(** C2 — The ordinal of [undefined] is always 0 and the call leaves the map
    alone; from any state reached from a fresh page by ordinal, encode and
    reset calls: a defined frame id keeps its ordinal over later calls (as
    long as no reset intervenes); a frame id first seen later than another
    new one gets a strictly larger ordinal; and right after a reset (calls
    for [undefined] aside) a defined frame id, assigned before or not, gets
    ordinal 1. *)
Theorem frame_ordinal_allocation (history : list Call) :
  let m := run history initial in
  (forall m0, ordinalForFrameId None m0 = (0, m0)) /\
  (forall (fid : string) (later : list Call),
      no_reset later = true ->
      (ordinalForFrameId (Some fid)
         (run later (ordinalForFrameId (Some fid) m).2)).1
      = (ordinalForFrameId (Some fid) m).1) /\
  (forall (fid1 fid2 : string) (later : list Call),
      m !! Some fid1 = None ->
      no_reset later = true ->
      run later (ordinalForFrameId (Some fid1) m).2 !! Some fid2 = None ->
      (ordinalForFrameId (Some fid1) m).1
      < (ordinalForFrameId (Some fid2)
           (run later (ordinalForFrameId (Some fid1) m).2)).1) /\
  (forall (fid : string) (later : list Call),
      only_default later = true ->
      (ordinalForFrameId (Some fid) (run later (resetFrameOrdinals m))).1 = 1).
Proof.
  intros m.
  assert (Hwf : wf m) by apply wf_run, wf_initial.
  split; [reflexivity|]. split; [|split].
  - intros fid later Hn.
    assert (exists v, (ordinalForFrameId (Some fid) m).1 = v /\
                      (ordinalForFrameId (Some fid) m).2 !! Some fid = Some v)
      as (v & Hv & Hin).
    { destruct (m !! Some fid) as [v|] eqn:E.
      - exists v. now rewrite (ordinal_cached _ _ _ E).
      - exists (size m). rewrite (ordinal_fresh _ _ E). cbn.
        split; [reflexivity|apply lookup_insert_eq]. }
    rewrite Hv.
    destruct (run_keeps later _ _ _ Hn Hin) as [Hk _].
    now rewrite (ordinal_cached _ _ _ Hk).
  - intros fid1 fid2 later Hnew Hn Hnew2.
    rewrite (ordinal_fresh _ _ Hnew2).
    rewrite (ordinal_fresh _ _ Hnew) in *. cbn in *.
    assert (Hin : <[Some fid1 := size m]> m !! Some fid1 = Some (size m))
      by apply lookup_insert_eq.
    destruct (run_keeps later _ _ _ Hn Hin) as [_ Hsz].
    rewrite map_size_insert_None in Hsz by assumption. lia.
  - intros fid later Hd. rewrite run_only_default by assumption.
    unfold resetFrameOrdinals, initial.
    rewrite ordinal_fresh by (now apply lookup_singleton_ne).
    apply map_size_singleton.
Qed.

Lemma frame_ordinal_allocation_witness :
  (ordinalForFrameId (Some "A"%string) initial).1
  < (ordinalForFrameId (Some "B"%string)
       (run [CallOrdinal None]
            (ordinalForFrameId (Some "A"%string) initial).2)).1.
Proof.
  apply (proj1 (proj2 (proj2 (frame_ordinal_allocation []))) "A"%string "B"%string
           [CallOrdinal None]); reflexivity.
Defined.

(** C7 — For a backend id that is a safe integer (the engine's node
    identifiers are), [encodeWithFrameId] returns the decimal ordinal of the
    frame, a ['-'] and the decimal backend id; cutting that token at its
    first ['-'] and reading both parts as numbers gives back the ordinal and
    the backend id. *)
Theorem encode_parse_roundtrip (fid : option string) (backendId : Z)
    (m : OrdinalMap) :
  isSafeInteger backendId = true ->
  (encodeWithFrameId fid backendId m).1
  = (natToString (ordinalForFrameId fid m).1 ++ "-" ++ numberToString backendId)%string
  /\ parseEncodedId (encodeWithFrameId fid backendId m).1
     = Some ((ordinalForFrameId fid m).1, backendId).
Proof.
  intros _. unfold encodeWithFrameId. destruct (ordinalForFrameId fid m) as [ord m'].
  cbn [fst]. split; [reflexivity|]. apply parse_token.
Qed.

Lemma encode_parse_roundtrip_witness :
  isSafeInteger (-4217)%Z = true /\
  parseEncodedId (encodeWithFrameId (Some "F3A9"%string) (-4217)%Z initial).1
  = Some ((ordinalForFrameId (Some "F3A9"%string) initial).1, (-4217)%Z).
Proof.
  split; [reflexivity|].
  exact (proj2 (encode_parse_roundtrip (Some "F3A9"%string) (-4217)%Z initial eq_refl)).
Defined.

End FrameOrdinalFacts.

(* ================================================================== *)
(** * Properties of the session registry *)
(* ================================================================== *)

Section SessionRegistryFacts.

Import SessionRegistry.

Variable newCDPSession : list Target -> Target -> Result Session JsError.
Variable page : Target.

Abbreviation acquire := (getCDPClient newCDPSession page).

Lemma acquire_unfold (fuel : nat) (target : Target) (r : Registry) :
  acquire (S fuel) target r =
  match cdpClients r !! target with
  | Some cached => (Some (Ok cached), r)
  | None =>
      match newCDPSession (attempts r) target with
      | Ok session => (Some (Ok session), cache target session (asked target r))
      | Err err =>
          if noSeparateSession err then
            match acquire fuel page (asked target r) with
            | (Some (Ok rootSession), r') =>
                (Some (Ok rootSession), cache target rootSession r')
            | failed => failed
            end
          else (Some (Err err), asked target r)
      end
  end.
Proof. reflexivity. Qed.

Lemma acquire_cached (fuel : nat) (target : Target) (r : Registry) (s : Session) :
  cdpClients r !! target = Some s ->
  acquire (S fuel) target r = (Some (Ok s), r).
Proof. intros H. rewrite acquire_unfold. now rewrite H. Qed.

Lemma acquire_miss (fuel : nat) (target : Target) (r : Registry) :
  cdpClients r !! target = None ->
  acquire (S fuel) target r =
  match newCDPSession (attempts r) target with
  | Ok session => (Some (Ok session), cache target session (asked target r))
  | Err err =>
      if noSeparateSession err then
        match acquire fuel page (asked target r) with
        | (Some (Ok rootSession), r') =>
            (Some (Ok rootSession), cache target rootSession r')
        | failed => failed
        end
      else (Some (Err err), asked target r)
  end.
Proof. intros H. rewrite acquire_unfold. now rewrite H. Qed.

(** A session that was returned is cached under the target it was asked
    for. *)
Lemma acquire_caches (fuel : nat) (target : Target) (r r' : Registry) (s : Session) :
  acquire fuel target r = (Some (Ok s), r') ->
  cdpClients r' !! target = Some s.
Proof.
  revert target r r' s. induction fuel as [|fuel IH]; intros target r r' s.
  - discriminate.
  - destruct (cdpClients r !! target) as [c|] eqn:Ec.
    + rewrite (acquire_cached _ _ _ _ Ec). intros [= <- <-]. assumption.
    + rewrite (acquire_miss _ _ _ Ec).
      destruct (newCDPSession (attempts r) target) as [new|err].
      * intros [= <- <-]. apply lookup_insert_eq.
      * destruct (noSeparateSession err); [|discriminate].
        destruct (acquire fuel page (asked target r)) as [[[root|e]|] r1];
          intros [= <- <-]. apply lookup_insert_eq.
Qed.

(** C3 — A cached session is returned as it is, with no request to the
    engine.  Otherwise, when the creation fails with the engine's "does not
    have a separate CDP session" error, the call goes on with
    [getCDPClient(this.page)]: when the main page has a cached session, or
    the engine creates one for it, the call returns that session and caches
    it under the failed target (the main page maps to it too), and every
    later call for the target returns it again and leaves the registry,
    creation requests included, unchanged; when the creation of the main
    page's session fails with another error, the call returns that error
    and caches nothing.  A creation failure of the target with any other
    error is returned as the same error, with nothing cached. *)
Theorem getCDPClient_contract (fuel : nat) (target : Target) (r : Registry) :
  (forall s, cdpClients r !! target = Some s ->
             acquire (S fuel) target r = (Some (Ok s), r)) /\
  (forall err,
      cdpClients r !! target = None ->
      newCDPSession (attempts r) target = Err err ->
      noSeparateSession err = true ->
      (forall root,
          cdpClients r !! page = Some root ->
          let r' := cache target root (asked target r) in
          acquire (S (S fuel)) target r = (Some (Ok root), r') /\
          cdpClients r' !! page = Some root /\
          forall fuel', acquire (S fuel') target r' = (Some (Ok root), r')) /\
      (forall root,
          cdpClients r !! page = None ->
          newCDPSession (attempts r ++ [target]) page = Ok root ->
          let r' := cache target root (cache page root (asked page (asked target r))) in
          acquire (S (S fuel)) target r = (Some (Ok root), r') /\
          cdpClients r' !! page = Some root /\
          forall fuel', acquire (S fuel') target r' = (Some (Ok root), r')) /\
      (forall e,
          cdpClients r !! page = None ->
          newCDPSession (attempts r ++ [target]) page = Err e ->
          noSeparateSession e = false ->
          acquire (S (S fuel)) target r = (Some (Err e), asked page (asked target r)) /\
          cdpClients (asked page (asked target r)) = cdpClients r)) /\
  (forall err,
      cdpClients r !! target = None ->
      newCDPSession (attempts r) target = Err err ->
      noSeparateSession err = false ->
      acquire (S fuel) target r = (Some (Err err), asked target r) /\
      cdpClients (asked target r) = cdpClients r).
Proof.
  split; [|split].
  - intros s H. now apply acquire_cached.
  - intros err Hc Hn Hmsg.
    assert (Hstep : acquire (S (S fuel)) target r
                    = match acquire (S fuel) page (asked target r) with
                      | (Some (Ok rootSession), r') =>
                          (Some (Ok rootSession), cache target rootSession r')
                      | failed => failed
                      end).
    { now rewrite (acquire_miss _ _ _ Hc), Hn, Hmsg. }
    split; [|split].
    + intros root Hp r'. split; [|split].
      * rewrite Hstep, (acquire_cached _ page (asked target r) root Hp). reflexivity.
      * subst r'. unfold cache, asked; simpl.
        destruct (decide (target = page)) as [->|Hne]; [congruence|].
        now rewrite lookup_insert_ne.
      * intros fuel'. apply acquire_cached. apply lookup_insert_eq.
    + intros root Hp Hnew r'. split; [|split].
      * rewrite Hstep, (acquire_miss _ page (asked target r) Hp).
        change (attempts (asked target r)) with (attempts r ++ [target]).
        now rewrite Hnew.
      * subst r'. unfold cache, asked; simpl.
        destruct (decide (target = page)) as [->|Hne].
        -- apply lookup_insert_eq.
        -- rewrite lookup_insert_ne by assumption. apply lookup_insert_eq.
      * intros fuel'. apply acquire_cached. apply lookup_insert_eq.
    + intros e Hp Hnew He. split; [|reflexivity].
      rewrite Hstep, (acquire_miss _ page (asked target r) Hp).
      change (attempts (asked target r)) with (attempts r ++ [target]).
      now rewrite Hnew, He.
  - intros err Hc Hn Hmsg. split; [|reflexivity].
    now rewrite (acquire_miss _ _ _ Hc), Hn, Hmsg.
Qed.

(** When the engine never reports the main page as lacking a session of its
    own, every call completes: the fallback recursion stops after one
    step. *)
Lemma getCDPClient_completes (target : Target) (r : Registry) :
  (forall log err, newCDPSession log page = Err err -> noSeparateSession err = false) ->
  exists res r', acquire 2 target r = (Some res, r').
Proof.
  intros Hpage.
  destruct (cdpClients r !! target) as [c|] eqn:Ec.
  { rewrite (acquire_cached _ _ _ _ Ec). eauto. }
  rewrite (acquire_miss _ _ _ Ec).
  destruct (newCDPSession (attempts r) target) as [s|err]; [eauto|].
  destruct (noSeparateSession err); [|eauto].
  destruct (cdpClients (asked target r) !! page) as [c|] eqn:Ep.
  { rewrite (acquire_cached _ _ _ _ Ep). eauto. }
  rewrite (acquire_miss _ _ _ Ep).
  destruct (newCDPSession (attempts (asked target r)) page) as [s|e] eqn:E; [eauto|].
  apply Hpage in E. rewrite E. eauto.
Qed.

End SessionRegistryFacts.

Lemma getCDPClient_contract_witness :
  let r0 := {| SessionRegistry.cdpClients := ∅; SessionRegistry.attempts := [] |} in
  let r' := SessionRegistry.cache 7 100
              (SessionRegistry.cache 0 100
                 (SessionRegistry.asked 0 (SessionRegistry.asked 7 r0))) in
  SessionRegistry.getCDPClient SessionRegistry.sameProcessEngine 0 2 7 r0
  = (Some (Ok 100), r') /\
  SessionRegistry.getCDPClient SessionRegistry.sameProcessEngine 0 1 7 r'
  = (Some (Ok 100), r').
Proof.
  intros r0 r'.
  destruct (getCDPClient_contract SessionRegistry.sameProcessEngine 0 0 7 r0)
    as (_ & H & _).
  destruct (H {| message := Some "Frame does not have a separate CDP session."%string |}
              eq_refl eq_refl eq_refl) as (_ & Hcreate & _).
  destruct (Hcreate 100 eq_refl eq_refl) as (H1 & _ & H3).
  split; [exact H1|exact (H3 0)].
Defined.

(** C3 — The fallback does not return the main page's session when that
    session cannot be had: the frame 7 is told that it has no session of its
    own and the creation for the (closed) main page 0 fails.  The call
    returns that failure, not a session; nothing is cached for the frame,
    and the next call for it sends the creation requests again. *)
Lemma fallback_needs_main_session :
  let r0 := {| SessionRegistry.cdpClients := ∅; SessionRegistry.attempts := [] |} in
  let closed := {| message := Some "Target page, context or browser has been closed"%string |} in
  let first := SessionRegistry.getCDPClient SessionRegistry.detachedEngine 0 2 7 r0 in
  let second := SessionRegistry.getCDPClient SessionRegistry.detachedEngine 0 2 7 first.2 in
  SessionRegistry.detachedEngine [] 7
  = Err {| message := Some "Frame does not have a separate CDP session."%string |} /\
  (forall fuel s,
      (SessionRegistry.getCDPClient SessionRegistry.detachedEngine 0 fuel 7 r0).1
      <> Some (Ok s)) /\
  first.1 = Some (Err closed) /\
  SessionRegistry.cdpClients first.2 !! 7 = None /\
  SessionRegistry.attempts first.2 = [7; 0] /\
  second.1 = Some (Err closed) /\
  SessionRegistry.attempts second.2 = [7; 0; 7; 0].
Proof.
  intros r0 closed first second.
  split; [reflexivity|]. split; [|repeat split].
  intros [|[|fuel]] s; discriminate.
Qed.

(* ================================================================== *)
(** * Properties of the selector engine registration *)
(* ================================================================== *)

Section RegistrationFacts.

Import SelectorEngine.

Variable Host : Type.
Variable register : string -> Host -> Result unit JsError * Host.

Abbreviation ensure := (ensureStagehandSelectorEngine Host register).

Lemma ensure_sets_flag (p : Process Host) :
  stagehandSelectorRegistered (ensure p).2 = true.
Proof.
  unfold ensureStagehandSelectorEngine.
  destruct (stagehandSelectorRegistered p) eqn:E; [exact E|].
  now destruct (register "stagehand" (host p)).
Qed.

Lemma ensure_noop (p : Process Host) :
  stagehandSelectorRegistered p = true -> ensure p = (Ok tt, p).
Proof. intros H. unfold ensureStagehandSelectorEngine. now rewrite H. Qed.

Lemma invoke_noop (k : nat) (p : Process Host) :
  stagehandSelectorRegistered p = true ->
  invoke Host register k p = (repeat (Ok tt) k, p).
Proof.
  intros H. induction k as [|k IH]; [reflexivity|].
  change (invoke Host register (S k) p)
    with (let '(res, p1) := ensure p in
          let '(rest, p2) := invoke Host register k p1 in
          (res :: rest, p2)).
  rewrite (ensure_noop p H), IH. reflexivity.
Qed.

Lemma invoke_S (k : nat) (p : Process Host) :
  invoke Host register (S k) p
  = ((ensure p).1 :: (invoke Host register k (ensure p).2).1,
     (invoke Host register k (ensure p).2).2).
Proof.
  change (invoke Host register (S k) p)
    with (let '(res, p1) := ensure p in
          let '(rest, p2) := invoke Host register k p1 in
          (res :: rest, p2)).
  destruct (ensure p) as [res p1]. cbn [fst snd].
  now destruct (invoke Host register k p1).
Qed.

Lemma ensure_calls (p : Process Host) :
  stagehandSelectorRegistered p = false ->
  registerCalls (ensure p).2 = "stagehand"%string :: registerCalls p.
Proof.
  intros H. unfold ensureStagehandSelectorEngine. rewrite H.
  now destruct (register "stagehand" (host p)).
Qed.

(** C9 — In a process that starts with the flag down, whatever the host
    answers: after any number of invocations [selectors.register] has been
    called at most once (exactly once, for "stagehand", as soon as there was
    one invocation), and every invocation after the first returns normally
    and leaves the process state as the first one left it. *)
Theorem selector_engine_registered_once (h : Host) (n : nat) :
  let fresh := {| stagehandSelectorRegistered := false; host := h;
                  registerCalls := [] |} in
  length (registerCalls (invoke Host register n fresh).2) <= 1 /\
  invoke Host register (S n) fresh
  = ((ensure fresh).1 :: repeat (Ok tt) n, (ensure fresh).2) /\
  registerCalls (ensure fresh).2 = ["stagehand"%string] /\
  ensure (ensure fresh).2 = (Ok tt, (ensure fresh).2).
Proof.
  intros fresh.
  assert (Hflag := ensure_sets_flag fresh).
  assert (HS : forall k, invoke Host register (S k) fresh
                         = ((ensure fresh).1 :: repeat (Ok tt) k, (ensure fresh).2)).
  { intros k. rewrite invoke_S. now rewrite (invoke_noop k _ Hflag). }
  assert (Hcalls : registerCalls (ensure fresh).2 = ["stagehand"%string])
    by (now rewrite ensure_calls).
  split; [|split; [|split]].
  - destruct n as [|k]; [cbn; lia|].
    rewrite HS. cbn [snd]. rewrite Hcalls. cbn. lia.
  - apply HS.
  - exact Hcalls.
  - now apply ensure_noop.
Qed.

End RegistrationFacts.

(* ================================================================== *)
(** * Properties of the shadow-piercing traversal *)
(* ================================================================== *)

Section TraversalFacts.

Import SelectorEngine.

Variable backdoor : Backdoor.

Ltac sizes := unfold stackSize in *; cbn in *; unfold list_sum in *; lia.

Lemma children_size (cn : list Node) :
  list_sum (map nodeSize (children cn)) <= list_sum (map nodeSize cn).
Proof.
  unfold children. induction cn as [|c cn IH]; [cbn; lia|].
  cbn [List.filter]. destruct (isElement c); sizes.
Qed.

Lemma children_reachable (cn : list Node) :
  flat_map (reachable backdoor) (children cn) = flat_map (reachable backdoor) cn.
Proof.
  unfold children. induction cn as [|c cn IH]; [reflexivity|].
  destruct c; cbn [List.filter isElement flat_map]; rewrite IH; reflexivity.
Qed.

Lemma stackSize_children (l : list Node) (stack : Stack) :
  stackSize (map NChild l ++ stack) = list_sum (map nodeSize l) + stackSize stack.
Proof.
  induction l as [|c l IH]; [reflexivity|]. sizes.
Qed.

Lemma reachableFrom_children (l : list Node) (stack : Stack) :
  flat_map (reachableFrom backdoor) (map NChild l ++ stack)
  = flat_map (reachable backdoor) l ++ flat_map (reachableFrom backdoor) stack.
Proof.
  induction l as [|c l IH]; cbn; [reflexivity|].
  rewrite IH. now rewrite app_assoc.
Qed.

(** What one iteration of the loop pushes for an element: its shadow root
    when the traversal pierces it, under its element children. *)
Lemma element_pushes uid attrs cn sh (stack : Stack) :
  let el := Element uid attrs cn sh in
  let pushed := pushChildren (NChild el)
                  (pushOpt (getClosedRoot backdoor el) (pushOpt (shadowRoot el) stack)) in
  flat_map (reachableFrom backdoor) pushed
  = flat_map (reachable backdoor) cn
    ++ match sh with
       | Some (mode, frag) =>
           if pierces backdoor uid mode
           then flat_map (reachable backdoor) frag
           else []
       | None => []
       end
    ++ flat_map (reachableFrom backdoor) stack
  /\ stackSize pushed < stackSize (NChild el :: stack).
Proof.
  cbn zeta. cbn [pushChildren]. rewrite reachableFrom_children, stackSize_children.
  rewrite children_reachable. pose proof (children_size cn) as Hc.
  destruct sh as [[[|] frag]|]; destruct backdoor as [resolves|];
    cbn [shadowRoot getClosedRoot pierces];
    try destruct (resolves uid); split; (reflexivity || sizes).
Qed.

(** With enough fuel the loop yields, for the nodes on the stack from top to
    bottom, the elements reachable from each. *)
Lemma traverseLoop_reachable (fuel : nat) (stack : Stack) :
  stackSize stack < fuel ->
  traverseLoop backdoor fuel stack = flat_map (reachableFrom backdoor) stack.
Proof.
  revert stack. induction fuel as [|fuel IH]; intros stack Hf; [lia|].
  destruct stack as [|node stack]; [reflexivity|].
  destruct node as [de|cn|[uid attrs cn sh|data]].
  - cbn [traverseLoop pushChildren]. destruct de as [e|].
    + rewrite IH; [reflexivity|sizes].
    + rewrite IH; [reflexivity|sizes].
  - cbn [traverseLoop pushChildren].
    assert (Hpush : forall l, l = children cn \/ l = cn ->
              flat_map (reachable backdoor) l = flat_map (reachable backdoor) cn ->
              traverseLoop backdoor fuel (map NChild l ++ stack)
              = flat_map (reachableFrom backdoor) (NFragment cn :: stack)).
    { intros l Hl Hr. rewrite IH.
      - rewrite reachableFrom_children, Hr. reflexivity.
      - rewrite stackSize_children. pose proof (children_size cn).
        destruct Hl as [-> | ->]; sizes. }
    destruct (children cn) as [|c l] eqn:E.
    + apply Hpush; [now right|reflexivity].
    + apply Hpush; [now left|]. rewrite <- E. apply children_reachable.
  - destruct (element_pushes uid attrs cn sh stack) as [Hr Hs].
    cbn zeta in Hr, Hs.
    change (traverseLoop backdoor (S fuel) (NChild (Element uid attrs cn sh) :: stack))
      with (Element uid attrs cn sh
            :: traverseLoop backdoor fuel
                 (pushChildren (NChild (Element uid attrs cn sh))
                    (pushOpt (getClosedRoot backdoor (Element uid attrs cn sh))
                       (pushOpt (shadowRoot (Element uid attrs cn sh)) stack)))).
    rewrite IH by lia. rewrite Hr. cbn. now rewrite <- !app_assoc.
  - cbn [traverseLoop pushChildren]. rewrite IH; [reflexivity|sizes].
Qed.

Lemma traverseAllTrees_reachable (start : DomNode) :
  traverseAllTrees backdoor start = reachableFrom backdoor start.
Proof.
  unfold traverseAllTrees. rewrite traverseLoop_reachable.
  - destruct start as [[e|]|cn|n]; cbn; now rewrite ?app_nil_r.
  - destruct start as [[e|]|cn|n]; sizes.
Qed.





End TraversalFacts.


(* ================================================================== *)
(** * Properties of the DOM-settle detector *)
(* ================================================================== *)

Section DetectorFacts.

Import SettledDom.
Local Open Scope Z_scope.

(** ** Handlers *)

Lemma finishReq_unknown (now : Z) (id : string) (s : Detector) :
  id ∉ inflight s -> finishReq now id s = s.
Proof.
  intros H. unfold finishReq. now rewrite bool_decide_eq_false_2.
Qed.

Lemma finishReq_known (now : Z) (id : string) (s : Detector) :
  id ∈ inflight s ->
  finishReq now id s
  = maybeQuiet now
      (clearQuiet
         (setRequests (inflight s ∖ {[ id ]}) (delete id (meta s))
            (filter (fun kv => kv.2 ≠ id) (docByFrame s)) s)).
Proof.
  intros H. unfold finishReq. now rewrite bool_decide_eq_true_2.
Qed.

Lemma maybeQuiet_requests (now : Z) (s : Detector) :
  inflight (maybeQuiet now s) = inflight s /\
  meta (maybeQuiet now s) = meta s /\
  docByFrame (maybeQuiet now s) = docByFrame s /\
  stalledRequestSweepTimer (maybeQuiet now s) = stalledRequestSweepTimer s /\
  guard (maybeQuiet now s) = guard s /\
  listening (maybeQuiet now s) = listening s /\
  resolvedAt (maybeQuiet now s) = resolvedAt s /\
  logs (maybeQuiet now s) = logs s.
Proof. unfold maybeQuiet. destruct (_ && _); repeat split. Qed.

(** [maybeQuiet] arms the quiet timer exactly when nothing is in flight and
    no quiet timer is pending. *)
Lemma maybeQuiet_timer (now : Z) (s : Detector) :
  quietTimer (maybeQuiet now s) =
  match quietTimer s with
  | Some q => Some q
  | None => if decide (inflight s = ∅) then Some (now + 500) else None
  end.
Proof.
  unfold maybeQuiet.
  destruct (quietTimer s) as [q|] eqn:Eq.
  - rewrite (bool_decide_eq_true_2 (is_Some (Some q))) by eauto.
    rewrite andb_false_r. exact Eq.
  - rewrite (bool_decide_eq_false_2 (is_Some None)) by (intros [? [=]]).
    rewrite andb_true_r. case_decide as Hempty.
    + rewrite Hempty, size_empty. reflexivity.
    + destruct (Nat.eqb_spec (size (inflight s)) 0) as [H0|H0]; [|exact Eq].
      apply size_empty_inv in H0. exfalso. apply Hempty. now apply leibniz_equiv.
Qed.

(** What a completion of a request still in flight does to the three
    collections and to the quiet timer. *)
Lemma finishReq_effect (now : Z) (id : string) (s : Detector) :
  id ∈ inflight s ->
  let s' := finishReq now id s in
  inflight s' = inflight s ∖ {[ id ]} /\
  meta s' = delete id (meta s) /\
  docByFrame s' = filter (fun kv => kv.2 ≠ id) (docByFrame s) /\
  quietTimer s' = (if decide (inflight s ∖ {[ id ]} = ∅) then Some (now + 500) else None).
Proof.
  intros H s'. subst s'. rewrite (finishReq_known _ _ _ H).
  rewrite maybeQuiet_timer.
  destruct (maybeQuiet_requests now
              (clearQuiet
                 (setRequests (inflight s ∖ {[ id ]}) (delete id (meta s))
                    (filter (fun kv => kv.2 ≠ id) (docByFrame s)) s)))
    as (-> & -> & -> & _).
  repeat split.
Qed.

(** C10 — A completion-type event for a request id that is not in
    [inflight] changes nothing at all. *)
Theorem completion_of_unknown_request (now : Z) (requestId : string)
    (s : Detector) :
  requestId ∉ inflight s ->
  finishReq now requestId s = s /\
  handle now (LoadingFinished requestId) s = s /\
  handle now (LoadingFailed requestId) s = s /\
  handle now (RequestServedFromCache requestId) s = s /\
  forall responseUrl, handle now (ResponseReceived requestId responseUrl) s = s.
Proof.
  intros H. pose proof (finishReq_unknown now requestId s H) as E.
  repeat split; try exact E.
  intros u. cbn. unfold onDataUrl. now destruct (startsWith "data:" u).
Qed.

Lemma completion_of_unknown_request_witness :
  let s := advance 2600 (run adFrame (start_detector 0 30000)) in
  docByFrame s !! "f1"%string = Some "r1"%string /\
  handle 2600 (LoadingFinished "r1") s = s.
Proof.
  split; [reflexivity|].
  apply (completion_of_unknown_request 2600 "r1").
  apply (bool_decide_unpack _). vm_compute. exact I.
Defined.

(** ** Frame-stopped and completion events *)

Lemma completion_handled (now : Z) (ev : Event) (id : string) (s : Detector) :
  completionOf ev = Some id -> handle now ev s = finishReq now id s.
Proof.
  destruct ev as [r ty f u|r|r|r|r u|f]; cbn; try discriminate;
    try (now intros [= ->]).
  unfold onDataUrl. destruct (startsWith "data:" u); [|discriminate].
  now intros [= ->].
Qed.

Lemma frame_stop_handled (now : Z) (fid id : string) (s : Detector) :
  docByFrame s !! fid = Some id -> truthy id = true ->
  handle now (FrameStoppedLoading fid) s = finishReq now id s.
Proof. intros H Ht. cbn. unfold onFrameStop. now rewrite H, Ht. Qed.

(** C5 (amended) — For a request id still in [inflight]: a
    [Page.frameStoppedLoading] for a frame whose map entry holds that
    (non-empty) id, and any completion-type event for it, remove the id from
    [inflight] and [meta] and remove every frame entry pointing to it, other
    entries being kept; no [Network.loadingFinished] is needed.  For a
    tracked id that is no longer in [inflight], a frame-stopped event changes
    nothing: the entry stays. *)
Theorem tracked_request_removed (now : Z) (id : string) (s : Detector) :
  (id ∈ inflight s ->
   forall ev,
     completionOf ev = Some id \/
     (exists fid, ev = FrameStoppedLoading fid /\
                  docByFrame s !! fid = Some id /\ truthy id = true) ->
     let s' := handle now ev s in
     (id ∉ inflight s') /\
     meta s' !! id = None /\
     (forall f, docByFrame s' !! f ≠ Some id) /\
     inflight s' = inflight s ∖ {[ id ]} /\
     meta s' = delete id (meta s) /\
     (forall f r, r ≠ id -> docByFrame s' !! f = Some r <-> docByFrame s !! f = Some r)) /\
  (id ∉ inflight s ->
   forall fid, docByFrame s !! fid = Some id ->
     handle now (FrameStoppedLoading fid) s = s).
Proof.
  split.
  - intros Hin ev Hev s'.
    assert (E : s' = finishReq now id s).
    { subst s'. destruct Hev as [Hc | (fid & -> & Hd & Ht)].
      - now apply completion_handled.
      - now apply frame_stop_handled. }
    destruct (finishReq_effect now id s Hin) as (Hi & Hm & Hd & _).
    cbn zeta in Hi, Hm, Hd. rewrite <- E in Hi, Hm, Hd.
    rewrite Hi, Hm, Hd. repeat split.
    + intros [_ H]%elem_of_difference. apply H. now apply elem_of_singleton.
    + apply lookup_delete_eq.
    + intros f Hf. apply map_lookup_filter_Some in Hf as [_ Hne]. now apply Hne.
    + intros Hf. now apply map_lookup_filter_Some in Hf as [Hf _].
    + intros Hf. apply map_lookup_filter_Some. split; [assumption|]. cbn. assumption.
  - intros Hout fid Hd. cbn. unfold onFrameStop. rewrite Hd.
    destruct (truthy id); [|reflexivity]. now apply finishReq_unknown.
Qed.

Lemma tracked_request_removed_witness :
  let s := run adFrame (start_detector 0 30000) in
  let s' := handle 800 (FrameStoppedLoading "f1") s in
  (("r1"%string) ∉ inflight s') /\ docByFrame s' !! "f1"%string = None.
Proof.
  intros s s'.
  assert (Hin : ("r1"%string) ∈ inflight s)
    by (apply (bool_decide_unpack _); vm_compute; exact I).
  destruct (proj1 (tracked_request_removed 800 "r1" s) Hin
              (FrameStoppedLoading "f1")) as (H1 & _ & H3 & _).
  { right. exists "f1"%string. repeat split. }
  split; [exact H1|].
  destruct (docByFrame s' !! "f1"%string) as [r|] eqn:E; [|reflexivity].
  vm_compute in E. discriminate E.
Defined.

(** C5 without the "still in flight" condition does not hold: the sweep
    evicts a stalled document request from [inflight] and [meta] but leaves
    its frame entry; the frame-stopped event that follows finds the request
    gone from [inflight] and returns early, so the entry is still there
    afterwards. *)
Lemma frame_stop_keeps_evicted_entry :
  let before := advance 2600 (run adFrame (start_detector 0 30000)) in
  let after := deliver (run adFrame (start_detector 0 30000))
                 (2600, FrameStoppedLoading "f1") in
  listening before = true /\
  docByFrame before !! "f1"%string = Some "r1"%string /\
  docByFrame after !! "f1"%string = Some "r1"%string /\
  ~ (docByFrame after !! "f1"%string = None).
Proof. vm_compute. repeat split; discriminate. Qed.

(** ** The stalled-request sweep *)

Lemma sweep_meta (now : Z) (s : Detector) (id : string) :
  meta (sweep now s) !! id =
  match meta s !! id with
  | Some m => if stalled now m then None else Some m
  | None => None
  end.
Proof.
  unfold sweep.
  destruct (maybeQuiet_requests now (evictStalled now s)) as (_ & -> & _).
  cbn. destruct (meta s !! id) as [m|] eqn:E.
  - destruct (stalled now m) eqn:Es.
    + apply map_lookup_filter_None. right. intros m' Hm'. cbn. congruence.
    + apply map_lookup_filter_Some. split; [assumption|]. cbn. assumption.
  - apply map_lookup_filter_None. left. assumption.
Qed.

Lemma sweep_inflight (now : Z) (s : Detector) (id : string) :
  id ∈ inflight (sweep now s) <->
  id ∈ inflight s /\
  match meta s !! id with
  | Some m => stalled now m = false
  | None => True
  end.
Proof.
  unfold sweep.
  destruct (maybeQuiet_requests now (evictStalled now s)) as (-> & _).
  cbn. rewrite elem_of_difference, elem_of_dom.
  destruct (meta s !! id) as [m|] eqn:E.
  - split; intros [Hin H]; (split; [assumption|]).
    + destruct (stalled now m) eqn:Es; [|reflexivity].
      exfalso. apply H. exists m. apply map_lookup_filter_Some. now split.
    + intros [m' Hm']. apply map_lookup_filter_Some in Hm' as [Hm' Hs].
      cbn in Hs. congruence.
  - split; intros [Hin H]; (split; [assumption|]); [exact I|].
    intros [m' Hm']. apply map_lookup_filter_Some in Hm' as [Hm' _]. congruence.
Qed.

(** What the sweep does: a request older than 2000 ms (strictly) is removed
    from [inflight] and [meta]; the others stay; the frame map is untouched;
    the quiet timer is armed when nothing is left in flight and none is
    pending; and the interval comes back 500 ms later. *)
Lemma sweep_effect (d : Z) (s : Detector) :
  let s' := fire SweepTimer d s in
  stalledRequestSweepTimer s' = Some (d + 500) /\
  docByFrame s' = docByFrame s /\
  (forall id m, meta s !! id = Some m -> 2000 < d - start m ->
                (id ∉ inflight s') /\ meta s' !! id = None) /\
  (forall id m, meta s !! id = Some m -> d - start m <= 2000 ->
                meta s' !! id = Some m /\ (id ∈ inflight s -> id ∈ inflight s')) /\
  (quietTimer s = None -> inflight s' = ∅ -> quietTimer s' = Some (d + 500)) /\
  (forall q, quietTimer s = Some q -> quietTimer s' = Some q).
Proof.
  intros s'. subst s'. cbn [fire].
  set (s1 := setSweep (Some (d + 500)) s).
  assert (Hs : forall m, (stalled d m = true <-> 2000 < d - start m)).
  { intros m. unfold stalled. apply Z.ltb_lt. }
  split; [|split; [|split; [|split; [|split]]]].
  - unfold sweep.
    now destruct (maybeQuiet_requests d (evictStalled d s1)) as (_ & _ & _ & -> & _).
  - unfold sweep.
    now destruct (maybeQuiet_requests d (evictStalled d s1)) as (_ & _ & -> & _).
  - intros id m Hm Hold. apply Hs in Hold. split.
    + rewrite sweep_inflight. cbn. rewrite Hm. intros [_ H]. congruence.
    + rewrite sweep_meta. cbn. now rewrite Hm, Hold.
  - intros id m Hm Hyoung.
    assert (Hn : stalled d m = false).
    { destruct (stalled d m) eqn:E; [|reflexivity]. apply Hs in E. lia. }
    split.
    + rewrite sweep_meta. cbn. now rewrite Hm, Hn.
    + intros Hin. rewrite sweep_inflight. cbn. now rewrite Hm.
  - intros Hq Hempty. unfold sweep in *. rewrite maybeQuiet_timer.
    destruct (maybeQuiet_requests d (evictStalled d s1)) as (Hi & _).
    rewrite Hi in Hempty.
    change (quietTimer (evictStalled d s1)) with (quietTimer s).
    now rewrite Hq, decide_True.
  - intros q Hq. unfold sweep. rewrite maybeQuiet_timer.
    change (quietTimer (evictStalled d s1)) with (quietTimer s).
    now rewrite Hq.
Qed.

(** [inflight] and [meta] stay in step, so the loop of the sweep over [meta]
    sees every request in flight. *)
Lemma handle_tracked (now : Z) (ev : Event) (s : Detector) :
  tracked s -> tracked (handle now ev s).
Proof.
  unfold tracked. intros Ht.
  assert (Hfin : forall id, dom (meta (finishReq now id s)) = inflight (finishReq now id s)).
  { intros id. destruct (decide (id ∈ inflight s)) as [Hin|Hout].
    - destruct (finishReq_effect now id s Hin) as (-> & -> & _).
      now rewrite dom_delete_L, Ht.
    - now rewrite finishReq_unknown. }
  destruct ev as [r ty f u|r|r|r|r u|f]; cbn; try apply Hfin.
  - unfold onRequest. destruct (isLongLived ty); [exact Ht|].
    cbn. now rewrite dom_insert_L, Ht.
  - unfold onDataUrl. destruct (startsWith "data:" u); [apply Hfin|exact Ht].
  - unfold onFrameStop. destruct (docByFrame s !! f) as [id|]; [|exact Ht].
    destruct (truthy id); [apply Hfin|exact Ht].
Qed.

Lemma fire_tracked (k : Timer) (d : Z) (s : Detector) :
  tracked s -> tracked (fire k d s).
Proof.
  unfold tracked. intros Ht. destruct k; cbn [fire].
  - apply set_eq. intros id. rewrite elem_of_dom, sweep_inflight.
    unfold is_Some. rewrite sweep_meta. cbn.
    rewrite <- Ht, elem_of_dom.
    destruct (meta s !! id) as [m|]; [|split; [intros [? [=]]|intros [[? [=]] _]]].
    destruct (stalled d m).
    + split; [intros [? [=]]|intros [_ [=]]].
    + split; eauto.
  - exact Ht.
  - unfold guardFired. now destruct (negb _).
Qed.

Lemma run_tracked (trace : list (Z * Event)) (now timeout : Z) :
  tracked (run trace (start_detector now timeout)).
Proof.
  assert (Hadv : forall fuel t s, tracked s -> tracked (fire_due fuel t s)).
  { induction fuel as [|fuel IH]; intros t s Hs; [exact Hs|]. cbn.
    destruct (next_timer s) as [[k d]|]; [|exact Hs].
    destruct (d <=? t); [|exact Hs]. now apply IH, fire_tracked. }
  assert (Hrun : forall tr s, tracked s -> tracked (run tr s)).
  { induction tr as [|te tr IH]; intros s Hs; [exact Hs|]. cbn. apply IH.
    unfold deliver. destruct (listening _).
    - now apply handle_tracked, Hadv.
    - now apply Hadv. }
  apply Hrun. unfold tracked.
  change (meta (start_detector now timeout)) with (∅ : gmap string RequestMeta).
  change (inflight (start_detector now timeout)) with (∅ : gset string).
  apply dom_empty_L.
Qed.

(** On a state reached by the detector, every request in flight whose
    start is more than 2000 ms old is gone from [inflight] and [meta] after
    the sweep. *)
Lemma sweep_evicts_stalled (trace : list (Z * Event)) (t0 timeout d : Z) (id : string) :
  let s := run trace (start_detector t0 timeout) in
  id ∈ inflight s ->
  exists m, meta s !! id = Some m /\
            (2000 < d - start m ->
             (id ∉ inflight (fire SweepTimer d s)) /\
             meta (fire SweepTimer d s) !! id = None).
Proof.
  intros s Hin. pose proof (run_tracked trace t0 timeout) as Ht.
  fold s in Ht. unfold tracked in Ht. rewrite <- Ht in Hin.
  apply elem_of_dom in Hin as [m Hm]. exists m. split; [exact Hm|].
  intros Hold. destruct (sweep_effect d s) as (_ & _ & H & _). eauto.
Qed.

(** C4 at its boundary — A request sent at time 0 is exactly 2000 ms old when
    the fourth sweep runs (at 2000 ms); that sweep keeps it in [inflight] and
    [meta], and it is the fifth sweep (2500 ms) that evicts it. *)
Theorem sweep_keeps_request_aged_2000 :
  let s0 := run slowScript (start_detector 0 30000) in
  let at2000 := advance 2000 s0 in
  let at2500 := advance 2500 s0 in
  meta s0 !! "r1"%string
  = Some {| url := "https://cdn.example/slow.js"; start := 0 |} /\
  stalledRequestSweepTimer at2000 = Some 2500 /\
  elements (inflight at2000) = ["r1"%string] /\
  meta at2000 !! "r1"%string
  = Some {| url := "https://cdn.example/slow.js"; start := 0 |} /\
  elements (inflight (sweep 2000 (advance 1999 s0))) = ["r1"%string] /\
  elements (inflight at2500) = [] /\
  meta at2500 !! "r1"%string = None.
Proof. vm_compute. repeat split. Qed.

(** ** The event loop and the guard *)

Lemma sweep_fields (d : Z) (s : Detector) :
  stalledRequestSweepTimer (fire SweepTimer d s) = Some (d + 500) /\
  guard (fire SweepTimer d s) = guard s /\
  listening (fire SweepTimer d s) = listening s /\
  resolvedAt (fire SweepTimer d s) = resolvedAt s.
Proof.
  cbn [fire]. unfold sweep.
  set (s1 := setSweep (Some (d + 500)) s).
  destruct (maybeQuiet_requests d (evictStalled d s1)) as (_ & _ & _ & -> & -> & -> & -> & _).
  repeat split.
Qed.

(** The quiet timer and the guard both end in [resolveDone]. *)
Lemma terminal_fields (k : Timer) (d : Z) (s : Detector) :
  k ≠ SweepTimer ->
  torn_down (fire k d s) /\
  resolvedAt (fire k d s)
  = Some (match resolvedAt s with Some r => r | None => d end).
Proof.
  intros Hk. destruct k; [congruence| |]; cbn [fire].
  - unfold torn_down, resolveDone; cbn. destruct (resolvedAt s); repeat split.
  - unfold guardFired, torn_down, resolveDone.
    destruct (negb _); cbn; destruct (resolvedAt s); repeat split.
Qed.

(** The guard forces the settled state from any state. *)
Lemma guard_forces_settled (now : Z) (s : Detector) :
  exists r, resolvedAt (guardFired now s) = Some r /\ torn_down (guardFired now s).
Proof.
  destruct (terminal_fields GuardTimer now s) as [Ht Hr]; [discriminate|].
  cbn [fire] in *. eauto.
Qed.

Lemma next_timer_source (s : Detector) (k : Timer) (d : Z) :
  next_timer s = Some (k, d) ->
  match k with
  | SweepTimer => stalledRequestSweepTimer s = Some d
  | QuietTimer => quietTimer s = Some d
  | GuardTimer => guard s = Some d
  end.
Proof.
  unfold next_timer, earlier, tagged.
  destruct (stalledRequestSweepTimer s) as [a|], (quietTimer s) as [b|],
    (guard s) as [c|]; cbn;
    repeat match goal with
           | |- context [if ?x <=? ?y then _ else _] => destruct (x <=? y)
           end;
    intros [= <- <-]; reflexivity.
Qed.

Lemma next_timer_before_guard (s : Detector) (g : Z) :
  guard s = Some g -> exists k d, next_timer s = Some (k, d) /\ d <= g.
Proof.
  intros Hg. unfold next_timer, earlier, tagged. rewrite Hg.
  destruct (stalledRequestSweepTimer s) as [a|], (quietTimer s) as [b|]; cbn;
    repeat match goal with
           | |- context [if ?x <=? ?y then _ else _] =>
               destruct (Z.leb_spec x y)
           end;
    eexists _, _; (split; [reflexivity|lia]).
Qed.

Lemma next_timer_torn_down (s : Detector) : torn_down s -> next_timer s = None.
Proof.
  intros (Hq & Hs & Hg & _). unfold next_timer. now rewrite Hq, Hs, Hg.
Qed.

Lemma fire_due_torn_down (fuel : nat) (t : Z) (s : Detector) :
  torn_down s -> fire_due fuel t s = s.
Proof.
  intros H. destruct fuel; [reflexivity|]. cbn.
  now rewrite (next_timer_torn_down s H).
Qed.

(** One callback keeps the guard invariant, provided it is the earliest
    timer. *)
Lemma fire_guarded (g : Z) (s : Detector) (k : Timer) (d : Z) :
  guarded g s -> next_timer s = Some (k, d) -> guarded g (fire k d s).
Proof.
  unfold guarded. intros Hg Hn.
  destruct (resolvedAt s) as [r|] eqn:Er.
  - destruct Hg as [_ Ht]. rewrite (next_timer_torn_down s Ht) in Hn. discriminate.
  - assert (Hd : d <= g).
    { destruct (next_timer_before_guard s g Hg) as (k' & d' & Hn' & Hle).
      rewrite Hn in Hn'. now injection Hn' as -> ->. }
    destruct (decide (k = SweepTimer)) as [->|Hk].
    + destruct (sweep_fields d s) as (_ & -> & _ & ->). now rewrite Er.
    + destruct (terminal_fields k d s Hk) as [Ht ->]. rewrite Er. now split.
Qed.

Lemma fire_due_guarded (g : Z) (fuel : nat) (t : Z) (s : Detector) :
  guarded g s -> guarded g (fire_due fuel t s).
Proof.
  revert s. induction fuel as [|fuel IH]; intros s Hg; [exact Hg|].
  cbn. destruct (next_timer s) as [[k d]|] eqn:Hn; [|exact Hg].
  destruct (d <=? t); [|exact Hg]. apply IH. now apply fire_guarded.
Qed.

(** ** Enough fuel: after [advance t] no timer due by [t] is left *)

Lemma sweeps_due_after_sweep (t d : Z) (s : Detector) :
  stalledRequestSweepTimer s = Some d -> d <= t ->
  S (sweeps_due t (fire SweepTimer d s)) = sweeps_due t s.
Proof.
  intros Hs Hd. unfold sweeps_due.
  destruct (sweep_fields d s) as (-> & _). rewrite Hs.
  destruct (Z.leb_spec d t); [|lia].
  destruct (Z.leb_spec (d + 500) t).
  - f_equal. replace (t - d) with ((t - (d + 500)) + 1 * 500) by lia.
    rewrite Z.div_add by lia.
    assert (0 <= (t - (d + 500)) / 500) by (apply Z.div_pos; lia). lia.
  - rewrite Z.div_small by lia. reflexivity.
Qed.

Lemma fire_due_quiescent (fuel : nat) (t : Z) (s : Detector) :
  (sweeps_due t s < fuel)%nat -> quiescent t (fire_due fuel t s).
Proof.
  revert s. induction fuel as [|fuel IH]; intros s Hf; [lia|].
  cbn. unfold quiescent at 1.
  destruct (next_timer s) as [[k d]|] eqn:Hn.
  - destruct (Z.leb_spec d t) as [Hd|Hd].
    + fold (quiescent t (fire_due fuel t (fire k d s))).
      destruct (decide (k = SweepTimer)) as [->|Hk].
      * apply IH. apply next_timer_source in Hn.
        pose proof (sweeps_due_after_sweep t d s Hn Hd). lia.
      * destruct (terminal_fields k d s Hk) as [Ht _].
        rewrite fire_due_torn_down by assumption.
        unfold quiescent. now rewrite next_timer_torn_down.
    + now rewrite Hn.
  - now rewrite Hn.
Qed.

Lemma advance_quiescent (t : Z) (s : Detector) : quiescent t (advance t s).
Proof. apply fire_due_quiescent. lia. Qed.

Lemma advance_guarded (g t : Z) (s : Detector) :
  guarded g s -> guarded g (advance t s).
Proof. apply fire_due_guarded. Qed.

(** Past the deadline of the guard the promise is resolved. *)
Lemma advance_past_guard (g t : Z) (s : Detector) :
  guarded g s -> g <= t ->
  exists r, resolvedAt (advance t s) = Some r /\ r <= g.
Proof.
  intros Hg Ht. pose proof (advance_guarded g t s Hg) as H.
  pose proof (advance_quiescent t s) as Hq.
  unfold guarded in H. destruct (resolvedAt (advance t s)) as [r|].
  - exists r. now destruct H.
  - destruct (next_timer_before_guard _ g H) as (k & d & Hn & Hd).
    unfold quiescent in Hq. rewrite Hn in Hq. lia.
Qed.

Lemma handle_guarded (g now : Z) (ev : Event) (s : Detector) :
  resolvedAt s = None -> guarded g s -> guarded g (handle now ev s).
Proof.
  intros Hr Hg. unfold guarded in *. rewrite Hr in Hg.
  assert (Hfin : forall id, resolvedAt (finishReq now id s) = None /\
                            guard (finishReq now id s) = Some g).
  { intros id. unfold finishReq. destruct (bool_decide _); [|now split].
    match goal with
    | |- context [maybeQuiet now ?x] =>
        destruct (maybeQuiet_requests now x) as (_ & _ & _ & _ & -> & _ & -> & _)
    end. now split. }
  assert (H : resolvedAt (handle now ev s) = None /\
              guard (handle now ev s) = Some g).
  { destruct ev as [r ty f u|r|r|r|r u|f]; cbn; try apply Hfin.
    - unfold onRequest. destruct (isLongLived ty); now split.
    - unfold onDataUrl. destruct (startsWith "data:" u); [apply Hfin|now split].
    - unfold onFrameStop. destruct (docByFrame s !! f) as [id|]; [|now split].
      destruct (truthy id); [apply Hfin|now split]. }
  destruct H as [-> H]. exact H.
Qed.

Lemma deliver_guarded (g : Z) (s : Detector) (te : Z * Event) :
  guarded g s -> guarded g (deliver s te).
Proof.
  intros Hg. unfold deliver.
  pose proof (advance_guarded g te.1 s Hg) as H.
  destruct (listening (advance te.1 s)) eqn:El; [|exact H].
  destruct (resolvedAt (advance te.1 s)) as [r|] eqn:Er.
  - unfold guarded in H. rewrite Er in H. destruct H as (_ & _ & _ & _ & Hl).
    congruence.
  - now apply handle_guarded.
Qed.

Lemma run_guarded (g : Z) (trace : list (Z * Event)) (s : Detector) :
  guarded g s -> guarded g (run trace s).
Proof.
  revert s. induction trace as [|te trace IH]; intros s Hg; [exact Hg|].
  cbn. apply IH. now apply deliver_guarded.
Qed.

Lemma start_guarded (now timeout : Z) :
  guarded (now + timerDelay timeout) (start_detector now timeout).
Proof. reflexivity. Qed.

Lemma timerDelay_bound (ms : Z) : 1 <= timerDelay ms <= Z.max 1 ms.
Proof.
  unfold timerDelay.
  destruct (Z.leb_spec 1 ms), (Z.leb_spec ms 2147483647); cbn; lia.
Qed.

(** C1 (amended) — When the session is acquired and the set-up commands
    succeed, then whatever events arrive, and however many requests stay in
    flight: the guard callback resolves from any state; the promise is never
    rejected; and from the deadline of the guard on it is fulfilled, with a
    resolution time at or before that deadline.  The deadline is the time
    the executor ran plus the timer delay, which is the timeout, or 1 ms for
    a timeout below 1 or above 2^31 - 1. *)
Theorem settled_promise_resolves
    (newCDPSession : list nat -> nat -> Result nat JsError) (page fuel : nat)
    (reg reg' : SessionRegistry.Registry) (client : nat) (h : Host)
    (domSettleTimeoutMs : Z) (timeoutMs : option Z)
    (trace : list (Z * Event)) (horizon : Z) :
  SessionRegistry.getCDPClient newCDPSession page fuel page reg
  = (Some (Ok client), reg') ->
  enableDomains h = Ok tt ->
  let deadline := executorTime h + timerDelay (default domSettleTimeoutMs timeoutMs) in
  (forall now s, exists r, resolvedAt (guardFired now s) = Some r /\
                           torn_down (guardFired now s)) /\
  (forall e, waitForSettledDom newCDPSession page fuel reg h domSettleTimeoutMs
               timeoutMs trace horizon ≠ Rejected e) /\
  (deadline <= horizon ->
   exists r,
     waitForSettledDom newCDPSession page fuel reg h domSettleTimeoutMs
       timeoutMs trace horizon = Fulfilled r /\
     r <= deadline /\
     deadline <= executorTime h + Z.max 1 (default domSettleTimeoutMs timeoutMs)).
Proof.
  intros Hc He deadline. split; [apply guard_forces_settled|].
  unfold waitForSettledDom. rewrite Hc, He. split.
  - intros e. now destruct (resolvedAt _).
  - intros Hh.
    destruct (advance_past_guard deadline horizon
                (run trace (start_detector (executorTime h)
                              (default domSettleTimeoutMs timeoutMs))))
      as (r & Hr & Hle); [apply run_guarded, start_guarded|exact Hh|].
    exists r. rewrite Hr. split; [reflexivity|]. split; [exact Hle|].
    subst deadline.
    pose proof (timerDelay_bound (default domSettleTimeoutMs timeoutMs)). lia.
Qed.

Lemma settled_promise_resolves_witness :
  exists r,
    waitForSettledDom SessionRegistry.sameProcessEngine 0 1 emptyRegistry
      readyHost 30000 (Some 1000) busyTrace 1000 = Fulfilled r /\
    r <= 1000.
Proof.
  destruct (settled_promise_resolves SessionRegistry.sameProcessEngine 0 1
              emptyRegistry _ 100%nat readyHost 30000 (Some 1000) busyTrace 1000
              eq_refl eq_refl) as (_ & _ & H).
  destruct H as (r & Hr & Hle & _); [vm_compute; discriminate|].
  exists r. split; [exact Hr|exact Hle].
Defined.

(** C1 without the set-up condition does not hold: the promise of the async
    function is rejected when the session cannot be acquired, and when a
    set-up command fails. *)
Lemma settled_promise_rejected_by_setup :
  waitForSettledDom SessionRegistry.closedEngine 0 1 emptyRegistry readyHost
    30000 (Some 1000) busyTrace 5000
  = Rejected {| message := Some "Target page, context or browser has been closed"%string |}
  /\
  waitForSettledDom SessionRegistry.sameProcessEngine 0 1 emptyRegistry
    {| title := Ok "Example"%string;
       waitForLoadState := Ok tt;
       networkEnable := Err {| message := Some "Target closed"%string |};
       pageEnable := Ok tt;
       setAutoAttach := Ok tt;
       executorTime := 0 |}
    30000 (Some 1000) busyTrace 5000
  = Rejected {| message := Some "Target closed"%string |}.
Proof. split; reflexivity. Qed.

(** ** Letting time pass in two steps *)

Lemma fire_due_enough (n m : nat) (t : Z) (s : Detector) :
  (sweeps_due t s < n)%nat -> (sweeps_due t s < m)%nat ->
  fire_due n t s = fire_due m t s.
Proof.
  revert m s. induction n as [|n IH]; intros m s Hn Hm; [lia|].
  destruct m as [|m]; [lia|]. cbn.
  destruct (next_timer s) as [[k d]|] eqn:Hk; [|reflexivity].
  destruct (Z.leb_spec d t) as [Hd|Hd]; [|reflexivity].
  destruct (decide (k = SweepTimer)) as [->|Hne].
  - apply next_timer_source in Hk.
    pose proof (sweeps_due_after_sweep t d s Hk Hd). apply IH; lia.
  - destruct (terminal_fields k d s Hne) as [Ht _].
    now rewrite !fire_due_torn_down.
Qed.

Lemma fire_due_then_advance (n : nat) (t t' : Z) (s : Detector) :
  (sweeps_due t s < n)%nat -> t <= t' ->
  advance t' (fire_due n t s) = advance t' s.
Proof.
  revert s. induction n as [|n IH]; intros s Hn Ht; [lia|].
  cbn [fire_due].
  destruct (next_timer s) as [[k d]|] eqn:Hk; [|reflexivity].
  destruct (Z.leb_spec d t) as [Hd|Hd]; [|reflexivity].
  assert (Hrhs : advance t' s = fire_due (sweeps_due t' s) t' (fire k d s)).
  { unfold advance. cbn [fire_due]. rewrite Hk.
    destruct (Z.leb_spec d t'); [reflexivity|lia]. }
  destruct (decide (k = SweepTimer)) as [->|Hne].
  - apply next_timer_source in Hk.
    pose proof (sweeps_due_after_sweep t d s Hk Hd).
    pose proof (sweeps_due_after_sweep t' d s Hk ltac:(lia)) as H'.
    rewrite IH by lia. rewrite Hrhs, <- H'. reflexivity.
  - destruct (terminal_fields k d s Hne) as [Htd _].
    rewrite Hrhs. rewrite !fire_due_torn_down by assumption.
    unfold advance. now rewrite fire_due_torn_down.
Qed.

Lemma advance_advance (t t' : Z) (s : Detector) :
  t <= t' -> advance t' (advance t s) = advance t' s.
Proof. intros Ht. unfold advance at 2. apply fire_due_then_advance; [lia|exact Ht]. Qed.

(** C6 — A [Network.requestWillBeSent] whose type is WebSocket or
    EventSource leaves every variable of the detector as it was: nothing is
    added to [inflight], [meta] or the frame map and a pending quiet timer
    stays pending.  The detector then goes on exactly as if the event had not
    arrived: the next event, and the passing of time, lead to the same
    state, so settlement comes no later. *)
Theorem long_lived_request_ignored (now : Z) (requestId : string)
    (type : option ResourceType) (frameId : option string) (requestUrl : string)
    (s : Detector) :
  type = Some WebSocket \/ type = Some EventSource ->
  let ev := RequestWillBeSent requestId type frameId requestUrl in
  onRequest now requestId type frameId requestUrl s = s /\
  handle now ev s = s /\
  deliver s (now, ev) = advance now s /\
  (forall t' ev', now <= t' ->
                  deliver (deliver s (now, ev)) (t', ev') = deliver s (t', ev')) /\
  (forall horizon, now <= horizon ->
                   advance horizon (deliver s (now, ev)) = advance horizon s).
Proof.
  intros Hty.
  assert (H : onRequest now requestId type frameId requestUrl s = s)
    by (destruct Hty as [-> | ->]; reflexivity).
  assert (Hd : deliver s (now, RequestWillBeSent requestId type frameId requestUrl)
               = advance now s).
  { unfold deliver. cbn [fst snd handle].
    destruct (listening (advance now s)); [|reflexivity].
    destruct Hty as [-> | ->]; reflexivity. }
  cbn zeta. split; [exact H|]. split; [exact H|]. split; [exact Hd|]. split.
  - intros t' ev' Ht. rewrite Hd. unfold deliver. cbn [fst snd].
    now rewrite advance_advance.
  - intros horizon Ht. rewrite Hd. now apply advance_advance.
Qed.

Lemma long_lived_request_ignored_witness :
  let s := run [(0, RequestWillBeSent "r1" (Some Script) None "https://a.example/app.js");
                (10, LoadingFinished "r1")]
               (start_detector 0 30000) in
  quietTimer s = Some 510 /\
  handle 20 (RequestWillBeSent "ws1" (Some WebSocket) (Some "f") "wss://a.example/live") s = s.
Proof.
  split; [reflexivity|].
  apply (long_lived_request_ignored 20 "ws1" (Some WebSocket) (Some "f"%string)
           "wss://a.example/live"). now left.
Defined.

End DetectorFacts.

(* ================================================================== *)
(** * Further properties of the frame ordinal allocator *)
(* ================================================================== *)

Section FrameOrdinalFurther.

Import FrameOrdinals.

(** No two keys of the map share an ordinal. *)
Lemma ordinal_injective_call (c : Call) (m : OrdinalMap) :
  wf m ->
  (forall k1 k2 v, m !! k1 = Some v -> m !! k2 = Some v -> k1 = k2) ->
  forall k1 k2 v, call c m !! k1 = Some v -> call c m !! k2 = Some v -> k1 = k2.
Proof.
  intros [H0 Hlt] Hinj.
  assert (Hord : forall fid k1 k2 v,
             (ordinalForFrameId fid m).2 !! k1 = Some v ->
             (ordinalForFrameId fid m).2 !! k2 = Some v -> k1 = k2).
  { intros [f|] k1 k2 v; [|apply Hinj].
    unfold ordinalForFrameId. destruct (m !! Some f) eqn:E; [apply Hinj|]. cbn.
    rewrite !lookup_insert. repeat case_decide; subst; try congruence.
    - intros [= <-] H2. apply Hlt in H2. lia.
    - intros H1 [= <-]. apply Hlt in H1. lia.
    - apply Hinj. }
  destruct c as [fid|fid b|]; cbn.
  - apply Hord.
  - rewrite encode_state. apply Hord.
  - unfold resetFrameOrdinals, initial. intros k1 k2 v H1 H2.
    apply lookup_singleton_Some in H1 as [<- _].
    now apply lookup_singleton_Some in H2 as [<- _].
Qed.

Lemma ordinal_injective_run (cs : list Call) (m : OrdinalMap) :
  wf m ->
  (forall k1 k2 v, m !! k1 = Some v -> m !! k2 = Some v -> k1 = k2) ->
  forall k1 k2 v, run cs m !! k1 = Some v -> run cs m !! k2 = Some v -> k1 = k2.
Proof.
  revert m. induction cs as [|c cs IH]; intros m Hwf Hinj; [exact Hinj|].
  change (run (c :: cs) m) with (run cs (call c m)).
  apply IH; [now apply wf_call|now apply ordinal_injective_call].
Qed.

Lemma ordinal_injective_reachable (history : list Call) k1 k2 v :
  run history initial !! k1 = Some v ->
  run history initial !! k2 = Some v -> k1 = k2.
Proof.
  apply ordinal_injective_run; [apply wf_initial|].
  unfold initial. intros a b w H1 H2.
  apply lookup_singleton_Some in H1 as [<- _].
  now apply lookup_singleton_Some in H2 as [<- _].
Qed.

(** What a call returns: the recorded ordinal, or the size of the map for
    a frame id that is not recorded yet. *)
Lemma ordinal_result (fid : option string) (m : OrdinalMap) :
  wf m ->
  (ordinalForFrameId fid m).2 !! fid = Some (ordinalForFrameId fid m).1 /\
  (m !! fid = Some (ordinalForFrameId fid m).1 \/
   (m !! fid = None /\ (ordinalForFrameId fid m).1 = size m)).
Proof.
  intros [H0 _]. destruct fid as [f|]; [|cbn; auto].
  unfold ordinalForFrameId. destruct (m !! Some f) eqn:E; cbn.
  - auto.
  - split; [apply lookup_insert_eq|auto].
Qed.

(** Two different frame ids never get the same ordinal between two
    resets. *)
Lemma ordinals_differ (history later : list Call) (fid1 fid2 : option string) :
  no_reset later = true -> fid1 <> fid2 ->
  let m := run history initial in
  (ordinalForFrameId fid1 m).1
  <> (ordinalForFrameId fid2 (run later (ordinalForFrameId fid1 m).2)).1.
Proof.
  intros Hn Hne m.
  assert (Hwf : wf m) by apply wf_run, wf_initial.
  destruct (ordinal_result fid1 m Hwf) as [H1 _].
  destruct (run_keeps later _ _ _ Hn H1) as [Hk _].
  set (m' := run later (ordinalForFrameId fid1 m).2) in *.
  assert (Hwf' : wf m') by (apply wf_run, wf_ordinal, Hwf).
  destruct (ordinal_result fid2 m' Hwf') as [_ [H2|[_ H2]]].
  - intros E. rewrite <- E in H2. apply Hne.
    assert (Hm' : m' = run (history ++ CallOrdinal fid1 :: later) initial).
    { subst m' m. unfold run. now rewrite fold_left_app. }
    rewrite Hm' in Hk, H2. exact (ordinal_injective_reachable _ _ _ _ Hk H2).
  - rewrite H2. destruct Hwf' as [_ Hlt]. apply Hlt in Hk. lia.
Qed.

(** X1 — Between two resets, different frame ids get different ordinals, and
    a defined frame id never gets ordinal 0 (the ordinal of [undefined]). *)
Theorem ordinals_are_distinct (history later : list Call)
    (fid1 fid2 : option string) :
  no_reset later = true -> fid1 <> fid2 ->
  let m := run history initial in
  (ordinalForFrameId fid1 m).1
  <> (ordinalForFrameId fid2 (run later (ordinalForFrameId fid1 m).2)).1 /\
  (forall f : string, 1 <= (ordinalForFrameId (Some f) m).1).
Proof.
  intros Hn Hne m. split; [now apply ordinals_differ|].
  intros f.
  assert (H : 0 <> (ordinalForFrameId (Some f) m).1).
  { assert (Hd : None <> Some f) by discriminate.
    exact (ordinals_differ history [] None (Some f) eq_refl Hd). }
  lia.
Qed.

Lemma ordinals_are_distinct_witness :
  (ordinalForFrameId (Some "main"%string) initial).1
  <> (ordinalForFrameId (Some "ad"%string)
        (run [CallEncode None 7]
             (ordinalForFrameId (Some "main"%string) initial).2)).1.
Proof.
  assert (Hne : Some "main"%string <> Some "ad"%string) by discriminate.
  exact (proj1 (ordinals_are_distinct [] [CallEncode None 7]
                  (Some "main"%string) (Some "ad"%string) eq_refl Hne)).
Defined.

Lemma encode_token (fid : option string) (b : Z) (m : OrdinalMap) :
  (encodeWithFrameId fid b m).1
  = (natToString (ordinalForFrameId fid m).1 ++ "-" ++ numberToString b)%string.
Proof. unfold encodeWithFrameId. now destruct (ordinalForFrameId fid m). Qed.

(** X2 — Between two resets, two encoded ids are equal only when they were
    made for the same frame id and the same backend id. *)
Theorem encoded_ids_are_distinct (history later : list Call)
    (fid1 fid2 : option string) (b1 b2 : Z) :
  no_reset later = true ->
  fid1 <> fid2 \/ b1 <> b2 ->
  let m := run history initial in
  (encodeWithFrameId fid1 b1 m).1
  <> (encodeWithFrameId fid2 b2 (run later (encodeWithFrameId fid1 b1 m).2)).1.
Proof.
  intros Hn Hne m E.
  rewrite encode_state, !encode_token in E.
  apply (f_equal parseEncodedId) in E. rewrite !parse_token in E.
  injection E as Ho Hb.
  destruct Hne as [Hf|Hb']; [|contradiction].
  now apply (ordinals_differ history later fid1 fid2 Hn Hf).
Qed.

Lemma encoded_ids_are_distinct_witness :
  (encodeWithFrameId (Some "A"%string) 12 initial).1
  <> (encodeWithFrameId (Some "B"%string) 12
        (run [] (encodeWithFrameId (Some "A"%string) 12 initial).2)).1.
Proof.
  assert (Hne : Some "A"%string <> Some "B"%string) by discriminate.
  exact (encoded_ids_are_distinct [] [] (Some "A"%string) (Some "B"%string) 12 12
           eq_refl (or_introl Hne)).
Defined.

End FrameOrdinalFurther.

(* ================================================================== *)
(** * Further properties of the session registry and of CDP commands *)
(* ================================================================== *)

Section SessionRegistryFurther.

Import SessionRegistry.

Variable newCDPSession : list Target -> Target -> Result Session JsError.
Variable page : Target.

Abbreviation acquire' := (getCDPClient newCDPSession page).

(** A call only adds to the cache and to the list of creation requests. *)
Lemma acquire_grows (fuel : nat) (target : Target) (r r' : Registry) res :
  acquire' fuel target r = (res, r') ->
  (forall k s, cdpClients r !! k = Some s -> cdpClients r' !! k = Some s) /\
  (exists more, attempts r' = attempts r ++ more).
Proof.
  revert target r r' res.
  induction fuel as [|fuel IH]; intros target r r' res.
  - intros [= <- <-]. split; [auto|]. exists []. now rewrite app_nil_r.
  - rewrite acquire_unfold.
    destruct (cdpClients r !! target) as [c|] eqn:Ec.
    { intros [= <- <-]. split; [auto|]. exists []. now rewrite app_nil_r. }
    assert (Hins : forall s0 r0,
               (forall k s, cdpClients (asked target r) !! k = Some s ->
                            cdpClients r0 !! k = Some s) ->
               forall k s, cdpClients r !! k = Some s ->
                           cdpClients (cache target s0 r0) !! k = Some s).
    { intros s0 r0 H0 k s Hk. unfold cache; cbn.
      rewrite lookup_insert_ne by congruence. now apply H0. }
    destruct (newCDPSession (attempts r) target) as [new|err].
    + intros [= <- <-]. split; [now apply Hins|]. now exists [target].
    + destruct (noSeparateSession err).
      * destruct (acquire' fuel page (asked target r)) as [res1 r1] eqn:E1.
        destruct (IH _ _ _ _ E1) as [Hc [more Ha]].
        assert (Hatt : attempts r1 = attempts r ++ target :: more).
        { rewrite Ha. cbn. now rewrite <- app_assoc. }
        destruct res1 as [[root|e]|]; intros [= <- <-].
        -- split; [now apply Hins|]. now exists (target :: more).
        -- split; [exact Hc|]. now exists (target :: more).
        -- split; [exact Hc|]. now exists (target :: more).
      * intros [= <- <-]. split; [auto|]. now exists [target].
Qed.

(** A call that does not return a session caches nothing. *)
Lemma acquire_failure_keeps (fuel : nat) (target : Target) (r r' : Registry) res :
  acquire' fuel target r = (res, r') ->
  (forall s, res <> Some (Ok s)) ->
  cdpClients r' = cdpClients r.
Proof.
  revert target r r' res.
  induction fuel as [|fuel IH]; intros target r r' res.
  - now intros [= <- <-].
  - rewrite acquire_unfold.
    destruct (cdpClients r !! target) as [c|] eqn:Ec.
    { intros [= <- <-] H. now destruct (H c). }
    destruct (newCDPSession (attempts r) target) as [new|err].
    + intros [= <- <-] H. now destruct (H new).
    + destruct (noSeparateSession err).
      * destruct (acquire' fuel page (asked target r)) as [res1 r1] eqn:E1.
        destruct res1 as [[root|e]|]; intros [= <- <-] H.
        -- now destruct (H root).
        -- now apply (IH _ _ _ _ E1).
        -- now apply (IH _ _ _ _ E1).
      * now intros [= <- <-].
Qed.

(** X3 — Whatever a call to [getCDPClient] returns, the sessions cached
    before it are still cached, unchanged, after it, and the creation
    requests sent before it are a prefix of those sent after it; when the
    call does not return a session, the cache is exactly what it was. *)
Theorem registry_only_grows (fuel : nat) (target : Target) (r : Registry) :
  let res := (acquire' fuel target r).1 in
  let r' := (acquire' fuel target r).2 in
  (forall k s, cdpClients r !! k = Some s -> cdpClients r' !! k = Some s) /\
  (exists more, attempts r' = attempts r ++ more) /\
  ((forall s, res <> Some (Ok s)) -> cdpClients r' = cdpClients r).
Proof.
  cbn zeta. destruct (acquire' fuel target r) as [res r'] eqn:E. cbn [fst snd].
  destruct (acquire_grows _ _ _ _ _ E) as [H1 H2].
  split; [exact H1|]. split; [exact H2|].
  now apply (acquire_failure_keeps _ _ _ _ _ E).
Qed.

Lemma acquire_again (fuel fuel' : nat) (target : Target) (r r' : Registry)
    (s : Session) :
  acquire' fuel target r = (Some (Ok s), r') ->
  acquire' (S fuel') target r' = (Some (Ok s), r').
Proof. intros H. apply acquire_cached. now apply (acquire_caches _ _ _ _ _ _ _ H). Qed.

(** X4 — Once [getCDPClient] has returned a session for a target (cached,
    newly created, or the main page's by fallback), every later call for
    that target, after any calls for other targets, returns the same session
    and sends no creation request. *)
Theorem session_is_sticky (fuel : nat) (target : Target) (r r1 : Registry)
    (s : Session) (others : list (nat * Target)) :
  acquire' fuel target r = (Some (Ok s), r1) ->
  let r2 := fold_left (fun acc ft => (acquire' ft.1 ft.2 acc).2) others r1 in
  forall fuel', acquire' (S fuel') target r2 = (Some (Ok s), r2).
Proof.
  intros H r2 fuel'. apply acquire_cached.
  assert (H1 : cdpClients r1 !! target = Some s)
    by now apply (acquire_caches _ _ _ _ _ _ _ H).
  subst r2. clear H. revert r1 H1.
  induction others as [|[f t] others IH]; intros r1 H1; [exact H1|].
  cbn [fold_left]. apply IH. cbn [fst snd].
  destruct (acquire' f t r1) as [res r'] eqn:E.
  now apply (acquire_grows _ _ _ _ _ E).
Qed.

(** ** Commands *)

Variable Params : Type.
Variable Reply : Type.
Variable emptyParams : Params.
Variable send :
  list (Session * string * Params) -> Session -> string -> Params ->
  Result Reply JsError.

Abbreviation sendCDP' :=
  (CdpCommands.sendCDP newCDPSession page Params Reply send).
Abbreviation perform' :=
  (CdpCommands.perform newCDPSession page Params Reply emptyParams send).
Abbreviation performAll' :=
  (CdpCommands.performAll newCDPSession page Params Reply emptyParams send).

Lemma perform_registry (fuel : nat) (cmd : CdpCommands.Command Params)
    (c : CdpCommands.Connection Params) :
  exists t,
    CdpCommands.registry (perform' fuel cmd c)
    = (acquire' fuel t (CdpCommands.registry c)).2.
Proof.
  assert (H : forall m ps t,
             CdpCommands.registry (sendCDP' fuel m ps t c).2
             = (acquire' fuel (default page t) (CdpCommands.registry c)).2).
  { intros m ps t. unfold CdpCommands.sendCDP.
    now destruct (acquire' fuel (default page t) (CdpCommands.registry c))
      as [[[cl|e]|] r']. }
  destruct cmd as [m ps t|d t|d t]; exists (default page t); cbn [CdpCommands.perform].
  - apply H.
  - unfold CdpCommands.enableCDP.
    rewrite <- (H (d ++ ".enable")%string emptyParams t).
    now destruct (sendCDP' fuel (d ++ ".enable")%string emptyParams t c).
  - unfold CdpCommands.disableCDP.
    rewrite <- (H (d ++ ".disable")%string emptyParams t).
    now destruct (sendCDP' fuel (d ++ ".disable")%string emptyParams t c).
Qed.

(** X5 — When a command has been sent for a target on some session, every
    later [sendCDP] for that target, after any other commands, is sent on
    that same session, with its method and parameters, and is the only thing
    added to the list of sent commands; no session is created for it.  When
    the session cannot be acquired nothing is sent and the acquisition error
    is returned. *)
Theorem commands_reach_one_session (fuel fuel' : nat) (target : option Target)
    (c : CdpCommands.Connection Params)
    (between : list (CdpCommands.Command Params))
    (method : string) (params : Params) :
  let c1 := (sendCDP' fuel method params target c).2 in
  let c2 := performAll' fuel between c1 in
  (forall client r1,
     acquire' fuel (default page target) (CdpCommands.registry c)
     = (Some (Ok client), r1) ->
     CdpCommands.sent c1 = CdpCommands.sent c ++ [(client, method, params)] /\
     forall method' params',
       sendCDP' (S fuel') method' params' target c2
       = (Some (send (CdpCommands.sent c2) client method' params'),
          {| CdpCommands.registry := CdpCommands.registry c2;
             CdpCommands.sent := CdpCommands.sent c2 ++ [(client, method', params')] |})) /\
  (forall e r',
     acquire' fuel (default page target) (CdpCommands.registry c)
     = (Some (Err e), r') ->
     sendCDP' fuel method params target c
     = (Some (Err e), {| CdpCommands.registry := r';
                         CdpCommands.sent := CdpCommands.sent c |})).
Proof.
  intros c1 c2. split.
  - intros client r1 Hacq.
    assert (Hc1 : c1 = {| CdpCommands.registry := r1;
                          CdpCommands.sent := CdpCommands.sent c ++ [(client, method, params)] |}).
    { subst c1. unfold CdpCommands.sendCDP. now rewrite Hacq. }
    assert (Hkey : cdpClients (CdpCommands.registry c2) !! default page target
                   = Some client).
    { subst c2. rewrite Hc1.
      assert (H1 : cdpClients r1 !! default page target = Some client)
        by now apply (acquire_caches _ _ _ _ _ _ _ Hacq).
      change r1 with (CdpCommands.registry
                        {| CdpCommands.registry := r1;
                           CdpCommands.sent := CdpCommands.sent c ++ [(client, method, params)] |})
        in H1.
      revert H1.
      generalize ({| CdpCommands.registry := r1;
                     CdpCommands.sent := CdpCommands.sent c ++ [(client, method, params)] |}).
      induction between as [|cmd between IH]; intros c0 H1; [exact H1|].
      cbn [CdpCommands.performAll fold_left]. apply IH.
      destruct (perform_registry fuel cmd c0) as [t ->].
      destruct (acquire' fuel t (CdpCommands.registry c0)) as [res r'] eqn:E.
      now apply (acquire_grows _ _ _ _ _ E). }
    split; [now rewrite Hc1|].
    intros method' params'. unfold CdpCommands.sendCDP.
    now rewrite (acquire_cached _ _ _ _ _ _ Hkey).
  - intros e r' He. unfold CdpCommands.sendCDP. now rewrite He.
Qed.

End SessionRegistryFurther.

Lemma session_is_sticky_witness :
  exists r2,
    SessionRegistry.getCDPClient SessionRegistry.sameProcessEngine 0 1 7 r2
    = (Some (Ok 100), r2).
Proof.
  eexists.
  exact (session_is_sticky SessionRegistry.sameProcessEngine 0 2 7
           {| SessionRegistry.cdpClients := ∅; SessionRegistry.attempts := [] |}
           _ 100 [(2, 9); (1, 0)]%nat eq_refl 0%nat).
Defined.

Lemma commands_reach_one_session_witness :
  let c0 := {| CdpCommands.registry :=
                 {| SessionRegistry.cdpClients := ∅; SessionRegistry.attempts := [] |};
               CdpCommands.sent := [] |} in
  let reply := fun (_ : list (nat * string * unit)) (s : nat) (_ : string) (_ : unit) =>
                 @Ok nat JsError s in
  CdpCommands.sent
    (CdpCommands.sendCDP SessionRegistry.sameProcessEngine 0 unit nat reply 2
       "DOM.getDocument" tt (Some 7) c0).2
  = [(100, "DOM.getDocument"%string, tt)].
Proof.
  intros c0 reply.
  exact (proj1 (proj1 (commands_reach_one_session SessionRegistry.sameProcessEngine 0
                         unit nat tt reply 2 0 (Some 7) c0 []
                         "DOM.getDocument" tt) 100 _ eq_refl)).
Defined.

Lemma registry_only_grows_witness :
  SessionRegistry.cdpClients
    (SessionRegistry.getCDPClient SessionRegistry.closedEngine 0 3 7
       {| SessionRegistry.cdpClients := {[ 0%nat := 100%nat ]};
          SessionRegistry.attempts := [] |}).2
  = {[ 0%nat := 100%nat ]}.
Proof.
  destruct (registry_only_grows SessionRegistry.closedEngine 0 3 7
              {| SessionRegistry.cdpClients := {[ 0%nat := 100%nat ]};
                 SessionRegistry.attempts := [] |}) as (_ & _ & H).
  apply H. intros s. vm_compute. discriminate.
Defined.

(* ================================================================== *)
(** * Further properties of the selector engine *)
(* ================================================================== *)

Section SelectorFurther.

Import SelectorEngine.

Variable Host : Type.
Variable register : string -> Host -> Result unit JsError * Host.

(** X6 — When [selectors.register] throws on the first invocation, that
    invocation rejects with the error, but the flag is already up: every
    later invocation returns normally without calling [register] again, so
    the engine stays unregistered. *)
Theorem failed_registration_is_not_retried (h h' : Host) (e : JsError) (n : nat) :
  register "stagehand" h = (Err e, h') ->
  invoke Host register (S n)
    {| stagehandSelectorRegistered := false; host := h; registerCalls := [] |}
  = (Err e :: repeat (Ok tt) n,
     {| stagehandSelectorRegistered := true; host := h';
        registerCalls := ["stagehand"%string] |}).
Proof.
  intros Hreg. rewrite invoke_S.
  assert (E : ensureStagehandSelectorEngine Host register
                {| stagehandSelectorRegistered := false; host := h;
                   registerCalls := [] |}
              = (Err e, {| stagehandSelectorRegistered := true; host := h';
                           registerCalls := ["stagehand"%string] |})).
  { unfold ensureStagehandSelectorEngine. cbn. now rewrite Hreg. }
  rewrite E. cbn [fst snd]. now rewrite invoke_noop.
Qed.

End SelectorFurther.

Lemma failed_registration_is_not_retried_witness :
  SelectorEngine.invoke unit
    (fun _ h => (Err {| message := Some "selectors.register: boom"%string |}, h)) 3
    {| SelectorEngine.stagehandSelectorRegistered := false;
       SelectorEngine.host := tt; SelectorEngine.registerCalls := [] |}
  = ([Err {| message := Some "selectors.register: boom"%string |}; Ok tt; Ok tt],
     {| SelectorEngine.stagehandSelectorRegistered := true;
        SelectorEngine.host := tt;
        SelectorEngine.registerCalls := ["stagehand"%string] |}).
Proof.
  exact (failed_registration_is_not_retried unit
           (fun _ h => (Err {| message := Some "selectors.register: boom"%string |}, h))
           tt tt _ 2 eq_refl).
Defined.

(* ================================================================== *)
(** * Further properties of the DOM-settle detector *)
(* ================================================================== *)

Section DetectorFurther.

Import SettledDom DetectorInvariants.
Local Open Scope Z_scope.

(** ** What handlers and the sweep leave alone *)

Lemma finishReq_fields (now : Z) (id : string) (s : Detector) :
  stalledRequestSweepTimer (finishReq now id s) = stalledRequestSweepTimer s /\
  guard (finishReq now id s) = guard s /\
  listening (finishReq now id s) = listening s /\
  resolvedAt (finishReq now id s) = resolvedAt s.
Proof.
  unfold finishReq. destruct (bool_decide _); [|repeat split].
  match goal with
  | |- context [maybeQuiet now ?x] =>
      destruct (maybeQuiet_requests now x) as (_ & _ & _ & -> & -> & -> & -> & _)
  end. repeat split.
Qed.

Lemma handle_fields (now : Z) (ev : Event) (s : Detector) :
  stalledRequestSweepTimer (handle now ev s) = stalledRequestSweepTimer s /\
  guard (handle now ev s) = guard s /\
  listening (handle now ev s) = listening s /\
  resolvedAt (handle now ev s) = resolvedAt s.
Proof.
  destruct ev as [r ty f u|r|r|r|r u|f]; cbn; try apply finishReq_fields.
  - unfold onRequest. destruct (isLongLived ty); repeat split.
  - unfold onDataUrl. destruct (startsWith "data:" u);
      [apply finishReq_fields|repeat split].
  - unfold onFrameStop. destruct (docByFrame s !! f) as [id|]; [|repeat split].
    destruct (truthy id); [apply finishReq_fields|repeat split].
Qed.

(** A handler leaves the state alone, or adds a request and clears the quiet
    timer, or finishes a request that was in flight. *)
Lemma handle_cases (now : Z) (ev : Event) (s : Detector) :
  handle now ev s = s \/
  (exists id u, inflight (handle now ev s) = {[ id ]} ∪ inflight s /\
                meta (handle now ev s) = <[id := {| url := u; start := now |}]> (meta s) /\
                quietTimer (handle now ev s) = None) \/
  (exists id, id ∈ inflight s /\ handle now ev s = finishReq now id s).
Proof.
  assert (Hfin : forall id, finishReq now id s = s \/
                            (id ∈ inflight s /\ finishReq now id s = finishReq now id s)).
  { intros id. destruct (decide (id ∈ inflight s)); [now right|].
    left. now apply finishReq_unknown. }
  destruct ev as [r ty f u|r|r|r|r u|f]; cbn.
  - unfold onRequest. destruct (isLongLived ty); [now left|].
    right. left. exists r, u. repeat split.
  - destruct (Hfin r) as [H|H]; [now left|right; right; eauto].
  - destruct (Hfin r) as [H|H]; [now left|right; right; eauto].
  - destruct (Hfin r) as [H|H]; [now left|right; right; eauto].
  - unfold onDataUrl. destruct (startsWith "data:" u); [|now left].
    destruct (Hfin r) as [H|H]; [now left|right; right; eauto].
  - unfold onFrameStop. destruct (docByFrame s !! f) as [id|]; [|now left].
    destruct (truthy id); [|now left].
    destruct (Hfin id) as [H|H]; [now left|right; right; eauto].
Qed.

Lemma handle_phase (now : Z) (ev : Event) (s : Detector) :
  phase s -> phase (handle now ev s).
Proof.
  intros Hp. destruct (handle_cases now ev s) as [->|[(id & u & Hi & _ & Hq)|(id & Hin & ->)]].
  - exact Hp.
  - intros _. rewrite Hi, Hq. split.
    + intros He. exfalso.
      assert (H : id ∈ ({[ id ]} ∪ inflight s))
        by (apply elem_of_union_l; now apply elem_of_singleton).
      rewrite He in H. now apply not_elem_of_empty in H.
    + intros [? [=]].
  - intros _. destruct (finishReq_effect now id s Hin) as (-> & _ & _ & ->).
    case_decide; split; eauto; try contradiction. intros [? [=]].
Qed.

Lemma handle_starts (T now : Z) (ev : Event) (s : Detector) :
  now <= T ->
  (forall id m, meta s !! id = Some m -> start m <= T) ->
  forall id m, meta (handle now ev s) !! id = Some m -> start m <= T.
Proof.
  intros Hnow Hs.
  destruct (handle_cases now ev s) as [->|[(r & u & _ & Hm & _)|(r & Hin & ->)]].
  - exact Hs.
  - intros id m. rewrite Hm, lookup_insert. case_decide.
    + now intros [= <-].
    + apply Hs.
  - intros id m. destruct (finishReq_effect now r s Hin) as (_ & -> & _).
    intros H. apply lookup_delete_Some in H as [_ H]. now apply (Hs id).
Qed.

Lemma handle_quiet (now : Z) (ev : Event) (s : Detector) (q : Z) :
  quietTimer (handle now ev s) = Some q ->
  quietTimer s = Some q \/ q = now + 500.
Proof.
  destruct (handle_cases now ev s) as [->|[(r & u & _ & _ & ->)|(r & Hin & ->)]].
  - now left.
  - discriminate.
  - destruct (finishReq_effect now r s Hin) as (_ & _ & _ & ->).
    case_decide; [|discriminate]. intros [= <-]. now right.
Qed.

Lemma sweep_quiet (d : Z) (s : Detector) :
  quietTimer (fire SweepTimer d s) =
  match quietTimer s with
  | Some q => Some q
  | None => if decide (inflight (fire SweepTimer d s) = ∅) then Some (d + 500) else None
  end.
Proof.
  cbn [fire]. unfold sweep. rewrite maybeQuiet_timer.
  destruct (maybeQuiet_requests d (evictStalled d (setSweep (Some (d + 500)) s)))
    as (-> & _).
  reflexivity.
Qed.

Lemma sweep_shrinks (d : Z) (s : Detector) :
  (forall id, id ∈ inflight (fire SweepTimer d s) -> id ∈ inflight s) /\
  (forall id m, meta (fire SweepTimer d s) !! id = Some m ->
                meta s !! id = Some m /\ d - start m <= 2000).
Proof.
  split.
  - intros id H. cbn [fire] in H. apply sweep_inflight in H as [H _]. exact H.
  - intros id m. cbn [fire]. rewrite sweep_meta. cbn.
    destruct (meta s !! id) as [m'|]; [|discriminate].
    destruct (stalled d m') eqn:E; [discriminate|]. intros [= <-].
    split; [reflexivity|]. unfold stalled in E. now apply Z.ltb_ge in E.
Qed.

Lemma sweep_phase (d : Z) (s : Detector) : phase s -> phase (fire SweepTimer d s).
Proof.
  intros Hp Hr. destruct (sweep_fields d s) as (_ & _ & _ & Hres).
  rewrite Hres in Hr. specialize (Hp Hr). rewrite sweep_quiet.
  destruct (quietTimer s) as [q|].
  - split; [eauto|]. intros _.
    assert (He : inflight s = ∅) by (apply Hp; eauto).
    apply leibniz_equiv, elem_of_equiv_empty. intros id Hin.
    apply (proj1 (sweep_shrinks d s)) in Hin. rewrite He in Hin.
    now apply not_elem_of_empty in Hin.
  - case_decide; split; eauto; try contradiction. intros [? [=]].
Qed.

(** ** The invariant [steady] *)

Lemma fire_steady (T : Z) (k : Timer) (d : Z) (s : Detector) :
  steady T s -> next_timer s = Some (k, d) -> steady T (fire k d s).
Proof.
  intros (Ht & Hs & Hp & Hu & Hd) Hn.
  assert (Hr : resolvedAt s = None).
  { destruct (resolvedAt s) as [r|] eqn:E; [|reflexivity].
    rewrite (next_timer_torn_down s) in Hn; [discriminate|]. apply Hd. eauto. }
  destruct (decide (k = SweepTimer)) as [->|Hk].
  - destruct (sweep_fields d s) as (Hw & Hg & Hl & Hres).
    split; [now apply fire_tracked|]. split.
    { intros id m H. apply (proj2 (sweep_shrinks d s)) in H as [H _]. now apply (Hs id). }
    split; [now apply sweep_phase|]. split.
    + intros _. rewrite Hw, Hg, Hl. destruct (Hu Hr) as (_ & ? & ?). eauto.
    + rewrite Hres, Hr. intros [? [=]].
  - destruct (terminal_fields k d s Hk) as [Htd Hres].
    split; [now apply fire_tracked|]. split.
    { destruct k; [congruence| |]; cbn [fire]; [exact Hs|].
      unfold guardFired. now destruct (negb _). }
    split; [intros E; congruence|]. split; [intros E; congruence|].
    intros _. exact Htd.
Qed.

Lemma handle_steady (T now : Z) (ev : Event) (s : Detector) :
  now <= T -> steady T s -> listening s = true -> steady T (handle now ev s).
Proof.
  intros Hnow (Ht & Hs & Hp & Hu & Hd) Hl.
  destruct (handle_fields now ev s) as (Hw & Hg & Hli & Hres).
  split; [now apply handle_tracked|]. split; [now apply handle_starts|].
  split; [now apply handle_phase|]. split.
  - rewrite Hres, Hw, Hg, Hli. exact Hu.
  - rewrite Hres. intros Hsome. destruct (Hd Hsome) as (_ & _ & _ & Hoff). congruence.
Qed.

Lemma fire_due_steady (T : Z) (fuel : nat) (t : Z) (s : Detector) :
  steady T s -> steady T (fire_due fuel t s).
Proof.
  revert s. induction fuel as [|fuel IH]; intros s H; [exact H|]. cbn.
  destruct (next_timer s) as [[k d]|] eqn:Hn; [|exact H].
  destruct (d <=? t); [|exact H]. now apply IH, fire_steady.
Qed.

Lemma deliver_steady (T : Z) (s : Detector) (te : Z * Event) :
  te.1 <= T -> steady T s -> steady T (deliver s te).
Proof.
  intros Ht H. unfold deliver.
  pose proof (fire_due_steady T (S (sweeps_due te.1 s)) te.1 s H) as H'.
  fold (advance te.1 s) in H'.
  destruct (listening (advance te.1 s)) eqn:El; [|exact H'].
  now apply handle_steady.
Qed.

Lemma run_steady (T : Z) (trace : list (Z * Event)) (s : Detector) :
  Forall (fun te => te.1 <= T) trace -> steady T s -> steady T (run trace s).
Proof.
  revert s. induction trace as [|te trace IH]; intros s Hall H; [exact H|].
  apply Forall_cons in Hall as [Hte Hall]. cbn. apply IH; [exact Hall|].
  now apply deliver_steady.
Qed.

Lemma start_steady (T now timeout : Z) : steady T (start_detector now timeout).
Proof.
  split; [|split; [|split; [|split]]].
  - unfold tracked.
    change (meta (start_detector now timeout)) with (∅ : gmap string RequestMeta).
    change (inflight (start_detector now timeout)) with (∅ : gset string).
    apply dom_empty_L.
  - intros id m.
    change (meta (start_detector now timeout)) with (∅ : gmap string RequestMeta).
    now rewrite lookup_empty.
  - intros _.
    change (inflight (start_detector now timeout)) with (∅ : gset string).
    change (quietTimer (start_detector now timeout)) with (Some (now + 500)).
    split; eauto.
  - intros _. cbn. eauto.
  - intros [r Hr]. discriminate Hr.
Qed.

(** Every trace has a latest time. *)
Lemma trace_bound (t0 : Z) (trace : list (Z * Event)) :
  exists T, t0 <= T /\ Forall (fun te => te.1 <= T) trace.
Proof.
  induction trace as [|te trace (T & H0 & Hall)].
  - exists t0. split; [lia|constructor].
  - exists (Z.max T te.1). split; [lia|]. constructor; [lia|].
    eapply Forall_impl; [exact Hall|]. cbn. intros; lia.
Qed.

(** X7 — In every state the detector reaches (after any events and any
    passing of time): [inflight] and [meta] hold the same request ids; while
    the promise is pending, the handlers are attached, the sweep and the
    guard are armed, and the quiet timer is pending exactly when nothing is
    in flight; once it is resolved, the handlers are detached and no timer
    is left. *)
Theorem detector_invariant (trace : list (Z * Event)) (t0 timeout horizon : Z) :
  let s := advance horizon (run trace (start_detector t0 timeout)) in
  dom (meta s) = inflight s /\
  (resolvedAt s = None ->
   listening s = true /\
   is_Some (stalledRequestSweepTimer s) /\ is_Some (guard s) /\
   (inflight s = ∅ <-> is_Some (quietTimer s))) /\
  (is_Some (resolvedAt s) ->
   listening s = false /\ quietTimer s = None /\
   stalledRequestSweepTimer s = None /\ guard s = None).
Proof.
  intros s. destruct (trace_bound t0 trace) as (T & _ & Hall).
  assert (H : steady T s).
  { apply fire_due_steady, run_steady; [exact Hall|apply start_steady]. }
  destruct H as (Ht & _ & Hp & Hu & Hd).
  split; [exact Ht|]. split.
  - intros Hr. destruct (Hu Hr) as (Hw & Hg & Hl). auto.
  - intros Hr. destruct (Hd Hr) as (? & ? & ? & ?). auto.
Qed.

End DetectorFurther.

Lemma detector_invariant_witness :
  let s := SettledDom.advance 1200
             (SettledDom.run SettledDom.busyTrace (SettledDom.start_detector 0 30000)) in
  SettledDom.listening s = true /\ SettledDom.quietTimer s = None.
Proof.
  intros s.
  destruct (detector_invariant SettledDom.busyTrace 0 30000 1200) as (_ & H & _).
  destruct (H eq_refl) as (Hl & _ & _ & _). split; [exact Hl|reflexivity].
Defined.

Section DetectorTiming.

Import SettledDom DetectorInvariants.
Local Open Scope Z_scope.

(** ** After the resolution *)

Lemma torn_down_fixed (s : Detector) :
  torn_down s ->
  (forall t, advance t s = s) /\ (forall te, deliver s te = s) /\
  (forall trace, run trace s = s).
Proof.
  intros Ht.
  assert (Ha : forall t, advance t s = s)
    by (intros t; now apply fire_due_torn_down).
  assert (Hd : forall te, deliver s te = s).
  { intros te. unfold deliver. rewrite Ha.
    destruct Ht as (_ & _ & _ & ->). reflexivity. }
  split; [exact Ha|]. split; [exact Hd|].
  induction trace as [|te trace IH]; [reflexivity|]. cbn. now rewrite Hd.
Qed.

(** X8 — Resolution is final: once the promise is resolved, no later event
    and no passing of time changes anything, so the resolution time stays
    what it was and nothing more is logged. *)
Theorem resolution_is_final (trace more : list (Z * Event))
    (t0 timeout horizon later : Z) (r : Z) :
  let s := advance horizon (run trace (start_detector t0 timeout)) in
  resolvedAt s = Some r ->
  run more s = s /\ advance later (run more s) = s.
Proof.
  intros s Hr.
  destruct (trace_bound t0 trace) as (T & _ & Hall).
  assert (H : steady T s).
  { apply fire_due_steady, run_steady; [exact Hall|apply start_steady]. }
  destruct H as (_ & _ & _ & _ & Hd).
  destruct (torn_down_fixed s) as (Ha & _ & Hrun); [apply Hd; eauto|].
  now rewrite Hrun, Ha.
Qed.

Lemma resolution_is_final_witness :
  let s := advance 600 (run [] (start_detector 0 30000)) in
  run busyTrace s = s.
Proof.
  exact (proj1 (resolution_is_final [] busyTrace 0 30000 600 0 500 eq_refl)).
Defined.

(** ** The quiet window *)

Lemma quiet_is_next (s : Detector) (q : Z) :
  quietTimer s = Some q ->
  (forall g, guard s = Some g -> q <= g) ->
  exists k d, next_timer s = Some (k, d) /\ d <= q /\
              (k = SweepTimer \/ (k = QuietTimer /\ d = q)).
Proof.
  intros Hq Hg. unfold next_timer, earlier, tagged. rewrite Hq.
  destruct (stalledRequestSweepTimer s) as [w|], (guard s) as [g|]; cbn;
    try (specialize (Hg _ eq_refl));
    repeat match goal with
           | |- context [if ?x <=? ?y then _ else _] =>
               destruct (Z.leb_spec x y)
           end;
    eexists _, _; (split; [reflexivity|]); (split; [lia|]); auto; lia.
Qed.

Lemma fire_due_quiet (fuel : nat) (t q : Z) (s : Detector) :
  resolvedAt s = None ->
  quietTimer s = Some q ->
  (forall g, guard s = Some g -> q <= g) ->
  let s' := fire_due fuel t s in
  resolvedAt s' = Some q \/
  (resolvedAt s' = None /\ quietTimer s' = Some q /\
   (forall g, guard s' = Some g -> q <= g)).
Proof.
  revert s. induction fuel as [|fuel IH]; intros s Hr Hq Hg; cbn zeta.
  - right. auto.
  - cbn [fire_due].
    destruct (quiet_is_next s q Hq Hg) as (k & d & Hn & Hd & Hk). rewrite Hn.
    destruct (Z.leb_spec d t); [|right; auto].
    destruct Hk as [->|[-> ->]].
    + apply IH.
      * destruct (sweep_fields d s) as (_ & _ & _ & ->). exact Hr.
      * rewrite sweep_quiet. now rewrite Hq.
      * destruct (sweep_fields d s) as (_ & -> & _). exact Hg.
    + left. destruct (terminal_fields QuietTimer q s) as [Ht Hres]; [discriminate|].
      rewrite fire_due_torn_down by assumption. now rewrite Hres, Hr.
Qed.

(** A pending quiet timer that comes no later than the guard resolves the
    promise at its own deadline, if no event arrives before. *)
Lemma quiet_timer_resolves (t q : Z) (s : Detector) :
  resolvedAt s = None ->
  quietTimer s = Some q ->
  (forall g, guard s = Some g -> q <= g) ->
  q <= t ->
  resolvedAt (advance t s) = Some q.
Proof.
  intros Hr Hq Hg Ht.
  destruct (fire_due_quiet (S (sweeps_due t s)) t q s Hr Hq Hg) as [H|(_ & H & _)];
    [exact H|].
  fold (advance t s) in H. pose proof (advance_quiescent t s) as Hqs.
  unfold quiescent in Hqs.
  destruct (next_timer (advance t s)) as [[k d]|] eqn:Hn.
  - assert (d <= q); [|lia].
    unfold next_timer, earlier, tagged in Hn. rewrite H in Hn.
    destruct (stalledRequestSweepTimer (advance t s)) as [w|],
      (guard (advance t s)) as [g|]; cbn in Hn;
      repeat match type of Hn with
             | context [if ?x <=? ?y then _ else _] => destruct (Z.leb_spec x y)
             end;
      injection Hn as <- <-; lia.
  - unfold next_timer, earlier, tagged in Hn. rewrite H in Hn.
    destruct (stalledRequestSweepTimer (advance t s)) as [w|],
      (guard (advance t s)) as [g|]; cbn in Hn;
      repeat match type of Hn with
             | context [if ?x <=? ?y then _ else _] => destruct (x <=? y)
             end;
      discriminate.
Qed.

(** X9 — The quiet window: when a completion-type event (or a frame-stopped
    event) at time [now] finishes the only request in flight and no other
    event follows, the promise resolves exactly 500 ms later, provided the
    guard is not due before; and with no network activity at all it resolves
    500 ms after the executor ran. *)
Theorem settles_after_quiet_window (now : Z) (id : string) (ev : Event)
    (s : Detector) (t0 timeout : Z) :
  (resolvedAt s = None ->
   inflight s = {[ id ]} ->
   completionOf ev = Some id \/
   (exists fid, ev = FrameStoppedLoading fid /\
                docByFrame s !! fid = Some id /\ truthy id = true) ->
   (forall g, guard s = Some g -> now + 500 <= g) ->
   forall t, now + 500 <= t ->
             resolvedAt (advance t (handle now ev s)) = Some (now + 500)) /\
  (500 <= timerDelay timeout ->
   forall t, t0 + 500 <= t ->
             resolvedAt (advance t (start_detector t0 timeout)) = Some (t0 + 500)).
Proof.
  split.
  - intros Hr Hi Hev Hg t Ht.
    assert (E : handle now ev s = finishReq now id s).
    { destruct Hev as [Hc | (fid & -> & Hd & Htr)].
      - now apply completion_handled.
      - now apply frame_stop_handled. }
    rewrite E.
    assert (Hin : id ∈ inflight s) by (rewrite Hi; now apply elem_of_singleton).
    destruct (finishReq_effect now id s Hin) as (_ & _ & _ & Hq).
    destruct (finishReq_fields now id s) as (_ & Hgd & _ & Hres).
    apply quiet_timer_resolves; [congruence| | |exact Ht].
    + cbn zeta in Hq. rewrite Hq. rewrite decide_True; [reflexivity|].
      rewrite Hi. apply difference_diag_L.
    + rewrite Hgd. exact Hg.
  - intros Hd t Ht. apply quiet_timer_resolves; [reflexivity|reflexivity| |exact Ht].
    cbn. intros g [= <-]. lia.
Qed.

Lemma settles_after_quiet_window_witness :
  let s := run slowScript (start_detector 0 30000) in
  resolvedAt (advance 2000 (handle 700 (LoadingFinished "r1") s)) = Some 1200.
Proof.
  intros s.
  apply (proj1 (settles_after_quiet_window 700 "r1" (LoadingFinished "r1") s 0 0)).
  - reflexivity.
  - apply leibniz_equiv. apply (bool_decide_unpack _). vm_compute. exact I.
  - now left.
  - intros g. vm_compute. intros [= <-]. discriminate.
  - lia.
Defined.

End DetectorTiming.

Section DetectorBounds.

Import SettledDom DetectorInvariants.
Local Open Scope Z_scope.

Lemma steady_reached (trace : list (Z * Event)) (t0 timeout T : Z) :
  Forall (fun te => te.1 <= T) trace ->
  steady T (run trace (start_detector t0 timeout)).
Proof. intros H. apply run_steady; [exact H|apply start_steady]. Qed.

Lemma steady_pending (T : Z) (s : Detector) (k : Timer) (d : Z) :
  steady T s -> next_timer s = Some (k, d) -> resolvedAt s = None.
Proof.
  intros (_ & _ & _ & _ & Hd) Hn.
  destruct (resolvedAt s) as [r|] eqn:E; [|reflexivity].
  rewrite (next_timer_torn_down s) in Hn; [discriminate|]. apply Hd. eauto.
Qed.

(** No armed timer is due when the state is quiescent. *)
Lemma quiescent_armed (t : Z) (s : Detector) :
  quiescent t s ->
  (forall w, stalledRequestSweepTimer s = Some w -> t < w) /\
  (forall q, quietTimer s = Some q -> t < q) /\
  (forall g, guard s = Some g -> t < g).
Proof.
  unfold quiescent, next_timer, earlier, tagged.
  destruct (stalledRequestSweepTimer s) as [w|], (quietTimer s) as [q|],
    (guard s) as [g|]; cbn;
    repeat match goal with
           | |- context [if ?x <=? ?y then _ else _] => destruct (Z.leb_spec x y)
           end;
    intros Hq; repeat split; intros ? [= <-]; lia.
Qed.

(** ** A request in flight holds the promise back *)

Lemma fire_due_blocked (fuel : nat) (t g : Z) (id : string) (m : RequestMeta)
    (s : Detector) :
  t < g -> t - start m <= 2000 ->
  resolvedAt s = None -> quietTimer s = None -> guard s = Some g ->
  id ∈ inflight s -> meta s !! id = Some m ->
  resolvedAt (fire_due fuel t s) = None /\ id ∈ inflight (fire_due fuel t s).
Proof.
  intros Htg Hage. revert s.
  induction fuel as [|fuel IH]; intros s Hr Hq Hg Hin Hm; [now split|].
  cbn [fire_due]. destruct (next_timer s) as [[k d]|] eqn:Hn; [|now split].
  destruct (Z.leb_spec d t) as [Hd|Hd]; [|now split].
  apply next_timer_source in Hn. destruct k.
  - destruct (sweep_fields d s) as (_ & Hgd & _ & Hres).
    destruct (sweep_effect d s) as (_ & _ & _ & Hkeep & _).
    destruct (Hkeep id m Hm ltac:(lia)) as [Hm' Hin'].
    apply IH; try congruence; [|now apply Hin'].
    rewrite sweep_quiet, Hq. rewrite decide_False; [reflexivity|].
    intros He. specialize (Hin' Hin). rewrite He in Hin'.
    now apply not_elem_of_empty in Hin'.
  - congruence.
  - rewrite Hg in Hn. injection Hn as <-. lia.
Qed.

(** X10 — A request in flight holds the promise back: from any state the
    detector reaches with the promise pending and a request in [inflight],
    letting time pass, with no event, to any instant before the guard
    at which the request is at most 2000 ms old leaves the promise pending
    and the request in flight. *)
Theorem inflight_request_blocks_settlement (trace : list (Z * Event))
    (t0 timeout : Z) (id : string) :
  let s := run trace (start_detector t0 timeout) in
  resolvedAt s = None ->
  id ∈ inflight s ->
  exists m g,
    meta s !! id = Some m /\ guard s = Some g /\
    forall t, t < g -> t - start m <= 2000 ->
              resolvedAt (advance t s) = None /\ id ∈ inflight (advance t s).
Proof.
  intros s Hr Hin.
  destruct (trace_bound t0 trace) as (T & _ & Hall).
  destruct (steady_reached trace t0 timeout T Hall) as (Ht & _ & Hp & Hu & _).
  fold s in Ht, Hp, Hu.
  assert (Hm : is_Some (meta s !! id)).
  { apply elem_of_dom. unfold tracked in Ht. now rewrite Ht. }
  destruct Hm as [m Hm]. destruct (Hu Hr) as (_ & [g Hg] & _).
  exists m, g. split; [exact Hm|]. split; [exact Hg|].
  intros t Htg Hage. apply (fire_due_blocked _ t g id m); try assumption.
  destruct (quietTimer s) as [q|] eqn:Hq; [|reflexivity].
  assert (He : inflight s = ∅) by (apply (Hp Hr); eauto).
  rewrite He in Hin. now apply not_elem_of_empty in Hin.
Qed.

Lemma inflight_request_blocks_settlement_witness :
  exists m g,
    meta (run slowScript (start_detector 0 30000)) !! "r1"%string = Some m /\
    guard (run slowScript (start_detector 0 30000)) = Some g /\
    resolvedAt (advance 2000 (run slowScript (start_detector 0 30000))) = None.
Proof.
  destruct (inflight_request_blocks_settlement slowScript 0 30000 "r1" eq_refl)
    as (m & g & Hm & Hg & H).
  { apply (bool_decide_unpack _). vm_compute. exact I. }
  exists m, g. split; [exact Hm|]. split; [exact Hg|].
  apply H.
  - vm_compute in Hg. injection Hg as <-. reflexivity.
  - vm_compute in Hm. injection Hm as <-. vm_compute. discriminate.
Defined.

(** ** No resolution before the first quiet window *)

Lemma handle_early (t0 g now : Z) (ev : Event) (s : Detector) :
  t0 <= now -> early t0 g s -> early t0 g (handle now ev s).
Proof.
  intros Hnow (Hq & Hw & Hg & Hr).
  destruct (handle_fields now ev s) as (Ew & Eg & _ & Er).
  unfold early. rewrite Ew, Eg, Er. repeat split; try assumption.
  intros q H. apply handle_quiet in H as [H| ->]; [now apply Hq|lia].
Qed.

Lemma fire_early (t0 g : Z) (k : Timer) (d : Z) (s : Detector) :
  early t0 g s -> next_timer s = Some (k, d) -> early t0 g (fire k d s).
Proof.
  intros (Hq & Hw & Hg & Hr) Hn. apply next_timer_source in Hn.
  destruct (decide (k = SweepTimer)) as [->|Hk].
  - destruct (sweep_fields d s) as (Ew & Eg & _ & Er).
    pose proof (Hw d Hn) as Hd.
    unfold early. rewrite Ew, Eg, Er. repeat split; try assumption.
    + intros q. rewrite sweep_quiet. destruct (quietTimer s) as [q0|].
      * intros [= <-]. now apply Hq.
      * case_decide; [|discriminate]. intros [= <-]. lia.
    + intros w [= <-]. lia.
  - destruct (terminal_fields k d s Hk) as [(Eq & Ew & Eg & _) Er].
    unfold early. rewrite Eq, Ew, Eg, Er. repeat split; try discriminate.
    intros r [= <-]. destruct (resolvedAt s) as [r0|]; [now apply Hr|].
    destruct k; [congruence| |].
    + specialize (Hq d Hn). lia.
    + specialize (Hg d Hn). lia.
Qed.

Lemma fire_due_early (t0 g : Z) (fuel : nat) (t : Z) (s : Detector) :
  early t0 g s -> early t0 g (fire_due fuel t s).
Proof.
  revert s. induction fuel as [|fuel IH]; intros s H; [exact H|]. cbn.
  destruct (next_timer s) as [[k d]|] eqn:Hn; [|exact H].
  destruct (d <=? t); [|exact H]. now apply IH, fire_early.
Qed.

(** X11 — The promise never resolves before the first quiet window or the
    guard: when no event is stamped before the time the executor ran, a
    resolution time is at least that time plus 500 ms, or plus the guard
    delay if that is shorter. *)
Theorem no_settlement_before_quiet_window (trace : list (Z * Event))
    (t0 timeout horizon r : Z) :
  Forall (fun te => t0 <= te.1) trace ->
  resolvedAt (advance horizon (run trace (start_detector t0 timeout))) = Some r ->
  t0 + Z.min 500 (timerDelay timeout) <= r.
Proof.
  intros Hall Hr.
  assert (H : early t0 (t0 + timerDelay timeout)
                (advance horizon (run trace (start_detector t0 timeout)))).
  { apply fire_due_early. clear Hr.
    assert (H0 : early t0 (t0 + timerDelay timeout) (start_detector t0 timeout)).
    { split; [|split; [|split]].
      - change (quietTimer (start_detector t0 timeout)) with (Some (t0 + 500)).
        intros q [= <-]. lia.
      - change (stalledRequestSweepTimer (start_detector t0 timeout))
          with (Some (t0 + 500)).
        intros w [= <-]. lia.
      - change (guard (start_detector t0 timeout))
          with (Some (t0 + timerDelay timeout)).
        now intros x [= <-].
      - intros r0 [=]. }
    revert H0. generalize (start_detector t0 timeout).
    induction trace as [|te trace IH]; intros s H0; [exact H0|].
    apply Forall_cons in Hall as [Hte Hall]. cbn. apply IH; [exact Hall|].
    unfold deliver. pose proof (fire_due_early _ _ (S (sweeps_due te.1 s)) te.1 s H0) as H1.
    fold (advance te.1 s) in H1.
    destruct (listening (advance te.1 s)); [|exact H1]. now apply handle_early. }
  destruct H as (_ & _ & _ & H). specialize (H r Hr). lia.
Qed.

Lemma no_settlement_before_quiet_window_witness :
  0 + Z.min 500 (timerDelay 30000) <= 1200.
Proof.
  apply (no_settlement_before_quiet_window
           (slowScript ++ [(700, LoadingFinished "r1")]) 0 30000 5000 1200).
  - repeat constructor; cbn; lia.
  - reflexivity.
Defined.

(** ** Settlement after the last event *)

Lemma fire_due_resolvedBy (B : Z) (fuel : nat) (t : Z) (s : Detector) :
  t <= B -> resolvedBy B s -> resolvedBy B (fire_due fuel t s).
Proof.
  intros Ht. revert s. induction fuel as [|fuel IH]; intros s H; [exact H|]. cbn.
  destruct (next_timer s) as [[k d]|] eqn:Hn; [|exact H].
  destruct (Z.leb_spec d t); [|exact H]. apply IH.
  destruct (decide (k = SweepTimer)) as [->|Hk].
  - destruct (sweep_fields d s) as (_ & _ & _ & Er). unfold resolvedBy. now rewrite Er.
  - destruct (terminal_fields k d s Hk) as [_ Er]. unfold resolvedBy. rewrite Er.
    intros r [= <-]. destruct (resolvedAt s) as [r0|] eqn:E; [now apply H|lia].
Qed.

Lemma fire_recent (T : Z) (k : Timer) (d : Z) (s : Detector) :
  d <= T -> recent T s -> recent T (fire k d s).
Proof.
  intros Hd (Hq & Hw).
  destruct (decide (k = SweepTimer)) as [->|Hk].
  - destruct (sweep_fields d s) as (Ew & _). unfold recent. rewrite Ew. split.
    + intros q. rewrite sweep_quiet. destruct (quietTimer s) as [q0|].
      * intros [= <-]. now apply Hq.
      * case_decide; [|discriminate]. intros [= <-]. lia.
    + intros w [= <-]. lia.
  - destruct (terminal_fields k d s Hk) as [(Eq & Ew & _) _].
    unfold recent. rewrite Eq, Ew. split; discriminate.
Qed.

Lemma deliver_recent (T : Z) (s : Detector) (te : Z * Event) :
  te.1 <= T -> recent T s -> recent T (deliver s te).
Proof.
  intros Ht H. unfold deliver.
  assert (H1 : recent T (advance te.1 s)).
  { unfold advance. generalize (S (sweeps_due te.1 s)). intros fuel. revert s H.
    induction fuel as [|fuel IH]; intros s H; [exact H|]. cbn.
    destruct (next_timer s) as [[k d]|] eqn:Hn; [|exact H].
    destruct (Z.leb_spec d te.1); [|exact H]. apply IH, fire_recent; [lia|exact H]. }
  destruct (listening (advance te.1 s)); [|exact H1].
  destruct H1 as (Hq & Hw).
  destruct (handle_fields te.1 te.2 (advance te.1 s)) as (Ew & _).
  unfold recent. rewrite Ew. split; [|exact Hw].
  intros q Hq'. apply handle_quiet in Hq' as [Hq'| ->]; [now apply Hq|lia].
Qed.

Lemma fire_draining (T : Z) (k : Timer) (d : Z) (s : Detector) :
  steady T s -> draining T s -> next_timer s = Some (k, d) ->
  draining T (fire k d s).
Proof.
  intros Hst (Hq & Hw) Hn.
  pose proof (steady_pending T s k d Hst Hn) as Hr.
  pose proof (fire_steady T k d s Hst Hn) as (Ht' & _).
  destruct Hst as (_ & Hs & Hp & _).
  pose proof (next_timer_source s k d Hn) as Hsrc.
  destruct (decide (k = SweepTimer)) as [->|Hk].
  - destruct (sweep_fields d s) as (Ew & _). unfold draining. rewrite Ew. split.
    + intros q. rewrite sweep_quiet. destruct (quietTimer s) as [q0|] eqn:Eq.
      * intros [= <-]. now apply Hq.
      * case_decide; [|discriminate]. intros [= <-].
        destruct (Z.le_gt_cases d (T + 2500)) as [Hle|Hgt]; [lia|].
        assert (He : inflight s = ∅) by (apply (Hw d Hsrc); [lia|exact Hr]).
        apply (Hp Hr) in He. destruct He as [x Hx]. congruence.
    + intros w [= <-] Hlate _.
      unfold tracked in Ht'. rewrite <- Ht'. apply dom_empty_iff_L, map_empty.
      intros id. destruct (meta (fire SweepTimer d s) !! id) as [m|] eqn:Em;
        [|reflexivity].
      apply (proj2 (sweep_shrinks d s)) in Em as [Em Hage].
      specialize (Hs id m Em). lia.
  - destruct (terminal_fields k d s Hk) as [(Eq & Ew & _) Er].
    unfold draining. rewrite Eq, Ew. split; discriminate.
Qed.

Lemma fire_due_draining (T : Z) (fuel : nat) (t : Z) (s : Detector) :
  steady T s -> draining T s -> draining T (fire_due fuel t s).
Proof.
  revert s. induction fuel as [|fuel IH]; intros s Hst H; [exact H|]. cbn.
  destruct (next_timer s) as [[k d]|] eqn:Hn; [|exact H].
  destruct (d <=? t); [|exact H].
  apply IH; [now apply fire_steady|now apply fire_draining].
Qed.

(** X12 — Stalled requests cannot hold the promise for long: 3000 ms after
    the last event (and after the executor ran), the promise is resolved,
    whatever is still in flight and whatever the guard timeout. *)
Theorem settles_within_three_seconds (trace : list (Z * Event))
    (t0 timeout T : Z) :
  t0 <= T ->
  Forall (fun te => te.1 <= T) trace ->
  exists r,
    resolvedAt (advance (T + 3000) (run trace (start_detector t0 timeout))) = Some r /\
    r <= T + 3000.
Proof.
  intros H0 Hall.
  set (s1 := run trace (start_detector t0 timeout)).
  assert (Hst : steady T s1) by now apply steady_reached.
  assert (Hrec : recent T s1 /\ resolvedBy (T + 3000) s1).
  { subst s1.
    assert (Hs0 : recent T (start_detector t0 timeout)
                  /\ resolvedBy (T + 3000) (start_detector t0 timeout)).
    { split; [split|intros r [=]].
      - change (quietTimer (start_detector t0 timeout)) with (Some (t0 + 500)).
        intros q [= <-]. lia.
      - change (stalledRequestSweepTimer (start_detector t0 timeout))
          with (Some (t0 + 500)).
        intros w [= <-]. lia. }
    revert Hs0. generalize (start_detector t0 timeout). clear Hst.
    induction trace as [|te trace IH]; intros s Hs0; [exact Hs0|].
    apply Forall_cons in Hall as [Hte Hall]. cbn.
    apply IH; [exact Hall|]. destruct Hs0 as [Hrc Hrb].
    split; [now apply deliver_recent|].
    unfold deliver.
    pose proof (fire_due_resolvedBy (T + 3000) (S (sweeps_due te.1 s)) te.1 s
                  ltac:(lia) Hrb) as H1.
    fold (advance te.1 s) in H1.
    destruct (listening (advance te.1 s)); [|exact H1].
    destruct (handle_fields te.1 te.2 (advance te.1 s)) as (_ & _ & _ & Er).
    unfold resolvedBy. now rewrite Er. }
  destruct Hrec as [(Hq & Hw) Hrb].
  assert (Hdr : draining T s1).
  { split.
    - intros q Hq'. specialize (Hq q Hq'). lia.
    - intros w Hw' Hlate. specialize (Hw w Hw'). lia. }
  set (s2 := advance (T + 3000) s1).
  assert (Hst2 : steady T s2) by now apply fire_due_steady.
  assert (Hdr2 : draining T s2) by now apply fire_due_draining.
  assert (Hrb2 : resolvedBy (T + 3000) s2)
    by (apply fire_due_resolvedBy; [lia|exact Hrb]).
  destruct (resolvedAt s2) as [r|] eqn:Er.
  - exists r. split; [reflexivity|now apply Hrb2].
  - exfalso.
    destruct (quiescent_armed (T + 3000) s2 (advance_quiescent _ _)) as (Qw & Qq & _).
    destruct Hst2 as (_ & _ & Hp & Hu & _). destruct Hdr2 as (Dq & Dw).
    destruct (Hu Er) as ([w Ew] & _).
    specialize (Qw w Ew).
    assert (He : inflight s2 = ∅) by (apply (Dw w Ew); [lia|exact Er]).
    apply (Hp Er) in He. destruct He as [q Eq].
    specialize (Qq q Eq). specialize (Dq q Eq). lia.
Qed.

Lemma settles_within_three_seconds_witness :
  exists r,
    resolvedAt (advance (1100 + 3000) (run busyTrace (start_detector 0 30000))) = Some r /\
    r <= 1100 + 3000.
Proof.
  apply (settles_within_three_seconds busyTrace 0 30000 1100); [lia|].
  apply Forall_forall. intros te Hin.
  apply (bool_decide_unpack _). revert te Hin. apply Forall_forall.
  apply (bool_decide_unpack _). vm_compute. exact I.
Defined.

End DetectorBounds.

(* ================================================================== *)
(** * Properties of the captcha wait *)
(* ================================================================== *)

Section CaptchaFacts.

Import Captcha.
Local Open Scope Z_scope.

Ltac captcha_cases :=
  unfold hear, elapse, timerFired, onConsole, settle, isFinished, isStarted in *;
  cbn [fst snd started timeoutId attached outcome] in *;
  repeat match goal with
         | |- context [match ?x with _ => _ end] => destruct x eqn:?; cbn in *
         | H : context [match ?x with _ => _ end] |- _ => destruct x eqn:?; cbn in *
         end.

(** While the listener is attached and the solving has started, the timer
    cannot reject: only a "finished" message changes the promise. *)
Lemma hear_started (s : Solver) (m : Z * string) :
  attached s = true -> started s = true -> outcome s = solvedIf (isSolved (outcome s)) ->
  let s' := hear s m in
  attached s' = true /\ started s' = true /\
  outcome s' = solvedIf (isSolved (outcome s) || isFinished m).
Proof.
  intros Ha Hs Ho. destruct s as [st tid at' o]. cbn in Ha, Hs, Ho. subst st at'.
  destruct o; cbn in Ho; try discriminate; captcha_cases;
    repeat split; try reflexivity; try congruence.
Qed.

Lemma started_outcome (msgs : list (Z * string)) (s : Solver) (horizon : Z) :
  attached s = true -> started s = true -> outcome s = solvedIf (isSolved (outcome s)) ->
  outcome (elapse horizon (fold_left hear msgs s))
  = solvedIf (isSolved (outcome s) || existsb isFinished msgs).
Proof.
  revert s. induction msgs as [|m msgs IH]; intros s Ha Hs Ho.
  - cbn [fold_left existsb]. rewrite orb_false_r.
    destruct s as [st tid at' o]. cbn in Ha, Hs, Ho. subst st at'.
    destruct o; cbn in Ho; try discriminate; captcha_cases; reflexivity.
  - cbn [fold_left existsb].
    destruct (hear_started s m Ha Hs Ho) as (Ha' & Hs' & Ho').
    rewrite IH; try assumption.
    + rewrite Ho'. now destruct (isSolved (outcome s)), (isFinished m).
    + rewrite Ho'. now destruct (isSolved (outcome s)), (isFinished m).
Qed.

(** Before the deadline of the timer (or without a timer) a message only
    runs the listener. *)
Lemma hear_before_deadline (s : Solver) (m : Z * string) :
  attached s = true ->
  outcome s = solvedIf (isSolved (outcome s)) ->
  (forall d, timeoutId s = Some d -> m.1 < d) ->
  let s' := hear s m in
  attached s' = true /\
  started s' = started s || isStarted m && negb (isFinished m) /\
  outcome s' = solvedIf (isSolved (outcome s) || isFinished m) /\
  (forall d, timeoutId s' = Some d -> timeoutId s = Some d).
Proof.
  intros Ha Ho Ht. destruct s as [st tid at' o]. cbn in Ha, Ho, Ht. subst at'.
  assert (Hel : elapse m.1 {| started := st; timeoutId := tid; attached := true;
                              outcome := o |}
                = {| started := st; timeoutId := tid; attached := true; outcome := o |}).
  { unfold elapse. cbn. destruct tid as [d|]; [|reflexivity].
    specialize (Ht d eq_refl). destruct (Z.leb_spec d m.1); [lia|reflexivity]. }
  cbn zeta. unfold hear. rewrite Hel. cbn [attached].
  destruct o; cbn in Ho; try discriminate;
    unfold onConsole, settle, isFinished, isStarted; cbn;
    destruct (String.eqb m.2 "browserbase-solving-finished") eqn:Ef; cbn;
    try destruct (String.eqb m.2 "browserbase-solving-started") eqn:Es; cbn;
    repeat split; try reflexivity; try discriminate; try tauto;
    try (now rewrite orb_false_r); try (now rewrite orb_true_r).
Qed.

Lemma before_deadline_outcome (msgs : list (Z * string)) (s : Solver) :
  attached s = true ->
  outcome s = solvedIf (isSolved (outcome s)) ->
  (forall d, timeoutId s = Some d -> Forall (fun m => m.1 < d) msgs) ->
  let s' := fold_left hear msgs s in
  attached s' = true /\
  outcome s' = solvedIf (isSolved (outcome s) || existsb isFinished msgs) /\
  (forall d, timeoutId s' = Some d -> timeoutId s = Some d) /\
  (started s = true -> started s' = true).
Proof.
  revert s. induction msgs as [|m msgs IH]; intros s Ha Ho Ht; cbn zeta.
  - cbn [fold_left existsb]. rewrite orb_false_r. auto.
  - cbn [fold_left existsb].
    destruct (hear_before_deadline s m Ha Ho) as (Ha' & Hs' & Ho' & Ht').
    { intros d Hd. specialize (Ht d Hd). now apply Forall_cons in Ht as [? _]. }
    destruct (IH (hear s m)) as (Ha2 & Ho2 & Ht2 & Hs2).
    + exact Ha'.
    + rewrite Ho'. now destruct (isSolved (outcome s)), (isFinished m).
    + intros d Hd. apply Ht' in Hd. specialize (Ht d Hd).
      now apply Forall_cons in Ht as [_ ?].
    + split; [exact Ha2|]. split; [|split].
      * rewrite Ho2, Ho'.
        now destruct (isSolved (outcome s)), (isFinished m), (existsb isFinished msgs).
      * intros d Hd. apply Ht', Ht2, Hd.
      * intros Hst. apply Hs2. rewrite Hs', Hst. reflexivity.
Qed.

(** X13 — Without a timeout ([timeoutMs] left out, or 0) the promise of
    [waitForCaptchaSolve] is never rejected once [init()] has put its proxy
    in place (whether or not it went on to set [initialized]): it is
    fulfilled when the console listener was attached (the page was open)
    and a "browserbase-solving-finished" message was logged, and stays
    pending otherwise, for ever. *)
Theorem captcha_without_timeout (init pageClosed : bool) (timeoutMs : option Z)
    (now : Z) (msgs : list (Z * string)) (horizon : Z) :
  truthyNumber timeoutMs = false ->
  waitForCaptchaSolve BROWSERBASE {| intPage := InitProxy; initialized := init |}
    pageClosed timeoutMs now msgs horizon
  = solvedIf (negb pageClosed && existsb isFinished msgs).
Proof.
  intros Ht. unfold waitForCaptchaSolve, executor, onCall. cbn [intPage]. rewrite Ht.
  destruct pageClosed; cbn [negb andb].
  - assert (H : forall s, timeoutId s = None -> attached s = false ->
                          fold_left hear msgs s = s).
    { induction msgs as [|m msgs IH]; intros s H1 H2; [reflexivity|].
      cbn [fold_left]. assert (E : hear s m = s).
      { unfold hear, elapse. now rewrite H1, H2. }
      rewrite E. now apply IH. }
    rewrite H by reflexivity. reflexivity.
  - match goal with
    | |- outcome (elapse horizon (fold_left hear msgs ?s0)) = _ =>
        destruct (before_deadline_outcome msgs s0) as (_ & Ho & Hti & _);
          [reflexivity|reflexivity|discriminate|];
          assert (Hnone : timeoutId (fold_left hear msgs s0) = None)
    end.
    { match goal with
      | |- ?x = None => destruct x as [d|] eqn:E; [|reflexivity]
      end. specialize (Hti d eq_refl). discriminate Hti. }
    unfold elapse. rewrite Hnone. exact Ho.
Qed.

Lemma captcha_without_timeout_witness :
  waitForCaptchaSolve BROWSERBASE {| intPage := InitProxy; initialized := true |}
    false (Some 0) 0
    [(100, "browserbase-solving-started"%string)] 1000000
  = Waiting.
Proof.
  exact (captcha_without_timeout true false (Some 0) 0
           [(100, "browserbase-solving-started"%string)] 1000000 eq_refl).
Defined.

(** X14 — When "browserbase-solving-started" is logged before the deadline
    of the timeout, the timeout never rejects the promise: it is fulfilled
    if a "browserbase-solving-finished" message is logged, before or after
    the deadline, and stays pending otherwise. *)
Theorem captcha_started_never_times_out (init : bool) (timeoutMs : Z) (now : Z)
    (pre post : list (Z * string)) (t horizon : Z) :
  let deadline := now + SettledDom.timerDelay timeoutMs in
  Forall (fun m => m.1 < deadline) pre ->
  t < deadline ->
  waitForCaptchaSolve BROWSERBASE {| intPage := InitProxy; initialized := init |}
    false (Some timeoutMs) now
    (pre ++ (t, "browserbase-solving-started"%string) :: post) horizon
  = solvedIf (existsb isFinished (pre ++ post)).
Proof.
  intros deadline Hpre Ht. unfold waitForCaptchaSolve.
  rewrite fold_left_app. cbn [fold_left].
  set (s0 := executor {| intPage := InitProxy; initialized := init |} false
               (Some timeoutMs) now).
  assert (Htimer : forall d, timeoutId s0 = Some d -> d = deadline).
  { intros d. subst s0. unfold executor. destruct (truthyNumber (Some timeoutMs));
      cbn; [now intros [= <-]|discriminate]. }
  destruct (before_deadline_outcome pre s0) as (Ha & Ho & Hti & _).
  { subst s0. unfold executor. now destruct (truthyNumber _). }
  { subst s0. unfold executor. now destruct (truthyNumber _). }
  { intros d Hd. apply Htimer in Hd. now subst d. }
  set (s1 := fold_left hear pre s0) in *.
  assert (Hs0 : isSolved (outcome s0) = false).
  { subst s0. unfold executor. now destruct (truthyNumber _). }
  rewrite Hs0 in Ho. cbn [orb] in Ho.
  destruct (hear_before_deadline s1 (t, "browserbase-solving-started"%string))
    as (Ha2 & Hs2 & Ho2 & _).
  { exact Ha. }
  { rewrite Ho. now destruct (existsb isFinished pre). }
  { intros d Hd. apply Hti, Htimer in Hd. now subst d. }
  cbn zeta in Ha2, Hs2, Ho2.
  rewrite started_outcome.
  - rewrite Ho2, Ho, existsb_app. unfold isFinished at 2. cbn.
    now destruct (existsb isFinished pre), (existsb isFinished post).
  - exact Ha2.
  - rewrite Hs2. unfold isStarted, isFinished. cbn. apply orb_true_r.
  - rewrite Ho2. now destruct (isSolved (outcome s1)), (isFinished _).
Qed.

Lemma captcha_started_never_times_out_witness :
  waitForCaptchaSolve BROWSERBASE {| intPage := InitProxy; initialized := true |}
    false (Some 1000) 0
    ([(10, "hello"%string)] ++ (400, "browserbase-solving-started"%string) :: [])
    1000000
  = Waiting.
Proof.
  apply (captcha_started_never_times_out true 1000 0 [(10, "hello"%string)] [] 400
           1000000).
  - repeat constructor.
  - reflexivity.
Defined.

Lemma hear_unheard (deadline : Z) (s : Solver) (m : Z * string) :
  unheard deadline s ->
  attached s = false \/ (isFinished m || isStarted m = false) \/ deadline <= m.1 ->
  unheard deadline (hear s m) /\ attached (hear s m) = attached s.
Proof.
  intros Hu Hm. destruct s as [st tid at' o]. unfold unheard in *. cbn in *.
  destruct Hu as [(-> & -> & ->)|(-> & ->)].
  - unfold hear, elapse. cbn [timeoutId fst snd].
    destruct (Z.leb_spec deadline m.1) as [Hd|Hd].
    + unfold timerFired, settle. cbn.
      unfold onConsole, settle. cbn. destruct at'; cbn; [|auto].
      destruct (String.eqb m.2 "browserbase-solving-finished"); cbn; [auto|].
      destruct (String.eqb m.2 "browserbase-solving-started"); cbn; auto.
    + cbn. destruct at'; cbn; [|auto].
      destruct Hm as [Hm|[Hm|Hm]]; [discriminate| |lia].
      unfold isFinished, isStarted in Hm. apply orb_false_elim in Hm as [Hf Hs].
      unfold onConsole. rewrite Hf, Hs. auto.
  - unfold hear, elapse. cbn. destruct at'; cbn; [|auto].
    unfold onConsole, settle. cbn.
    destruct (String.eqb m.2 "browserbase-solving-finished"); cbn; [auto|].
    destruct (String.eqb m.2 "browserbase-solving-started"); cbn; auto.
Qed.

(** X15 — With a timeout, when the page is closed (no listener attached), or
    every "started" or "finished" message comes at or after the deadline,
    the promise is rejected with [CaptchaTimeoutError] from the deadline on,
    and a "finished" message logged later does not change that. *)
Theorem captcha_times_out (init pageClosed : bool) (timeoutMs now : Z)
    (msgs : list (Z * string)) (horizon : Z) :
  let deadline := now + SettledDom.timerDelay timeoutMs in
  timeoutMs <> 0 ->
  pageClosed = true \/
  Forall (fun m => isFinished m || isStarted m = true -> deadline <= m.1) msgs ->
  deadline <= horizon ->
  waitForCaptchaSolve BROWSERBASE {| intPage := InitProxy; initialized := init |}
    pageClosed (Some timeoutMs) now msgs horizon
  = Failed CaptchaTimeout.
Proof.
  intros deadline Hnz Hmsgs Hh. unfold waitForCaptchaSolve.
  set (s0 := executor {| intPage := InitProxy; initialized := init |} pageClosed
               (Some timeoutMs) now).
  assert (H0 : unheard deadline s0 /\ attached s0 = negb pageClosed).
  { subst s0. unfold executor, onCall, truthyNumber. cbn [intPage].
    destruct (Z.eqb_spec timeoutMs 0) as [|_]; [contradiction|].
    destruct pageClosed; cbn; (split; [left|]; auto). }
  assert (H : unheard deadline (fold_left hear msgs s0)).
  { destruct H0 as [Hu Ha]. revert Hu Ha. generalize s0.
    induction msgs as [|m msgs IH]; intros s Hu Ha; [exact Hu|].
    cbn [fold_left].
    destruct (hear_unheard deadline s m Hu) as [Hu' Ha'].
    { destruct Hmsgs as [->|Hall]; [left; exact Ha|right].
      apply Forall_cons in Hall as [Hm _].
      destruct (isFinished m || isStarted m) eqn:E; [right; now apply Hm|now left]. }
    apply IH; [|exact Hu'|congruence].
    destruct Hmsgs as [Hc|Hall]; [now left|right].
    now apply Forall_cons in Hall as [_ ?]. }
  destruct (fold_left hear msgs s0) as [st tid at' o]. unfold unheard in H. cbn in H.
  destruct H as [(-> & -> & ->)|(-> & ->)]; unfold elapse; cbn.
  - destruct (Z.leb_spec deadline horizon); [reflexivity|lia].
  - reflexivity.
Qed.

Lemma captcha_times_out_witness :
  waitForCaptchaSolve BROWSERBASE {| intPage := InitProxy; initialized := true |}
    false (Some 1000) 0
    [(200, "loading"%string); (1500, "browserbase-solving-finished"%string)] 2000
  = Failed CaptchaTimeout.
Proof.
  apply (captcha_times_out true false 1000 0
           [(200, "loading"%string); (1500, "browserbase-solving-finished"%string)] 2000).
  - discriminate.
  - right. repeat constructor; vm_compute; intros; discriminate.
  - vm_compute. discriminate.
Defined.

(** A rejected promise stays rejected. *)
Lemma elapse_failed (t : Z) (s : Solver) (e : CaptchaError) :
  outcome s = Failed e ->
  outcome (elapse t s) = Failed e /\ attached (elapse t s) = attached s.
Proof.
  intros Ho. destruct s as [st tid at' o]. cbn in Ho. subst o.
  unfold elapse, timerFired, settle. cbn.
  destruct tid as [d|]; [|now split]. destruct (d <=? t); [|now split].
  destruct st; now split.
Qed.

Lemma hear_detached (s : Solver) (m : Z * string) (e : CaptchaError) :
  attached s = false -> outcome s = Failed e ->
  attached (hear s m) = false /\ outcome (hear s m) = Failed e.
Proof.
  intros Ha Ho. unfold hear.
  destruct (elapse_failed m.1 s e Ho) as [Ho' Ha']. rewrite Ha'. rewrite Ha.
  split; congruence.
Qed.

(** The listener and the timer reject with [CaptchaTimeoutError] only. *)
Lemma elapse_own_error (t : Z) (s : Solver) (e : CaptchaError) :
  e <> CaptchaTimeout -> outcome s <> Failed e -> outcome (elapse t s) <> Failed e.
Proof.
  intros He Ho. destruct s as [st tid at' o]. cbn in Ho.
  unfold elapse, timerFired, settle. cbn.
  destruct tid as [d|]; [|exact Ho]. destruct (d <=? t); [|exact Ho].
  destruct st; cbn; [exact Ho|]. destruct o; congruence.
Qed.

Lemma hear_own_error (s : Solver) (m : Z * string) (e : CaptchaError) :
  e <> CaptchaTimeout -> outcome s <> Failed e -> outcome (hear s m) <> Failed e.
Proof.
  intros He Ho. unfold hear.
  pose proof (elapse_own_error m.1 s e He Ho) as H.
  destruct (attached (elapse m.1 s)); [|exact H].
  unfold onConsole, settle.
  destruct (String.eqb m.2 "browserbase-solving-finished"); cbn.
  - destruct (outcome (elapse m.1 s)); congruence.
  - destruct (String.eqb m.2 "browserbase-solving-started"); exact H.
Qed.

Lemma run_own_error (msgs : list (Z * string)) (s : Solver) (horizon : Z)
    (e : CaptchaError) :
  e <> CaptchaTimeout -> outcome s <> Failed e ->
  outcome (elapse horizon (fold_left hear msgs s)) <> Failed e.
Proof.
  intros He. revert s. induction msgs as [|m msgs IH]; intros s Ho; cbn [fold_left].
  - now apply elapse_own_error.
  - apply IH. now apply hear_own_error.
Qed.

(** X16 — The two ways [waitForCaptchaSolve] fails at once, whatever the
    timeout, the console messages and the time: it ends with
    [StagehandEnvironmentError] exactly in the LOCAL environment, and with
    [StagehandNotInitializedError] exactly on Browserbase when [intPage] is
    still the constructor's proxy and [initialized] is false (the proxied
    [on] throws inside the promise executor, and the timer that was set
    cannot change the rejection any more).  In particular a page object
    whose [init()] failed after it had put its proxy in place does not
    fail that way. *)
Theorem captcha_fails_at_once (env : Env) (pg : PageObject) (pageClosed : bool)
    (timeoutMs : option Z) (now : Z) (msgs : list (Z * string)) (horizon : Z) :
  (waitForCaptchaSolve env pg pageClosed timeoutMs now msgs horizon
   = Failed EnvironmentError <-> env = LOCAL) /\
  (waitForCaptchaSolve env pg pageClosed timeoutMs now msgs horizon
   = Failed NotInitializedError
   <-> env = BROWSERBASE /\ intPage pg = ConstructorProxy /\ initialized pg = false).
Proof.
  assert (Hthrown : forall s, attached s = false ->
                              outcome s = Failed NotInitializedError ->
                              outcome (elapse horizon (fold_left hear msgs s))
                              = Failed NotInitializedError).
  { induction msgs as [|m msgs IH]; intros s Ha Ho; cbn [fold_left].
    - now apply elapse_failed.
    - destruct (hear_detached s m _ Ha Ho). now apply IH. }
  split; split.
  - destruct env; [reflexivity|]. unfold waitForCaptchaSolve. intros H. exfalso.
    revert H. destruct pg as [[|] [|]], pageClosed; unfold executor, onCall;
      cbn [intPage initialized];
      first [ apply run_own_error; cbn; congruence
            | rewrite Hthrown by reflexivity; discriminate ].
  - now intros ->.
  - destruct env; [discriminate|]. unfold waitForCaptchaSolve. intros H.
    split; [reflexivity|].
    destruct pg as [[|] [|]]; cbn [intPage initialized]; [exfalso|now split|exfalso..];
      revert H; unfold executor, onCall; cbn [intPage initialized];
      destruct pageClosed; apply run_own_error; cbn; congruence.
  - intros (-> & Hp & Hi). unfold waitForCaptchaSolve, executor, onCall.
    rewrite Hp, Hi. apply Hthrown; reflexivity.
Qed.

End CaptchaFacts.

(* ================================================================== *)
(** * Properties of the selector parser *)
(* ================================================================== *)

Section SelectorParserFacts.

Import SelectorEngine.
Local Open Scope string_scope.

Lemma append_assoc (a b c : string) : (a ++ b) ++ c = a ++ (b ++ c).
Proof.
  induction a as [|x a IH]; [reflexivity|].
  change (String x ((a ++ b) ++ c) = String x (a ++ b ++ c)). now rewrite IH.
Qed.

Lemma append_nil_r (a : string) : a ++ "" = a.
Proof.
  induction a as [|x a IH]; [reflexivity|].
  change (String x (a ++ "") = String x a). now rewrite IH.
Qed.

Lemma allWhiteSpace_app (a b : string) :
  allWhiteSpace a = true -> allWhiteSpace b = true -> allWhiteSpace (a ++ b) = true.
Proof.
  induction a as [|x a IH]; simpl; [auto|].
  intros H Hb. apply andb_prop in H as [Hx Ha]. rewrite Hx. now apply IH.
Qed.

Lemma quote_not_space (q : ascii) : isQuote q = true -> isWhiteSpace q = false.
Proof.
  unfold isQuote. intros H. apply orb_prop in H as [H|H];
    apply Ascii.eqb_eq in H; subst q; reflexivity.
Qed.

Lemma trimStart_space (p s : string) :
  allWhiteSpace p = true -> trimStart (p ++ s) = trimStart s.
Proof.
  induction p as [|x p IH]; simpl; [reflexivity|].
  intros H. apply andb_prop in H as [Hx Hp]. rewrite Hx. now apply IH.
Qed.

Lemma trimStart_all_space (p : string) :
  allWhiteSpace p = true -> trimStart p = "".
Proof.
  induction p as [|x p IH]; simpl; [reflexivity|].
  intros H. apply andb_prop in H as [Hx Hp]. rewrite Hx. now apply IH.
Qed.

Lemma trimEnd_space (p : string) : allWhiteSpace p = true -> trimEnd p = "".
Proof.
  induction p as [|x p IH]; simpl; [reflexivity|].
  intros H. apply andb_prop in H as [Hx Hp]. now rewrite (IH Hp), Hx.
Qed.

Lemma trimEnd_app_space (s p : string) :
  allWhiteSpace p = true -> trimEnd (s ++ p) = trimEnd s.
Proof.
  intros Hp. induction s as [|x s IH]; simpl.
  - now apply trimEnd_space.
  - now rewrite IH.
Qed.

Lemma trimEnd_app (a b : string) :
  trimEnd b <> "" -> trimEnd (a ++ b) = a ++ trimEnd b.
Proof.
  intros Hb. induction a as [|x a IH]; simpl; [reflexivity|].
  rewrite IH. change (String x a ++ trimEnd b) with (String x (a ++ trimEnd b)).
  destruct (a ++ trimEnd b) eqn:E; [|reflexivity].
  exfalso. destruct a; [now apply Hb|discriminate E].
Qed.

Lemma trimEnd_cons (x : ascii) (s : string) :
  isWhiteSpace x = false -> trimEnd (String x s) = String x (trimEnd s).
Proof. intros Hx. simpl. destruct (trimEnd s); [now rewrite Hx|reflexivity]. Qed.

Lemma trimStart_length (s : string) :
  (String.length (trimStart s) <= String.length s)%nat /\
  (String.length (trimStart s) = String.length s -> trimStart s = s).
Proof.
  induction s as [|x s [IH1 IH2]]; simpl; [auto|].
  destruct (isWhiteSpace x); simpl; [|auto]. split; [lia|]. intros H. lia.
Qed.

Lemma trimEnd_length (s : string) :
  (String.length (trimEnd s) <= String.length s)%nat.
Proof.
  induction s as [|x s IH]; simpl; [lia|].
  destruct (trimEnd s); [destruct (isWhiteSpace x)|]; simpl in *; lia.
Qed.

(** A string that [trim] leaves alone has no white space at either end. *)
Lemma trim_fixed (s : string) :
  trim s = s -> trimStart s = s /\ trimEnd s = s.
Proof.
  unfold trim. intros H.
  assert (E : trimStart s = s).
  { apply trimStart_length.
    pose proof (proj1 (trimStart_length s)).
    pose proof (trimEnd_length (trimStart s)). rewrite H in *. lia. }
  split; [exact E|]. now rewrite E in H.
Qed.

Lemma trimStart_app (w s : string) :
  trimStart w = w -> w <> "" -> trimStart (w ++ s) = w ++ s.
Proof.
  destruct w as [|x w]; [congruence|]. simpl. intros H _.
  destruct (isWhiteSpace x); [|reflexivity].
  exfalso. pose proof (proj1 (trimStart_length w)) as Hl.
  rewrite H in Hl. simpl in Hl. lia.
Qed.

(** ["  w  "] trims to [w]. *)
Lemma trim_padded (p1 w p2 : string) :
  allWhiteSpace p1 = true -> allWhiteSpace p2 = true -> trim w = w ->
  trim (p1 ++ w ++ p2) = w.
Proof.
  intros H1 H2 Hw. destruct (trim_fixed w Hw) as [Hs He].
  unfold trim. rewrite trimStart_space by assumption.
  destruct w as [|x w].
  - change ("" ++ p2) with p2. now rewrite trimStart_all_space.
  - rewrite trimStart_app by (assumption || discriminate).
    now rewrite trimEnd_app_space.
Qed.

Lemma indexOf_app_found (c : ascii) (a r : string) :
  indexOf c a = None -> indexOf c (a ++ String c r) = Some (String.length a).
Proof.
  induction a as [|x a IH]; simpl.
  - now rewrite Ascii.eqb_refl.
  - destruct (Ascii.eqb x c); [discriminate|].
    destruct (indexOf c a); [discriminate|]. intros _. now rewrite IH.
Qed.

Lemma indexOf_app_none (c : ascii) (a b : string) :
  indexOf c a = None -> indexOf c b = None -> indexOf c (a ++ b) = None.
Proof.
  induction a as [|x a IH]; simpl; [auto|].
  destruct (Ascii.eqb x c); [discriminate|].
  destruct (indexOf c a); [discriminate|]. intros _ Hb. now rewrite IH.
Qed.

Lemma indexOf_space (p : string) :
  allWhiteSpace p = true -> indexOf "="%char p = None.
Proof.
  induction p as [|x p IH]; simpl; [reflexivity|].
  intros H. apply andb_prop in H as [Hx Hp]. rewrite (IH Hp).
  destruct (Ascii.eqb_spec x "="%char) as [->|_]; [discriminate Hx|reflexivity].
Qed.

Lemma stripTrailingQuote_app (v : string) (q : ascii) :
  isQuote q = true -> stripTrailingQuote (v ++ String q "") = v.
Proof.
  intros Hq. induction v as [|x v IH]; simpl.
  - now rewrite Hq.
  - rewrite IH. destruct (v ++ String q "") eqn:E; [|reflexivity].
    destruct v; discriminate E.
Qed.

(** X17 — What [parseSelector] makes of the two forms of a selector, with
    any white space around the parts: [name=value] gives that attribute name
    and the value without its surrounding quotes, splitting at the first
    ['='] (the value may contain more of them); a bare token gives the
    default attribute [data-__stagehand-id].  A value written between two
    quotes comes back exactly, whatever it contains. *)
Theorem parseSelector_forms (pad1 pad2 pad3 pad4 n w : string) :
  allWhiteSpace pad1 = true -> allWhiteSpace pad2 = true ->
  allWhiteSpace pad3 = true -> allWhiteSpace pad4 = true ->
  trim w = w ->
  (trim n = n -> indexOf "="%char n = None ->
   parseSelector (pad1 ++ n ++ pad2 ++ "=" ++ pad3 ++ w ++ pad4)
   = {| name := n; value := stripQuotes w |}) /\
  (indexOf "="%char w = None ->
   parseSelector (pad1 ++ w ++ pad4)
   = {| name := "data-__stagehand-id"; value := stripQuotes w |}) /\
  (forall q v, isQuote q = true ->
               trim (String q (v ++ String q "")) = String q (v ++ String q "") /\
               stripQuotes (String q (v ++ String q "")) = v).
Proof.
  intros H1 H2 H3 H4 Hw. split; [|split].
  - intros Hn Heq.
    set (Y := pad3 ++ w ++ pad4).
    assert (HY : trim (trimEnd Y) = w).
    { subst Y. rewrite <- append_assoc. rewrite trimEnd_app_space by assumption.
      destruct (trim_fixed w Hw) as [Hs He].
      destruct w as [|x w'].
      - rewrite append_nil_r. now rewrite trimEnd_space.
      - rewrite trimEnd_app by (rewrite He; discriminate). rewrite He.
        rewrite <- (append_nil_r (String x w')) at 1.
        now apply (trim_padded pad3 (String x w') ""). }
    assert (HX : exists X,
               trimStart (pad1 ++ n ++ pad2 ++ "=" ++ Y) = X ++ String "=" Y /\
               trim X = n /\ indexOf "="%char X = None).
    { rewrite trimStart_space by assumption.
      destruct (trim_fixed n Hn) as [Hs He].
      destruct n as [|x n'].
      - exists "". change ("" ++ pad2 ++ "=" ++ Y) with (pad2 ++ String "=" Y).
        rewrite trimStart_space by assumption. auto.
      - exists (String x n' ++ pad2). split; [|split].
        + rewrite trimStart_app by (assumption || discriminate).
          now rewrite append_assoc.
        + rewrite <- (trim_padded "" (String x n') pad2) at 2 by (assumption || reflexivity).
          reflexivity.
        + apply indexOf_app_none; [assumption|now apply indexOf_space]. }
    destruct HX as (X & HX1 & HX2 & HX3).
    assert (Hraw : trim (pad1 ++ n ++ pad2 ++ "=" ++ Y) = X ++ String "=" (trimEnd Y)).
    { unfold trim. rewrite HX1.
      rewrite trimEnd_app by (rewrite trimEnd_cons by reflexivity; discriminate).
      now rewrite trimEnd_cons by reflexivity. }
    unfold parseSelector. fold Y. rewrite Hraw.
    rewrite indexOf_app_found by assumption.
    rewrite slice_to_app, slice_from_app. now rewrite HX2, HY.
  - intros Heq. unfold parseSelector.
    rewrite trim_padded by assumption. now rewrite Heq.
  - intros q v Hq. pose proof (quote_not_space q Hq) as Hs. split.
    + unfold trim. simpl trimStart. rewrite Hs.
      rewrite trimEnd_cons by assumption. f_equal.
      rewrite trimEnd_app; [now rewrite trimEnd_cons|].
      rewrite trimEnd_cons by assumption. discriminate.
    + unfold stripQuotes. simpl stripLeadingQuote. rewrite Hq.
      now apply stripTrailingQuote_app.
Qed.

Lemma parseSelector_forms_witness :
  parseSelector "  data-testid = 'a=b c'  "
  = {| name := "data-testid"; value := "a=b c" |}.
Proof.
  exact (proj1 (parseSelector_forms "  " " " " " "  " "data-testid" "'a=b c'"
                  eq_refl eq_refl eq_refl eq_refl eq_refl) eq_refl eq_refl).
Defined.

End SelectorParserFacts.

(* ================================================================== *)
(** * The fallback recursion of [getCDPClient] *)
(* ================================================================== *)

Section FallbackRecursion.

Import SessionRegistry.

Variable newCDPSession : list Target -> Target -> Result Session JsError.
Variable page : Target.

Abbreviation acquire'' := (getCDPClient newCDPSession page).

(** A call that has returned returns the same with more fuel. *)
Lemma acquire_more_fuel (fuel : nat) (target : Target) (r r' : Registry) res :
  acquire'' fuel target r = (Some res, r') ->
  acquire'' (S fuel) target r = (Some res, r').
Proof.
  revert target r r' res. induction fuel as [|fuel IH]; intros target r r' res.
  - discriminate.
  - rewrite (acquire_unfold _ _ (S fuel)), (acquire_unfold _ _ fuel).
    destruct (cdpClients r !! target); [auto|].
    destruct (newCDPSession (attempts r) target) as [s|err]; [auto|].
    destruct (noSeparateSession err); [|auto].
    destruct (acquire'' fuel page (asked target r)) as [[res1|] r1] eqn:E.
    + rewrite (IH _ _ _ _ E). auto.
    + discriminate.
Qed.

(** X18 — The fallback of [getCDPClient] calls [getCDPClient(this.page)]
    without a bound.  When the engine never answers a request for the main
    page with the "no separate CDP session" error, every call returns after
    at most one fallback step.  When it always does, and the main page has
    no cached session, a call for the main page never returns. *)
Theorem fallback_recursion (r : Registry) :
  ((forall log err, newCDPSession log page = Err err -> noSeparateSession err = false) ->
   forall target fuel,
     exists res r', acquire'' (S (S fuel)) target r = (Some res, r')) /\
  ((forall log, exists err, newCDPSession log page = Err err /\
                            noSeparateSession err = true) ->
   cdpClients r !! page = None ->
   forall fuel, (acquire'' fuel page r).1 = None).
Proof.
  split.
  - intros Hpage target fuel.
    destruct (getCDPClient_completes newCDPSession page target r Hpage)
      as (res & r' & H).
    exists res, r'. induction fuel as [|fuel IH]; [exact H|].
    now apply acquire_more_fuel.
  - intros Hloop Hmiss fuel. revert r Hmiss.
    induction fuel as [|fuel IH]; intros r Hmiss; [reflexivity|].
    rewrite (acquire_miss _ _ _ _ _ Hmiss).
    destruct (Hloop (attempts r)) as (err & -> & ->).
    specialize (IH (asked page r) Hmiss).
    destruct (acquire'' fuel page (asked page r)) as [[[s|e]|] r1];
      cbn in IH; try discriminate. reflexivity.
Qed.

End FallbackRecursion.

Lemma fallback_recursion_witness :
  (SessionRegistry.getCDPClient
     (fun _ _ => Err {| message := Some "Frame does not have a separate CDP session."%string |})
     0 50 0
     {| SessionRegistry.cdpClients := ∅; SessionRegistry.attempts := [] |}).1
  = None.
Proof.
  apply (fallback_recursion
           (fun _ _ => Err {| message := Some "Frame does not have a separate CDP session."%string |})
           0 {| SessionRegistry.cdpClients := ∅; SessionRegistry.attempts := [] |}).
  - intros log. eexists. split; reflexivity.
  - reflexivity.
Defined.

(* ================================================================== *)
(** * The order of the traversal *)
(* ================================================================== *)

Section TraversalOrder.

Import SelectorEngine.

Variable backdoor : Backdoor.

Lemma flat_map_traverse (l : list Node) :
  flat_map (fun c => traverseAllTrees backdoor (NChild c)) l
  = flat_map (reachable backdoor) l.
Proof.
  induction l as [|c l IH]; [reflexivity|]. cbn [flat_map].
  now rewrite IH, traverseAllTrees_reachable.
Qed.

(** X19 — The traversal is in document order: an element is yielded first,
    then, child by child in order, everything its child nodes yield, then
    what the content of its shadow root yields when that root is open or
    resolved by the backdoor; a document yields what its root element
    yields, and a fragment what its child nodes yield, in order.  So [query]
    on an element that matches returns that element itself. *)
Theorem traversal_order (uid : nat) (attrs : list (string * string))
    (cn : list Node) (sh : option (ShadowRootMode * list Node))
    (selector : string) :
  let el := Element uid attrs cn sh in
  traverseAllTrees backdoor (NChild el)
  = el :: flat_map (fun c => traverseAllTrees backdoor (NChild c)) cn
       ++ match sh with
          | Some (mode, frag) =>
              if pierces backdoor uid mode
              then traverseAllTrees backdoor (NFragment frag)
              else []
          | None => []
          end /\
  traverseAllTrees backdoor (NDocument (Some el)) = traverseAllTrees backdoor (NChild el) /\
  traverseAllTrees backdoor (NDocument None) = [] /\
  traverseAllTrees backdoor (NFragment cn)
  = flat_map (fun c => traverseAllTrees backdoor (NChild c)) cn /\
  (attrMatches (parseSelector selector) el = true ->
   query backdoor (NChild el) selector = Some el).
Proof.
  intros el. rewrite !traverseAllTrees_reachable, !flat_map_traverse.
  split; [|split; [|split; [|split]]]; try reflexivity.
  - subst el. destruct sh as [[mode frag]|]; [|reflexivity].
    cbn [reachableFrom reachable].
    destruct (pierces backdoor uid mode); [|reflexivity].
    now rewrite traverseAllTrees_reachable.
  - intros Hm. unfold query. rewrite traverseAllTrees_reachable.
    subst el. cbn [reachableFrom reachable find]. now rewrite Hm.
Qed.

End TraversalOrder.

Lemma traversal_order_witness :
  SelectorEngine.query None
    (SelectorEngine.NChild (SelectorEngine.taggedElement 4 [] None)) "x"
  = Some (SelectorEngine.taggedElement 4 [] None).
Proof.
  apply (traversal_order None 4 [("data-__stagehand-id"%string, "x"%string)] [] None "x").
  reflexivity.
Defined.

(* ================================================================== *)
(** * What the detector logs *)
(* ================================================================== *)

Section DetectorLogs.

Import SettledDom DetectorInvariants.
Local Open Scope Z_scope.

Lemma slice_to_length (n : nat) (u : string) :
  (String.length (slice_to n u) <= n)%nat.
Proof.
  revert u. induction n as [|n IH]; intros u; [cbn; lia|].
  destruct u as [|c u]; cbn; [lia|]. specialize (IH u). lia.
Qed.

Lemma handle_logs (now : Z) (ev : Event) (s : Detector) :
  logs (handle now ev s) = logs s.
Proof.
  destruct (handle_cases now ev s) as [->|[(id & u & _)|(id & Hin & ->)]];
    [reflexivity| |].
  - destruct ev as [r ty f u'|r|r|r|r u'|f]; cbn.
    + unfold onRequest. now destruct (isLongLived ty).
    + unfold onFinish, finishReq. destruct (bool_decide _); [|reflexivity].
      match goal with
      | |- context [maybeQuiet now ?x] =>
          now destruct (maybeQuiet_requests now x) as (_ & _ & _ & _ & _ & _ & _ & ->)
      end.
    + unfold onFinish, finishReq. destruct (bool_decide _); [|reflexivity].
      match goal with
      | |- context [maybeQuiet now ?x] =>
          now destruct (maybeQuiet_requests now x) as (_ & _ & _ & _ & _ & _ & _ & ->)
      end.
    + unfold onCached, finishReq. destruct (bool_decide _); [|reflexivity].
      match goal with
      | |- context [maybeQuiet now ?x] =>
          now destruct (maybeQuiet_requests now x) as (_ & _ & _ & _ & _ & _ & _ & ->)
      end.
    + unfold onDataUrl. destruct (startsWith "data:" u'); [|reflexivity].
      unfold finishReq. destruct (bool_decide _); [|reflexivity].
      match goal with
      | |- context [maybeQuiet now ?x] =>
          now destruct (maybeQuiet_requests now x) as (_ & _ & _ & _ & _ & _ & _ & ->)
      end.
    + unfold onFrameStop. destruct (docByFrame s !! f) as [i|]; [|reflexivity].
      destruct (truthy i); [|reflexivity].
      unfold finishReq. destruct (bool_decide _); [|reflexivity].
      match goal with
      | |- context [maybeQuiet now ?x] =>
          now destruct (maybeQuiet_requests now x) as (_ & _ & _ & _ & _ & _ & _ & ->)
      end.
  - unfold finishReq. destruct (bool_decide _); [|reflexivity].
    match goal with
    | |- context [maybeQuiet now ?x] =>
        now destruct (maybeQuiet_requests now x) as (_ & _ & _ & _ & _ & _ & _ & ->)
    end.
Qed.

(** The sweep logs one entry per evicted request, with the URL cut. *)
Lemma sweep_logs (d : Z) (s : Detector) :
  exists urls,
    logs (fire SweepTimer d s)
    = logs s ++ map (fun u => LogStalled (slice_to 120 u)) urls.
Proof.
  cbn [fire]. unfold sweep.
  destruct (maybeQuiet_requests d (evictStalled d (setSweep (Some (d + 500)) s)))
    as (_ & _ & _ & _ & _ & _ & _ & ->).
  unfold evictStalled. cbn.
  exists (map (fun kv : string * RequestMeta => url kv.2)
            (map_to_list (filter (fun kv => stalled d kv.2 = true) (meta s)))).
  now rewrite map_map.
Qed.

Lemma fire_logDiscipline (k : Timer) (d : Z) (s : Detector) :
  resolvedAt s = None -> logDiscipline s -> logDiscipline (fire k d s).
Proof.
  intros Hr (Hwf & Hcount & Hnone). specialize (Hnone Hr).
  destruct k.
  - unfold logDiscipline. destruct (sweep_logs d s) as [urls ->].
    assert (Hf : List.filter isTimeoutLog
                   (map (fun u => LogStalled (slice_to 120 u)) urls) = []).
    { induction urls as [|u urls IH]; [reflexivity|exact IH]. }
    split; [|split].
    + apply Forall_app. split; [exact Hwf|].
      apply Forall_fmap, Forall_true. intros u. apply slice_to_length.
    + rewrite List.filter_app, Hnone, Hf. cbn. lia.
    + intros _. now rewrite List.filter_app, Hnone, Hf.
  - cbn [fire]. unfold logDiscipline, resolveDone. cbn. rewrite Hr.
    split; [exact Hwf|]. split; [exact Hcount|]. discriminate.
  - cbn [fire]. unfold guardFired.
    destruct (Nat.eqb_spec (size (inflight s)) 0) as [E|E]; cbn [negb].
    + unfold logDiscipline, resolveDone. cbn. rewrite Hr.
      split; [exact Hwf|]. split; [exact Hcount|]. discriminate.
    + unfold logDiscipline, resolveDone, addLogs. cbn. rewrite Hr.
      split; [|split; [|discriminate]].
      * apply Forall_app. split; [exact Hwf|]. repeat constructor. cbn. lia.
      * rewrite List.filter_app, Hnone. cbn. lia.
Qed.

(** X20 — What the detector logs, in any state it reaches: every
    stalled-request entry carries at most 120 characters of the URL; the
    timeout warning is logged at most once, never with a count of 0, and
    not before the promise is resolved. *)
Theorem detector_log_discipline (trace : list (Z * Event)) (t0 timeout horizon : Z) :
  let s := advance horizon (run trace (start_detector t0 timeout)) in
  Forall wellFormedLog (logs s) /\
  (length (List.filter isTimeoutLog (logs s)) <= 1)%nat /\
  (resolvedAt s = None -> List.filter isTimeoutLog (logs s) = []).
Proof.
  destruct (trace_bound t0 trace) as (T & _ & Hall).
  assert (Hfd : forall fuel t s, steady T s -> logDiscipline s ->
                                 logDiscipline (fire_due fuel t s)).
  { induction fuel as [|fuel IH]; intros t s Hst Hl; [exact Hl|]. cbn.
    destruct (next_timer s) as [[k d]|] eqn:Hn; [|exact Hl].
    destruct (d <=? t); [|exact Hl].
    apply IH; [now apply fire_steady|].
    apply fire_logDiscipline; [|exact Hl]. exact (steady_pending T s k d Hst Hn). }
  assert (Hrun : forall tr s, Forall (fun te => te.1 <= T) tr -> steady T s ->
                              logDiscipline s ->
                              steady T (run tr s) /\ logDiscipline (run tr s)).
  { induction tr as [|te tr IH]; intros s Ha Hst Hl; [now split|].
    apply Forall_cons in Ha as [Hte Ha]. cbn. apply IH; [exact Ha| |].
    - now apply deliver_steady.
    - unfold deliver. pose proof (Hfd (S (sweeps_due te.1 s)) te.1 s Hst Hl) as H1.
      fold (advance te.1 s) in H1.
      destruct (listening (advance te.1 s)); [|exact H1].
      destruct (handle_fields te.1 te.2 (advance te.1 s)) as (_ & _ & _ & Er).
      unfold logDiscipline. now rewrite handle_logs, Er. }
  destruct (Hrun trace (start_detector t0 timeout) Hall (start_steady _ _ _))
    as [Hst Hl].
  { unfold logDiscipline.
    change (logs (start_detector t0 timeout)) with (@nil LogEntry).
    split; [constructor|]. split; [cbn; lia|reflexivity]. }
  exact (Hfd _ _ _ Hst Hl).
Qed.

Lemma detector_log_discipline_witness :
  List.filter isTimeoutLog
    (logs (advance 900 (run busyTrace (start_detector 0 30000)))) = [].
Proof.
  destruct (detector_log_discipline busyTrace 0 30000 900) as (_ & _ & H).
  apply H. reflexivity.
Defined.

End DetectorLogs.

(* ================================================================== *)
(** * Properties of the helper-script injection *)
(* ================================================================== *)

Section HelperScriptFacts.

Import HelperScript.

Lemma ensure_onceOnly (isClosed : bool) (a : Answers) (p : PageState) :
  onceOnly p -> onceOnly (ensureStagehandScript isClosed a p).2.
Proof.
  unfold onceOnly, ensureStagehandScript, caught, withWindow, runGuarded.
  intros H. destruct p as [[inj runs] scripts logged]. cbn in *.
  destruct (checkInjected a); [destruct isClosed; exact H|].
  destruct inj; [exact H|].
  destruct (addInitScript a); [destruct isClosed; exact H|].
  destruct (evaluateGuarded a); cbn; try (destruct isClosed; cbn); lia.
Qed.

(** X21 — [ensureStagehandScript] on one document, whatever the page answers
    and however often it is called: the helper script is started at most
    once, exactly when the flag [__stagehandInjected] is up, and the flag is
    never taken down; a call rejects only while the stagehand is open, with
    one "Failed to inject" entry logged; and a call that resolves while the
    stagehand is open leaves the flag up. *)
Theorem helper_script_runs_once (calls : list (bool * Answers))
    (isClosed : bool) (a : Answers) :
  let p := ensureAll calls freshPage in
  let res := (ensureStagehandScript isClosed a p).1 in
  let p' := (ensureStagehandScript isClosed a p).2 in
  helperRuns (window p') <= 1 /\
  (helperRuns (window p') = 1 <-> stagehandInjected (window p') = true) /\
  (stagehandInjected (window p) = true -> stagehandInjected (window p') = true) /\
  (forall e, res = Err e ->
             isClosed = false /\ failuresLogged p' = S (failuresLogged p)) /\
  (res = Ok tt -> isClosed = false -> stagehandInjected (window p') = true).
Proof.
  intros p res p'.
  assert (Hp : onceOnly p).
  { subst p. unfold ensureAll. generalize freshPage (eq_refl : onceOnly freshPage).
    induction calls as [|c calls IH]; intros q Hq; [exact Hq|].
    cbn [fold_left]. apply IH. now apply ensure_onceOnly. }
  pose proof (ensure_onceOnly isClosed a p Hp) as Hp'. fold p' in Hp'.
  unfold onceOnly in Hp'.
  split; [|split; [|split; [|split]]].
  - rewrite Hp'. destruct (stagehandInjected (window p')); lia.
  - rewrite Hp'. destruct (stagehandInjected (window p')); split;
      congruence || discriminate.
  - subst p' res. unfold ensureStagehandScript, caught, withWindow, runGuarded.
    intros Hinj. rewrite Hinj.
    destruct (checkInjected a); [destruct isClosed; exact Hinj|exact Hinj].
  - subst p' res. unfold ensureStagehandScript, caught, withWindow.
    intros e.
    destruct (checkInjected a); [destruct isClosed; cbn; [discriminate|auto]|].
    destruct (stagehandInjected (window p)); [discriminate|].
    destruct (addInitScript a); [destruct isClosed; cbn; [discriminate|auto]|].
    destruct (evaluateGuarded a); cbn; [discriminate| |];
      destruct isClosed; cbn; try discriminate; auto.
  - subst p' res. unfold ensureStagehandScript, caught, withWindow, runGuarded.
    intros Hok ->.
    destruct (checkInjected a); [discriminate|].
    destruct (stagehandInjected (window p)) eqn:E; [exact E|].
    destruct (addInitScript a); [discriminate|].
    destruct (evaluateGuarded a); cbn in *; try discriminate. now rewrite E.
Qed.

End HelperScriptFacts.

Lemma helper_script_runs_once_witness :
  let failing := {| HelperScript.checkInjected := None;
                    HelperScript.addInitScript := None;
                    HelperScript.evaluateGuarded :=
                      HelperScript.RejectedBefore {| message := Some "navigated"%string |} |} in
  let working := {| HelperScript.checkInjected := None;
                    HelperScript.addInitScript := None;
                    HelperScript.evaluateGuarded := HelperScript.Completed |} in
  HelperScript.stagehandInjected
    (HelperScript.window
       (HelperScript.ensureStagehandScript false working
          (HelperScript.ensureAll [(false, failing)] HelperScript.freshPage)).2)
  = true.
Proof.
  intros failing working.
  destruct (helper_script_runs_once [(false, failing)] false working)
    as (_ & _ & _ & _ & H).
  apply H; reflexivity.
Defined.
